(** * Argue: a shallow embedding of [argue.hpp]

    The development follows the header top-down: string views, the
    [TextBuilder] layout engine, the option and positional-argument
    families, and the recursive [IArgParser::Parse] tree walk.  The
    hint and help writers and [HelpCommand] are not embedded.  All
    definitions are executable. *)

From Stdlib Require Import String Ascii List ZArith Lia Bool.
Import ListNotations.

Local Open Scope string_scope.
Local Open Scope Z_scope.

(** ** [std::string_view] operations used by the header *)

Module SV.

(** [sv.starts_with(pre)] *)
Fixpoint starts_with (sv pre : string) : bool :=
  match pre, sv with
  | EmptyString, _ => true
  | String _ _, EmptyString => false
  | String p pre', String c sv' => Ascii.eqb c p && starts_with sv' pre'
  end.

(** [sv.remove_prefix(n)]; the header only calls it with [n <= size]. *)
Fixpoint remove_prefix (n : nat) (sv : string) : string :=
  match n, sv with
  | O, _ => sv
  | S _, EmptyString => EmptyString
  | S n', String _ sv' => remove_prefix n' sv'
  end.

(** [sv.substr(0, n)] *)
Fixpoint take (n : nat) (sv : string) : string :=
  match n, sv with
  | O, _ => EmptyString
  | S _, EmptyString => EmptyString
  | S n', String c sv' => String c (take n' sv')
  end.

(** [sv.find_first_of(chars)] generalised to a predicate; [None] is [npos]. *)
Fixpoint find_if (p : ascii -> bool) (sv : string) : option nat :=
  match sv with
  | EmptyString => None
  | String c sv' =>
      if p c then Some O
      else match find_if p sv' with
           | Some i => Some (S i)
           | None => None
           end
  end.

(** [sv.find(ch)] *)
Definition find (ch : ascii) (sv : string) : option nat :=
  find_if (Ascii.eqb ch) sv.

(** [s.back()], defined on non-empty strings only. *)
Fixpoint back (s : string) : option ascii :=
  match s with
  | EmptyString => None
  | String c EmptyString => Some c
  | String _ s' => back s'
  end.

(** [s.pop_back()] *)
Fixpoint pop_back (s : string) : string :=
  match s with
  | EmptyString => EmptyString
  | String _ EmptyString => EmptyString
  | String c s' => String c (pop_back s')
  end.

Definition empty (s : string) : bool :=
  match s with EmptyString => true | _ => false end.

Definition size (s : string) : Z := Z.of_nat (String.length s).

(** [s.ends_with(ch)] *)
Definition ends_with_char (s : string) (ch : ascii) : bool :=
  match back s with
  | Some c => Ascii.eqb c ch
  | None => false
  end.

(** [s.starts_with(ch)] *)
Definition starts_with_char (s : string) (ch : ascii) : bool :=
  match s with
  | String c _ => Ascii.eqb c ch
  | EmptyString => false
  end.

(** The string made of [n] copies of [s]. *)
Fixpoint replicate (n : nat) (s : string) : string :=
  match n with
  | O => EmptyString
  | S n' => s ++ replicate n' s
  end.

End SV.

(** [size_t] arithmetic wraps modulo [2^64]. *)
Definition size_t_wrap (z : Z) : Z := z mod 2 ^ 64.

Definition LF : ascii := "010"%char.
Definition LF_s : string := String LF EmptyString.

(** [SPACE_CHARS = " \f\n\r\t\v"] *)
Definition SPACE_CHARS : list ascii :=
  [" "%char; "012"%char; "010"%char; "013"%char; "009"%char; "011"%char].

(** [IsSpace(ch)]: membership in [SPACE_CHARS]. *)
Definition IsSpace (ch : ascii) : bool :=
  existsb (Ascii.eqb ch) SPACE_CHARS.

(** ** TextBuilder *)

Record TextBuilder := mkTextBuilder {
  m_Text : string;
  m_IndentationLevel : Z;
  m_CurrentLine : string;
  m_CurrentLineIndentLength : Z;
  m_Indent : string;
  m_IndentOnWrap : bool;
  m_MaxParagraphWidth : Z
}.

(** [TextBuilder(indent, indentOnWrap, maxParagraphWidth)] *)
Definition TextBuilder_new (indent : string) (indentOnWrap : bool)
    (maxParagraphWidth : Z) : TextBuilder :=
  mkTextBuilder "" 0 "" 0 indent indentOnWrap maxParagraphWidth.

(** The default-constructed builder: indent of two spaces, wrap at 80. *)
Definition TextBuilder_default : TextBuilder := TextBuilder_new "  " true 80.

Definition set_Text (tb : TextBuilder) (t : string) : TextBuilder :=
  mkTextBuilder t (m_IndentationLevel tb) (m_CurrentLine tb)
    (m_CurrentLineIndentLength tb) (m_Indent tb) (m_IndentOnWrap tb)
    (m_MaxParagraphWidth tb).

Definition set_CurrentLine (tb : TextBuilder) (l : string) : TextBuilder :=
  mkTextBuilder (m_Text tb) (m_IndentationLevel tb) l
    (m_CurrentLineIndentLength tb) (m_Indent tb) (m_IndentOnWrap tb)
    (m_MaxParagraphWidth tb).

Definition set_CurrentLineIndentLength (tb : TextBuilder) (n : Z) : TextBuilder :=
  mkTextBuilder (m_Text tb) (m_IndentationLevel tb) (m_CurrentLine tb)
    n (m_Indent tb) (m_IndentOnWrap tb) (m_MaxParagraphWidth tb).

Definition set_IndentationLevel (tb : TextBuilder) (n : Z) : TextBuilder :=
  mkTextBuilder (m_Text tb) n (m_CurrentLine tb)
    (m_CurrentLineIndentLength tb) (m_Indent tb) (m_IndentOnWrap tb)
    (m_MaxParagraphWidth tb).

(** The loop [while (!s.empty() && IsSpace(s.back())) s.pop_back();],
    by recursion from the front: a character is kept unless it is a
    space and everything after it has been removed. *)
Fixpoint TrimTrailingSpace (s : string) : string :=
  match s with
  | EmptyString => EmptyString
  | String c s' =>
      match TrimTrailingSpace s' with
      | EmptyString => if IsSpace c then EmptyString else String c EmptyString
      | r => String c r
      end
  end.

(** [TextBuilder::NewLine] *)
Definition NewLine (tb : TextBuilder) : TextBuilder :=
  if 0 <? SV.size (m_CurrentLine tb) then
    let tb1 := if negb (SV.empty (m_Text tb))
               then set_Text tb (m_Text tb ++ LF_s) else tb in
    let line := TrimTrailingSpace (m_CurrentLine tb1) in
    let tb2 := set_Text tb1 (m_Text tb1 ++ line) in
    set_CurrentLine (set_CurrentLineIndentLength tb2 0) ""
  else tb.

(** [TextBuilder::Spacer] *)
Definition Spacer (tb : TextBuilder) : TextBuilder :=
  let tb1 := NewLine tb in
  if negb (SV.ends_with_char (m_Text tb1) LF)
  then set_Text tb1 (m_Text tb1 ++ LF_s)
  else tb1.

(** [TextBuilder::Indent] *)
Definition Indent (tb : TextBuilder) : TextBuilder :=
  set_IndentationLevel tb (size_t_wrap (m_IndentationLevel tb + 1)).

(** [TextBuilder::DeIndent] *)
Definition DeIndent (tb : TextBuilder) : TextBuilder :=
  if 0 <? m_IndentationLevel tb
  then set_IndentationLevel tb (m_IndentationLevel tb - 1)
  else tb.

(** [TextBuilder::Build]: returns the built string together with the
    builder as the call leaves it.  The body only reads the members. *)
Definition Build (tb : TextBuilder) : string * TextBuilder :=
  let result :=
    if SV.empty (m_Text tb) then m_CurrentLine tb
    else m_Text tb ++ LF_s ++ m_CurrentLine tb in
  (TrimTrailingSpace result ++ LF_s, tb).

(** [TextBuilder::PutLineIndent] *)
Definition PutLineIndent (tb : TextBuilder) (hasWrapped : bool) : TextBuilder :=
  if SV.empty (m_CurrentLine tb) then
    let tb1 := set_CurrentLineIndentLength tb
                 (size_t_wrap (m_IndentationLevel tb * SV.size (m_Indent tb))) in
    let tb2 :=
      if hasWrapped && m_IndentOnWrap tb1 then
        set_CurrentLine
          (set_CurrentLineIndentLength tb1
             (size_t_wrap (m_CurrentLineIndentLength tb1 + SV.size (m_Indent tb1))))
          (m_CurrentLine tb1 ++ m_Indent tb1)
      else tb1 in
    set_CurrentLine tb2
      (m_CurrentLine tb2
         ++ SV.replicate (Z.to_nat (m_IndentationLevel tb2)) (m_Indent tb2))
  else tb.

(** The body of [TextBuilder::PutLine]'s [while (true)]; every iteration
    that does not [break] removes at least one character of [text], so
    [fuel] bounds the iterations.  [None] means the fuel ran out. *)
Fixpoint PutLine_loop (fuel : nat) (tb : TextBuilder) (text : string)
    : option TextBuilder :=
  match fuel with
  | O => None
  | S fuel' =>
      let currentLineWidth :=
        size_t_wrap (SV.size (m_CurrentLine tb) - m_CurrentLineIndentLength tb) in
      let hasWrapped :=
        negb (SV.empty (m_CurrentLine tb)) &&
        (m_MaxParagraphWidth tb <=? currentLineWidth) &&
        (match SV.back (m_CurrentLine tb) with
         | Some c => IsSpace c
         | None => false
         end
         || match text with
            | String c _ => IsSpace c
            | EmptyString => false
            end) in
      let tb1 := if hasWrapped then NewLine tb else tb in
      let tb2 := PutLineIndent tb1 hasWrapped in
      match SV.find_if IsSpace text with
      | None => Some (set_CurrentLine tb2 (m_CurrentLine tb2 ++ text))
      | Some nextWordIdx =>
          let tb3 :=
            match nextWordIdx with
            | S _ =>
                set_CurrentLine tb2
                  (m_CurrentLine tb2 ++ SV.take nextWordIdx text ++ " ")
            | O =>
                if negb hasWrapped
                then set_CurrentLine tb2 (m_CurrentLine tb2 ++ " ")
                else tb2
            end in
          PutLine_loop fuel' tb3 (SV.remove_prefix (S nextWordIdx) text)
      end
  end.

(** [TextBuilder::PutLine] *)
Definition PutLine (tb : TextBuilder) (text : string) : option TextBuilder :=
  PutLine_loop (S (String.length text)) tb text.

(** [TextBuilder::PutText]: [seg] accumulates the characters before the
    next line break, i.e. [text.substr(0, newLineIdx)]. *)
Fixpoint PutText_from (tb : TextBuilder) (seg text : string)
    : option TextBuilder :=
  match text with
  | EmptyString => PutLine tb seg
  | String c rest =>
      if Ascii.eqb c LF then
        match PutLine tb seg with
        | Some tb1 => PutText_from (NewLine tb1) "" rest
        | None => None
        end
      else PutText_from tb (seg ++ String c EmptyString) rest
  end.

Definition PutText (tb : TextBuilder) (text : string) : option TextBuilder :=
  PutText_from tb "" text.

(** A call on the builder, and the run of a sequence of calls. *)
Inductive TextCall :=
| CPutText (text : string)
| CNewLine
| CSpacer
| CIndent
| CDeIndent.

Definition run_call (tb : TextBuilder) (c : TextCall) : option TextBuilder :=
  match c with
  | CPutText t => PutText tb t
  | CNewLine => Some (NewLine tb)
  | CSpacer => Some (Spacer tb)
  | CIndent => Some (Indent tb)
  | CDeIndent => Some (DeIndent tb)
  end.

Fixpoint run_calls (tb : TextBuilder) (cs : list TextCall) : option TextBuilder :=
  match cs with
  | [] => Some tb
  | c :: cs' =>
      match run_call tb c with
      | Some tb' => run_calls tb' cs'
      | None => None
      end
  end.

(** ** [std::from_chars] for [int64_t], base 10

    The conversion primitive of the C++ standard library, modelled from
    its specification: an optional minus sign followed by the longest
    run of decimal digits.  [fc_ptr] is the offset of the returned
    pointer from [first]; [fc_value] is [Some v] when the conversion
    writes [v] into its output argument and [None] when it leaves the
    argument untouched (no digits, or a value outside the range). *)

Inductive errc := errc_none | errc_invalid_argument | errc_result_out_of_range.

Record from_chars_result := mk_from_chars_result {
  fc_ptr : nat;
  fc_ec : errc;
  fc_value : option Z
}.

Definition INT64_MIN : Z := - 2 ^ 63.
Definition INT64_MAX : Z := 2 ^ 63 - 1.

Definition is_digit (c : ascii) : bool :=
  let n := Z.of_nat (nat_of_ascii c) in (48 <=? n) && (n <=? 57).

Definition digit_value (c : ascii) : Z := Z.of_nat (nat_of_ascii c) - 48.

(** Reads the leading digits of [s]: the accumulated value and how many
    characters were read. *)
Fixpoint read_digits (acc : Z) (s : string) : Z * nat :=
  match s with
  | String c s' =>
      if is_digit c then
        let '(v, n) := read_digits (10 * acc + digit_value c) s' in (v, S n)
      else (acc, O)
  | EmptyString => (acc, O)
  end.

Definition from_chars_int64 (sv : string) : from_chars_result :=
  let '(neg, body) :=
    match sv with
    | String c rest => if Ascii.eqb c "-"%char then (true, rest) else (false, sv)
    | EmptyString => (false, sv)
    end in
  let '(magnitude, ndigits) := read_digits 0 body in
  match ndigits with
  | O => mk_from_chars_result O errc_invalid_argument None
  | S _ =>
      let value := if neg then - magnitude else magnitude in
      let consumed := ((if neg then 1 else 0) + ndigits)%nat in
      if (INT64_MIN <=? value) && (value <=? INT64_MAX)
      then mk_from_chars_result consumed errc_none (Some value)
      else mk_from_chars_result consumed errc_result_out_of_range None
  end.

(** ** The error slot and prefixes shared by a parser tree

    [ArgParser] owns these three members; every [CommandParser]
    forwards [GetError]/[SetError]/[HasError]/[GetPrefix]/
    [GetShortPrefix] to its parent, so one record serves the tree. *)

Record Shared := mkShared {
  m_Prefix : string;
  m_ShortPrefix : string;
  m_ErrorMessage : string
}.

Definition GetPrefix (sh : Shared) : string := m_Prefix sh.
Definition GetShortPrefix (sh : Shared) : string := m_ShortPrefix sh.
Definition GetError (sh : Shared) : string := m_ErrorMessage sh.

(** [ArgParser::SetError]; the C++ method always returns [false]. *)
Definition SetError (sh : Shared) (errorMessage : string) : Shared :=
  mkShared (m_Prefix sh) (m_ShortPrefix sh) errorMessage.

(** [ArgParser::HasError] *)
Definition HasError (sh : Shared) : bool := negb (SV.empty (m_ErrorMessage sh)).

(** [IArgParser::HasShortPrefix] *)
Definition HasShortPrefix (sh : Shared) : bool :=
  0 <? SV.size (GetShortPrefix sh).

(** ** Options *)

(** The members each concrete option class adds to [IOption].  An
    [IntOption]'s [m_Value] is [None] while it holds the content of an
    [int64_t] local that was never written.  [FlagGroupOption], whose
    [SetValue] writes through pointers into other flags, is not
    embedded; no property below concerns it. *)
Inductive OptionData :=
| FlagOption (m_Value m_Default : bool)
| IntOption (m_Value : option Z) (m_HasDefault : bool) (m_Default : Z)
| StrOption (m_Value : string) (m_HasDefault : bool) (m_Default : string)
| ChoiceOption (m_ValueIdx : nat) (m_Choices : list string)
               (m_HasDefault : bool) (m_DefaultIdx : nat)
| CollectionOption (m_Value : list string) (m_AcceptEmptyValues : bool).

Record IOption := mkIOption {
  IOption_WasParsed : bool;
  IOption_Name : string;
  IOption_ShortName : string;
  IOption_MetaVar : string;
  IOption_Description : string;
  IOption_data : OptionData
}.

Definition IOption_with (opt : IOption) (wasParsed : bool) (d : OptionData)
    : IOption :=
  mkIOption wasParsed (IOption_Name opt) (IOption_ShortName opt)
    (IOption_MetaVar opt) (IOption_Description opt) d.

Definition HasMetaVar (opt : IOption) : bool := negb (SV.empty (IOption_MetaVar opt)).
Definition HasShortName (opt : IOption) : bool := negb (SV.empty (IOption_ShortName opt)).
Definition WasParsed (opt : IOption) : bool := IOption_WasParsed opt.

(** Constructors, in the order of the header. *)
Definition FlagOption_new (name shortName description : string)
    (defaultValue : bool) : IOption :=
  mkIOption false name shortName "" description (FlagOption defaultValue defaultValue).

Definition IntOption_new (name shortName metaVar description : string) : IOption :=
  mkIOption false name shortName metaVar description (IntOption (Some 0) false 0).

Definition IntOption_new_default (name shortName metaVar description : string)
    (defaultValue : Z) : IOption :=
  mkIOption false name shortName metaVar description
    (IntOption (Some 0) true defaultValue).

Definition StrOption_new (name shortName metaVar description : string) : IOption :=
  mkIOption false name shortName metaVar description (StrOption "" false "").

Definition StrOption_new_default (name shortName metaVar description : string)
    (defaultValue : string) : IOption :=
  mkIOption false name shortName metaVar description (StrOption "" true defaultValue).

Definition ChoiceOption_new (name shortName metaVar description : string)
    (choices : list string) : IOption :=
  mkIOption false name shortName metaVar description
    (ChoiceOption 0 choices false 0).

Definition ChoiceOption_new_default (name shortName metaVar description : string)
    (choices : list string) (defaultChoiceIdx : nat) : IOption :=
  let m_DefaultIdx :=
    match choices with
    | [] => O
    | _ => if (defaultChoiceIdx <? List.length choices)%nat
           then defaultChoiceIdx
           else (List.length choices - 1)%nat
    end in
  mkIOption false name shortName metaVar description
    (ChoiceOption 0 choices true m_DefaultIdx).

Definition CollectionOption_new (name shortName metaVar description : string)
    (acceptEmptyValues : bool) : IOption :=
  mkIOption false name shortName metaVar description
    (CollectionOption [] acceptEmptyValues).

(** [HasDefaultValue], as each class overrides it. *)
Definition HasDefaultValue (opt : IOption) : bool :=
  match IOption_data opt with
  | FlagOption _ _ => true
  | IntOption _ h _ => h
  | StrOption _ h _ => h
  | ChoiceOption _ _ h _ => h
  | CollectionOption _ _ => true
  end.

(** [IsVarOptional] *)
Definition IsVarOptional (opt : IOption) : bool :=
  match IOption_data opt with
  | FlagOption _ _ => true
  | CollectionOption _ a => a
  | _ => false
  end.

(** [IOption::HasValue] *)
Definition HasValue (opt : IOption) : bool := WasParsed opt || HasDefaultValue opt.

(** [IOption::ConsumeName]: [Some rest] when the name was consumed and
    the view advanced to [rest], [None] when it returns [false]. *)
Definition ConsumeName (opt : IOption) (arg : string) (isShort : bool)
    : option string :=
  if isShort then
    if negb (HasShortName opt) || negb (SV.starts_with arg (IOption_ShortName opt))
    then None
    else Some (SV.remove_prefix (String.length (IOption_ShortName opt)) arg)
  else
    if negb (SV.starts_with arg (IOption_Name opt)) then None
    else Some (SV.remove_prefix (String.length (IOption_Name opt)) arg).

(** [ChoiceOption::GetChoiceString] *)
Definition GetChoiceString (m_Choices : list string) : string :=
  let result := fold_left (fun r choice => r ++ choice ++ ",") m_Choices "{" in
  if SV.ends_with_char result ","%char
  then SV.pop_back result ++ "}"
  else result ++ "}".

(** The search loop of [ChoiceOption::ParseValue]: the first index [i]
    with [m_Choices[i] == val], counting from [i]. *)
Fixpoint find_choice (m_Choices : list string) (val : string) (i : nat)
    : option nat :=
  match m_Choices with
  | [] => None
  | c :: rest => if String.eqb c val then Some i else find_choice rest val (S i)
  end.

(** [ParseValue], as each class overrides it.  The result is the
    returned flag, the option's members and the shared slot. *)
Definition ParseValue (opt : IOption) (sh : Shared) (val : string)
    : bool * OptionData * Shared :=
  match IOption_data opt with
  | FlagOption v d =>
      (false, FlagOption v d,
       SetError sh ("Value parsing was not implemented for '"
                    ++ IOption_Name opt ++ "'."))
  | IntOption v h d =>
      let result := from_chars_int64 val in
      if negb (Nat.eqb (fc_ptr result) (String.length val)) then
        (false, IntOption v h d,
         SetError sh ("Expected integer for '" ++ GetPrefix sh ++ IOption_Name opt
                      ++ "', got '" ++ val ++ "'."))
      else (true, IntOption (fc_value result) h d, sh)
  | StrOption _ h d => (true, StrOption val h d, sh)
  | ChoiceOption vi choices h di =>
      match find_choice choices val 0 with
      | Some i => (true, ChoiceOption i choices h di, sh)
      | None =>
          (false, ChoiceOption vi choices h di,
           SetError sh ("Expected one of " ++ GetChoiceString choices ++ " for '"
                        ++ GetPrefix sh ++ IOption_Name opt
                        ++ "', got '" ++ val ++ "'."))
      end
  | CollectionOption vs a =>
      if negb a && SV.empty val then
        (false, CollectionOption vs a,
         SetError sh ("Empty values are not allowed for '" ++ GetPrefix sh
                      ++ IOption_Name opt ++ "'."))
      else (true, CollectionOption (vs ++ [val]) a, sh)
  end.

(** [IOption::ParseArg], the default ([--longName=VALUE], [-shortVALUE]). *)
Definition IOption_ParseArg (opt : IOption) (sh : Shared) (arg : string)
    (isShort : bool) : bool * OptionData * Shared :=
  match ConsumeName opt arg isShort with
  | None => (false, IOption_data opt, sh)
  | Some arg1 =>
      if negb isShort && HasMetaVar opt then
        if negb (SV.starts_with_char arg1 "="%char)
        then (false, IOption_data opt, sh)
        else ParseValue opt sh (SV.remove_prefix 1 arg1)
      else ParseValue opt sh arg1
  end.

(** [FlagOption::ParseArg] *)
Definition FlagOption_ParseArg (opt : IOption) (m_Value m_Default : bool)
    (sh : Shared) (arg : string) (isShort : bool) : bool * OptionData * Shared :=
  match ConsumeName opt arg isShort with
  | Some arg1 =>
      if negb (SV.empty arg1) then (false, FlagOption m_Value m_Default, sh)
      else (true, FlagOption true m_Default, sh)
  | None =>
      if isShort then (false, FlagOption m_Value m_Default, sh)
      else if SV.starts_with arg "no-" then
        if negb (String.eqb (SV.remove_prefix 3 arg) (IOption_Name opt))
        then (false, FlagOption m_Value m_Default, sh)
        else (true, FlagOption false m_Default, sh)
      else (false, FlagOption m_Value m_Default, sh)
  end.

(** Virtual dispatch of [ParseArg]. *)
Definition ParseArg (opt : IOption) (sh : Shared) (arg : string) (isShort : bool)
    : bool * OptionData * Shared :=
  match IOption_data opt with
  | FlagOption v d => FlagOption_ParseArg opt v d sh arg isShort
  | _ => IOption_ParseArg opt sh arg isShort
  end.

(** [IOption::Parse] *)
Definition IOption_Parse (opt : IOption) (sh : Shared) (arg : string)
    (isShort : bool) : bool * IOption * Shared :=
  let '(ok, d, sh1) := ParseArg opt sh arg isShort in
  if ok then (true, IOption_with opt true d, sh1)
  else (false, IOption_with opt (IOption_WasParsed opt) d, sh1).

(** The value accessors. *)
Definition FlagOption_GetValue (opt : IOption) : option bool :=
  match IOption_data opt with FlagOption v _ => Some v | _ => None end.

Definition IntOption_GetValue (opt : IOption) : option Z :=
  match IOption_data opt with
  | IntOption v _ d => if WasParsed opt then v else Some d
  | _ => None
  end.

Definition StrOption_GetValue (opt : IOption) : string :=
  match IOption_data opt with
  | StrOption v _ d => if WasParsed opt then v else d
  | _ => ""
  end.

Definition ChoiceOption_GetDefaultValue (opt : IOption) : string :=
  match IOption_data opt with
  | ChoiceOption _ choices h di =>
      if (match choices with [] => true | _ => false end) || negb h then ""
      else nth di choices ""
  | _ => ""
  end.

Definition ChoiceOption_GetValue (opt : IOption) : string :=
  match IOption_data opt with
  | ChoiceOption vi choices _ di =>
      match choices with
      | [] => ""
      | _ => if WasParsed opt then nth vi choices "" else nth di choices ""
      end
  | _ => ""
  end.

Definition CollectionOption_GetValue (opt : IOption) : list string :=
  match IOption_data opt with
  | CollectionOption vs _ => vs
  | _ => []
  end.

(** ** Positional arguments *)

Inductive ArgumentData :=
| StrArgument (m_Value : string) (m_HasDefault : bool) (m_Default : string)
| StrVarArgument (m_Value : list string).

Record IPositionalArgument := mkIPositionalArgument {
  Arg_WasParsed : bool;
  Arg_MetaVar : string;
  Arg_Description : string;
  Arg_data : ArgumentData
}.

Definition StrArgument_new (metaVar description : string) : IPositionalArgument :=
  mkIPositionalArgument false metaVar description (StrArgument "" false "").

Definition StrArgument_new_default (metaVar description defaultValue : string)
    : IPositionalArgument :=
  mkIPositionalArgument false metaVar description (StrArgument "" true defaultValue).

Definition StrVarArgument_new (metaVar description : string) : IPositionalArgument :=
  mkIPositionalArgument false metaVar description (StrVarArgument []).

Definition IsVariadic (a : IPositionalArgument) : bool :=
  match Arg_data a with
  | StrArgument _ _ _ => false
  | StrVarArgument _ => true
  end.

Definition Arg_HasDefaultValue (a : IPositionalArgument) : bool :=
  match Arg_data a with
  | StrArgument _ h _ => h
  | StrVarArgument _ => true
  end.

Definition Arg_HasValue (a : IPositionalArgument) : bool :=
  Arg_WasParsed a || Arg_HasDefaultValue a.

(** [StrArgument::ParseArg] and [StrVarArgument::ParseArg] *)
Definition Arg_ParseArg (a : IPositionalArgument) (arg : string)
    : bool * ArgumentData :=
  match Arg_data a with
  | StrArgument _ h d => (true, StrArgument arg h d)
  | StrVarArgument vs => (true, StrVarArgument (vs ++ [arg]))
  end.

(** [IPositionalArgument::Parse] *)
Definition Arg_Parse (a : IPositionalArgument) (arg : string)
    : bool * IPositionalArgument :=
  let '(ok, d) := Arg_ParseArg a arg in
  (ok, mkIPositionalArgument (if ok then true else Arg_WasParsed a)
         (Arg_MetaVar a) (Arg_Description a) d).

Definition StrArgument_GetValue (a : IPositionalArgument) : string :=
  match Arg_data a with
  | StrArgument v _ d => if Arg_WasParsed a then v else d
  | StrVarArgument _ => ""
  end.

Definition StrVarArgument_GetValue (a : IPositionalArgument) : list string :=
  match Arg_data a with
  | StrVarArgument vs => vs
  | StrArgument _ _ _ => []
  end.

(** ** Parsers *)

(** A node of the parser tree: the members of [IArgParser].  The
    vectors of pointers become lists of the objects themselves, in
    registration order. *)
#[warnings="-register-all"]
Inductive IArgParser := mkIArgParser {
  m_WasUsed : bool;
  m_Name : string;
  m_Description : string;
  m_Options : list IOption;
  m_Commands : list IArgParser;
  m_Arguments : list IPositionalArgument
}.

Definition IArgParser_new (command description : string) : IArgParser :=
  mkIArgParser false command description [] [] [].

Definition AddOption (p : IArgParser) (opt : IOption) : IArgParser :=
  mkIArgParser (m_WasUsed p) (m_Name p) (m_Description p)
    (m_Options p ++ [opt]) (m_Commands p) (m_Arguments p).

Definition AddCommand (p : IArgParser) (cmd : IArgParser) : IArgParser :=
  mkIArgParser (m_WasUsed p) (m_Name p) (m_Description p)
    (m_Options p) (m_Commands p ++ [cmd]) (m_Arguments p).

Definition AddArgument (p : IArgParser) (a : IPositionalArgument) : IArgParser :=
  mkIArgParser (m_WasUsed p) (m_Name p) (m_Description p)
    (m_Options p) (m_Commands p) (m_Arguments p ++ [a]).

(** What the option scan of [Parse] ends with: an option parsed the
    token ([hasParsedOption]), the scan returned because an error is
    set, or no option took the token. *)
Inductive ScanResult :=
| ScanParsed (opts : list IOption) (sh : Shared)
| ScanError (opts : list IOption) (sh : Shared)
| ScanNone (opts : list IOption) (sh : Shared).

Definition scan_cons (opt : IOption) (r : ScanResult) : ScanResult :=
  match r with
  | ScanParsed opts sh => ScanParsed (opt :: opts) sh
  | ScanError opts sh => ScanError (opt :: opts) sh
  | ScanNone opts sh => ScanNone (opt :: opts) sh
  end.

(** The loop [for (IOption* opt : m_Options)] of [Parse]. *)
Fixpoint ScanOptions (opts : list IOption) (sh : Shared) (arg : string)
    (isShortPrefix arePrefixesTheSame : bool) : ScanResult :=
  match opts with
  | [] => ScanNone [] sh
  | opt :: rest =>
      let '(ok1, opt1, sh1) := IOption_Parse opt sh arg isShortPrefix in
      if ok1 then ScanParsed (opt1 :: rest) sh1
      else if HasError sh1 then ScanError (opt1 :: rest) sh1
      else if arePrefixesTheSame then
        let '(ok2, opt2, sh2) := IOption_Parse opt1 sh1 arg (negb isShortPrefix) in
        if ok2 then ScanParsed (opt2 :: rest) sh2
        else if HasError sh2 then ScanError (opt2 :: rest) sh2
        else scan_cons opt2
               (ScanOptions rest sh2 arg isShortPrefix arePrefixesTheSame)
      else scan_cons opt1
             (ScanOptions rest sh1 arg isShortPrefix arePrefixesTheSame)
  end.

(** The locals and members the token loop of [Parse] reads and writes. *)
Record LoopState := mkLoopState {
  ls_Options : list IOption;
  ls_Commands : list IArgParser;
  ls_Arguments : list IPositionalArgument;
  ls_Shared : Shared;
  isParsingPositionals : bool;
  positionalIdx : nat
}.

(** One iteration either falls through to the next token or returns. *)
Inductive Flow :=
| Continue (st : LoopState)
| Return (result : bool) (st : LoopState).

Definition list_set {A} (l : list A) (i : nat) (x : A) : list A :=
  firstn i l ++ x :: skipn (S i) l.

(** The positional routing that [Parse] spells out twice: the bounds
    check, [positional->Parse(arg)] and the cursor advance. *)
Definition RoutePositional (st : LoopState) (fullArg : string) : Flow :=
  match nth_error (ls_Arguments st) (positionalIdx st) with
  | None =>
      Return false
        (mkLoopState (ls_Options st) (ls_Commands st) (ls_Arguments st)
           (SetError (ls_Shared st)
              ("Unexpected positional argument '" ++ fullArg ++ "'."))
           (isParsingPositionals st) (positionalIdx st))
  | Some positional =>
      let '(ok, positional') := Arg_Parse positional fullArg in
      let st' :=
        mkLoopState (ls_Options st) (ls_Commands st)
          (list_set (ls_Arguments st) (positionalIdx st) positional')
          (ls_Shared st) (isParsingPositionals st) (positionalIdx st) in
      if negb ok then Return false st'
      else
        Continue
          (mkLoopState (ls_Options st') (ls_Commands st') (ls_Arguments st')
             (ls_Shared st') (isParsingPositionals st')
             (if negb (IsVariadic positional') then S (positionalIdx st')
              else positionalIdx st'))
  end.

(** What the loop [for (IArgParser* cmd : m_Commands)] ends with. *)
Inductive CommandsResult :=
| CmdMatched (cmds : list IArgParser) (sh : Shared)
| CmdError (cmds : list IArgParser) (sh : Shared)
| CmdNone (cmds : list IArgParser) (sh : Shared).

Definition cmd_cons (cmd : IArgParser) (r : CommandsResult) : CommandsResult :=
  match r with
  | CmdMatched cmds sh => CmdMatched (cmd :: cmds) sh
  | CmdError cmds sh => CmdError (cmd :: cmds) sh
  | CmdNone cmds sh => CmdNone (cmd :: cmds) sh
  end.

(** The two prefix tests of the token loop: the long prefix is tried
    first, then the short one if it is not empty.  [Some (arg, isShortPrefix)]
    is the token with the prefix removed and the form it selects; [None]
    is the final [else] of the chain. *)
Definition StripPrefix (sh : Shared) (fullArg : string) : option (string * bool) :=
  if SV.starts_with fullArg (GetPrefix sh) then
    Some (SV.remove_prefix (String.length (GetPrefix sh)) fullArg, false)
  else if HasShortPrefix sh && SV.starts_with fullArg (GetShortPrefix sh) then
    Some (SV.remove_prefix (String.length (GetShortPrefix sh)) fullArg, true)
  else None.

Section ParseBody.

(** The recursive call [cmd->Parse(args)]. *)
Variable parseCommand :
  IArgParser -> Shared -> list string -> bool * IArgParser * Shared.

(** The subcommands as registered.  The branch that tries them either
    returns or sets [isParsingPositionals], so it runs at most once in
    a call and finds them as they were on entry. *)
Variable m_Commands0 : list IArgParser.

Fixpoint TryCommands (cmds : list IArgParser) (sh : Shared)
    (args : list string) : CommandsResult :=
  match cmds with
  | [] => CmdNone [] sh
  | cmd :: rest =>
      let '(ok, cmd', sh') := parseCommand cmd sh args in
      if ok then CmdMatched (cmd' :: rest) sh'
      else if HasError sh' then CmdError (cmd' :: rest) sh'
      else cmd_cons cmd' (TryCommands rest sh' args)
  end.

Definition with_positionals (st : LoopState) : LoopState :=
  mkLoopState (ls_Options st) (ls_Commands st) (ls_Arguments st)
    (ls_Shared st) true (positionalIdx st).

Definition with_options (st : LoopState) (opts : list IOption) (sh : Shared)
    : LoopState :=
  mkLoopState opts (ls_Commands st) (ls_Arguments st) sh
    (isParsingPositionals st) (positionalIdx st).

Definition with_commands (st : LoopState) (cmds : list IArgParser)
    (sh : Shared) : LoopState :=
  mkLoopState (ls_Options st) cmds (ls_Arguments st) sh
    (isParsingPositionals st) (positionalIdx st).

(** The scan of the options and the test of [hasParsedOption]. *)
Definition ParseOptionToken (st : LoopState) (fullArg arg : string)
    (isShortPrefix : bool) : Flow :=
  let sh := ls_Shared st in
  let arePrefixesTheSame := String.eqb (GetShortPrefix sh) (GetPrefix sh) in
  match ScanOptions (ls_Options st) sh arg isShortPrefix arePrefixesTheSame with
  | ScanParsed opts sh' => Continue (with_options st opts sh')
  | ScanError opts sh' => Return false (with_options st opts sh')
  | ScanNone opts sh' =>
      Return false
        (with_options st opts
           (SetError sh' ("Unknown option '" ++ fullArg ++ "'.")))
  end.

(** The body of the token loop; [args] is the stack, top first, and
    [fullArg] its top. *)
Definition ParseToken (st : LoopState) (fullArg : string) (args : list string)
    : Flow :=
  let sh := ls_Shared st in
  if isParsingPositionals st then RoutePositional st fullArg
  else if String.eqb fullArg "--" then Continue (with_positionals st)
  else
    match StripPrefix sh fullArg with
    | Some (arg, isShortPrefix) => ParseOptionToken st fullArg arg isShortPrefix
    | None =>
        match TryCommands m_Commands0 sh args with
        | CmdMatched cmds sh' => Return true (with_commands st cmds sh')
        | CmdError cmds sh' => Return false (with_commands st cmds sh')
        | CmdNone cmds sh' =>
            RoutePositional (with_positionals (with_commands st cmds sh'))
              fullArg
        end
    end.

(** [for (; !args.empty(); args.pop())] *)
Fixpoint ParseLoop (st : LoopState) (args : list string) : Flow :=
  match args with
  | [] => Continue st
  | fullArg :: rest =>
      match ParseToken st fullArg args with
      | Continue st' => ParseLoop st' rest
      | Return b st' => Return b st'
      end
  end.

End ParseBody.

(** The two validation loops after the token loop and the final
    [return !HasError()]. *)
Definition MissingOption (opts : list IOption) : option IOption :=
  find (fun opt => negb (HasValue opt)) opts.

Definition MissingArgument (args : list IPositionalArgument)
    : option IPositionalArgument :=
  find (fun a => negb (Arg_HasValue a)) args.

Definition Validate (st : LoopState) : bool * Shared :=
  let sh := ls_Shared st in
  match MissingOption (ls_Options st) with
  | Some opt =>
      (false, SetError sh ("Missing option '" ++ GetPrefix sh
                           ++ IOption_Name opt ++ "'."))
  | None =>
      match MissingArgument (ls_Arguments st) with
      | Some a =>
          (false, SetError sh ("Missing argument '" ++ Arg_MetaVar a ++ "'."))
      | None => (negb (HasError sh), sh)
      end
  end.

(** [IArgParser::Parse(std::stack<std::string_view> args)]; the stack is
    a list with its top first.  [args.top()] on an empty stack has no
    defined behaviour; the embedding lets that call report no match. *)
Fixpoint Parse (p : IArgParser) (sh : Shared) (args : list string) {struct p}
    : bool * IArgParser * Shared :=
  match p with
  | mkIArgParser wasUsed name description options commands arguments =>
      match args with
      | [] => (false, p, sh)
      | top :: rest =>
          if negb (String.eqb top name) then (false, p, sh)
          else
            let st0 := mkLoopState options commands arguments sh false O in
            let finish (b : bool) (st : LoopState) (sh' : Shared) :=
              (b, mkIArgParser true name description (ls_Options st)
                    (ls_Commands st) (ls_Arguments st), sh') in
            match ParseLoop Parse commands st0 rest with
            | Return b st => finish b st (ls_Shared st)
            | Continue st =>
                let '(b, sh') := Validate st in finish b st sh'
            end
      end
  end.

(** [ArgParser]: the root node with the members it owns. *)
Record ArgParser := mkArgParser {
  root : IArgParser;
  shared : Shared
}.

Definition ArgParser_new4 (program description prefix shortPrefix : string)
    : ArgParser :=
  mkArgParser (IArgParser_new program description)
    (mkShared prefix shortPrefix "").

Definition ArgParser_new (program description : string) : ArgParser :=
  ArgParser_new4 program description "--" "-".

(** [IArgParser::Parse(int argc, const char** argv)]: [argv[0]] ends up
    on top of the stack. *)
Definition ArgParser_Parse (ap : ArgParser) (argv : list string)
    : bool * ArgParser :=
  let '(b, p, sh) := Parse (root ap) (shared ap) argv in
  (b, mkArgParser p sh).

(** [IArgParser::operator bool] *)
Definition IArgParser_bool (p : IArgParser) (sh : Shared) : bool :=
  negb (HasError sh) && m_WasUsed p.

(** ** Notions the statements below refer to *)

(** The value of a run of decimal digits in positional notation. *)
Fixpoint decimal_value (ds : string) : Z :=
  match ds with
  | EmptyString => 0
  | String c rest =>
      digit_value c * 10 ^ Z.of_nat (String.length rest) + decimal_value rest
  end.

Fixpoint all_digits (ds : string) : bool :=
  match ds with
  | EmptyString => true
  | String c rest => is_digit c && all_digits rest
  end.

(** A signed decimal numeral as [from_chars] reads it: an optional
    minus sign and the digits [ds]. *)
Definition numeral (neg : bool) (ds : string) : string :=
  if neg then String "-"%char ds else ds.

Definition numeral_value (neg : bool) (ds : string) : Z :=
  if neg then - decimal_value ds else decimal_value ds.

(** The order of attempts the specification describes for identical
    prefixes: for each option in declaration order, the selected form
    and then the opposite one.  An attempt is an index into the option
    list and the [isShort] flag handed to [IOption::Parse]. *)
Definition combined_order (from n : nat) (selected : bool) : list (nat * bool) :=
  flat_map (fun i => [(i, selected); (i, negb selected)]) (seq from n).

(** The order without the second attempt. *)
Definition selected_order (from n : nat) (selected : bool) : list (nat * bool) :=
  map (fun i => (i, selected)) (seq from n).

(** The attempts run one after the other; the first that parses the
    token or raises an error ends the run. *)
Fixpoint TryAttempts (attempts : list (nat * bool)) (opts : list IOption)
    (sh : Shared) (arg : string) : ScanResult :=
  match attempts with
  | [] => ScanNone opts sh
  | (i, isShort) :: rest =>
      match nth_error opts i with
      | None => TryAttempts rest opts sh arg
      | Some opt =>
          let '(ok, opt', sh') := IOption_Parse opt sh arg isShort in
          let opts' := list_set opts i opt' in
          if ok then ScanParsed opts' sh'
          else if HasError sh' then ScanError opts' sh'
          else TryAttempts rest opts' sh' arg
      end
  end.

(** The members of a root built by [ArgParser(program, description)]. *)
Definition default_shared : Shared := mkShared "--" "-" "".

(** The calculator of [examples/01-math.cpp] with [argv[0]] fixed to [prog]. *)
Definition math_parser : ArgParser :=
  let p := IArgParser_new "prog" "Math ain't mathing." in
  let p := AddOption p (IntOption_new "a" "a" "A" "The first operand.") in
  let p := AddOption p (IntOption_new "b" "b" "B" "The second operand.") in
  let p := AddOption p
             (ChoiceOption_new_default "op" "op" "OPERATOR"
                "The operator to use. (default: +)" ["+"; "-"; "*"; "/"] 0) in
  mkArgParser p (mkShared "--" "-" "").

(** A root with one subcommand [sub] that takes a required positional [X]. *)
Definition sub_command : IArgParser :=
  AddArgument (IArgParser_new "sub" "") (StrArgument_new "X" "").

Definition sub_parser : ArgParser :=
  mkArgParser (AddCommand (IArgParser_new "prog" "") sub_command)
    (mkShared "--" "-" "").

(** The greeter of [examples/00-hello.cpp]: one required positional. *)
Definition hello_parser : ArgParser :=
  mkArgParser
    (AddArgument (IArgParser_new "prog" "My first Argue.")
       (StrArgument_new "USER" "Greets USER."))
    (mkShared "--" "-" "").

(** A root under default prefixes whose only option is a collection. *)
Definition collection_parser (program name shortName metaVar description : string)
    (acceptEmptyValues : bool) : ArgParser :=
  mkArgParser
    (AddOption (IArgParser_new program "")
       (CollectionOption_new name shortName metaVar description acceptEmptyValues))
    default_shared.

(** The collection option of that parser with the values gathered so far. *)
Definition collection_option (name shortName metaVar description : string)
    (acceptEmptyValues wasParsed : bool) (values : list string) : IOption :=
  mkIOption wasParsed name shortName metaVar description
    (CollectionOption values acceptEmptyValues).

(** The long-form token of one occurrence of the option [name]. *)
Definition occurrence (name v : string) : string := "--" ++ name ++ "=" ++ v.

(** The option at position [i] of the root after a parse. *)
Definition option_at (ap : ArgParser) (i : nat) : option IOption :=
  nth_error (m_Options (root ap)) i.

(** A parser with both prefixes set to a single dash and a flag that
    has no short name. *)
Definition same_prefix_shared : Shared := mkShared "-" "-" "".
Definition verbose_flag : IOption := FlagOption_new "verbose" "" "" false.
Definition count_option : IOption := IntOption_new "count" "c" "N" "".

(** The subcommand and the positional at position [i] of a node. *)
Definition command_at (p : IArgParser) (i : nat) : option IArgParser :=
  nth_error (m_Commands p) i.

Definition argument_at (p : IArgParser) (i : nat) : option IPositionalArgument :=
  nth_error (m_Arguments p) i.

(** The forms the option scan tries for a token: the one its prefix
    selected, and the other one as well when the two prefixes are the
    same text. *)
Definition tried_form (sh : Shared) (isShortPrefix isShort : bool) : Prop :=
  isShort = isShortPrefix \/ GetShortPrefix sh = GetPrefix sh.

(** The positional at position [j] of the subcommand at position [i]. *)
Definition command_argument_at (p : IArgParser) (i j : nat)
    : option IPositionalArgument :=
  match command_at p i with
  | Some c => argument_at c j
  | None => None
  end.

(** An option does not claim a fragment in a given form: [Parse]
    returns [false] and no error is set. *)
Definition unclaimed (sh : Shared) (arg : string) (opt : IOption)
    (isShort : bool) : Prop :=
  fst (fst (IOption_Parse opt sh arg isShort)) = false
  /\ HasError (snd (IOption_Parse opt sh arg isShort)) = false.

(** A scan result with the options [pre], already passed over, put
    back in front. *)
Definition scan_app (pre : list IOption) (r : ScanResult) : ScanResult :=
  fold_right scan_cons r pre.

(** What the token loop does with the outcome of a run of attempts. *)
Definition flow_of_scan (st : LoopState) (fullArg : string) (r : ScanResult)
    : Flow :=
  match r with
  | ScanParsed opts sh' =>
      Continue (mkLoopState opts (ls_Commands st) (ls_Arguments st) sh'
                  (isParsingPositionals st) (positionalIdx st))
  | ScanError opts sh' =>
      Return false (mkLoopState opts (ls_Commands st) (ls_Arguments st) sh'
                      (isParsingPositionals st) (positionalIdx st))
  | ScanNone opts sh' =>
      Return false
        (mkLoopState opts (ls_Commands st) (ls_Arguments st)
           (SetError sh' ("Unknown option '" ++ fullArg ++ "'."))
           (isParsingPositionals st) (positionalIdx st))
  end.

(** ** Notions for the further properties *)

(** A string with every space character turned into a blank. *)
Fixpoint normalize_spaces (s : string) : string :=
  match s with
  | EmptyString => EmptyString
  | String c rest =>
      String (if IsSpace c then " "%char else c) (normalize_spaces rest)
  end.

(** No character of [s] is a space character. *)
Definition no_space (s : string) : Prop := SV.find_if IsSpace s = None.

(** No character of [s] is a line break. *)
Definition no_line_break (s : string) : Prop := SV.find LF s = None.

(** What holds of a builder between calls: the indentation depth is a
    [size_t], and the recorded indent length is a [size_t] not above
    the length of the current line, so that the width computed by
    [PutLine] does not wrap below zero. *)
Definition builder_ok (tb : TextBuilder) : Prop :=
  0 <= m_IndentationLevel tb < 2 ^ 64
  /\ 0 <= m_CurrentLineIndentLength tb <= SV.size (m_CurrentLine tb).

(** The configuration given to the constructor. *)
Definition configuration (tb : TextBuilder) : string * bool * Z :=
  (m_Indent tb, m_IndentOnWrap tb, m_MaxParagraphWidth tb).

(** Calls other than [Indent] and [DeIndent]. *)
Definition keeps_depth (c : TextCall) : bool :=
  match c with
  | CIndent | CDeIndent => false
  | _ => true
  end.

(** Two builder states with the same configuration and depth. *)
Definition same_setup (a b : TextBuilder) : Prop :=
  configuration b = configuration a
  /\ m_IndentationLevel b = m_IndentationLevel a.

(** The texts [from_chars] reads to the end as an [int64_t]: an
    optional minus sign and one or more decimal digits. *)
Definition is_numeral (val : string) : bool :=
  match val with
  | EmptyString => false
  | String c rest =>
      if Ascii.eqb c "-"%char
      then negb (SV.empty rest) && all_digits rest
      else all_digits val
  end.

(** The members of an option that no call writes. *)
Definition IOption_identity (opt : IOption) : string * string * string * string :=
  (IOption_Name opt, IOption_ShortName opt, IOption_MetaVar opt,
   IOption_Description opt).

(** A variadic positional with the tokens gathered so far. *)
Definition variadic_argument (wasParsed : bool) (metaVar description : string)
    (values : list string) : IPositionalArgument :=
  mkIPositionalArgument wasParsed metaVar description (StrVarArgument values).

(** A required single-value positional after it took the token [value]. *)
Definition filled_argument (metaVar_description : string * string)
    (value : string) : IPositionalArgument :=
  mkIPositionalArgument true (fst metaVar_description)
    (snd metaVar_description) (StrArgument value false "").

(** Required single-value positionals, as constructed, from their
    meta-variables and descriptions. *)
Definition required_arguments (decls : list (string * string))
    : list IPositionalArgument :=
  map (fun md => StrArgument_new (fst md) (snd md)) decls.

(** The positionals after the first [length values] of them took the
    [values] in order. *)
Fixpoint fill_arguments (decls : list (string * string)) (values : list string)
    : list IPositionalArgument :=
  match decls, values with
  | md :: decls', v :: values' => filled_argument md v :: fill_arguments decls' values'
  | _, _ => required_arguments decls
  end.

(** An option, a positional and a parser tree with everything a parse
    may write put back to a fixed content: the parsed and used flags
    and the stored values.  What is left is what was declared. *)
Definition erase_data (d : OptionData) : OptionData :=
  match d with
  | FlagOption _ df => FlagOption false df
  | IntOption _ h df => IntOption None h df
  | StrOption _ h df => StrOption "" h df
  | ChoiceOption _ choices h di => ChoiceOption 0 choices h di
  | CollectionOption _ a => CollectionOption [] a
  end.

Definition erase_option (opt : IOption) : IOption :=
  mkIOption false (IOption_Name opt) (IOption_ShortName opt)
    (IOption_MetaVar opt) (IOption_Description opt)
    (erase_data (IOption_data opt)).

Definition erase_argument (a : IPositionalArgument) : IPositionalArgument :=
  mkIPositionalArgument false (Arg_MetaVar a) (Arg_Description a)
    (match Arg_data a with
     | StrArgument _ h d => StrArgument "" h d
     | StrVarArgument _ => StrVarArgument []
     end).

Fixpoint erase (p : IArgParser) : IArgParser :=
  match p with
  | mkIArgParser _ name description options commands arguments =>
      mkIArgParser false name description (map erase_option options)
        (map erase commands) (map erase_argument arguments)
  end.

(** The second slot has the prefixes of the first. *)
Definition same_prefixes (sh sh' : Shared) : Prop :=
  GetPrefix sh' = GetPrefix sh /\ GetShortPrefix sh' = GetShortPrefix sh.

(** The state a token-loop iteration ends with. *)
Definition flow_state (f : Flow) : LoopState :=
  match f with
  | Continue st => st
  | Return _ st => st
  end.

Definition scan_options (r : ScanResult) : list IOption :=
  match r with
  | ScanParsed opts _ | ScanError opts _ | ScanNone opts _ => opts
  end.

Definition scan_shared (r : ScanResult) : Shared :=
  match r with
  | ScanParsed _ sh | ScanError _ sh | ScanNone _ sh => sh
  end.

Definition commands_of (r : CommandsResult) : list IArgParser :=
  match r with
  | CmdMatched cmds _ | CmdError cmds _ | CmdNone cmds _ => cmds
  end.

Definition shared_of (r : CommandsResult) : Shared :=
  match r with
  | CmdMatched _ sh | CmdError _ sh | CmdNone _ sh => sh
  end.

(** What a token-loop state declares. *)
Definition erase_state (st : LoopState)
    : list IOption * list IArgParser * list IPositionalArgument
      * string * string :=
  (map erase_option (ls_Options st), map erase (ls_Commands st),
   map erase_argument (ls_Arguments st),
   GetPrefix (ls_Shared st), GetShortPrefix (ls_Shared st)).

(** What the declarations-kept property asks of the recursive call on
    a subcommand. *)
Definition call_keeps_declaration
    (parseCommand :
       IArgParser -> Shared -> list string -> bool * IArgParser * Shared)
    (cmd : IArgParser) : Prop :=
  forall sh args,
    erase (snd (fst (parseCommand cmd sh args))) = erase cmd
    /\ same_prefixes sh (snd (parseCommand cmd sh args)).

(** ** Hints and help pages

    The writers reach the builder only through the calls of
    [ITextBuilder] and read nothing back, so each is embedded as the
    list of calls it makes, in order; [run_calls] then applies them to
    a [TextBuilder]. *)

(** [IOption::WriteHint] *)
Definition IOption_WriteHint (sh : Shared) (opt : IOption) : list TextCall :=
  if HasMetaVar opt then
    let VAR_OPEN := if IsVarOptional opt then "[" else "<" in
    let VAR_CLOSE := if IsVarOptional opt then "]" else ">" in
    if HasShortPrefix sh && HasShortName opt then
      [CPutText (GetPrefix sh ++ IOption_Name opt ++ "=" ++ VAR_OPEN
                 ++ IOption_MetaVar opt ++ VAR_CLOSE ++ ", "
                 ++ GetShortPrefix sh ++ IOption_ShortName opt ++ VAR_OPEN
                 ++ IOption_MetaVar opt ++ VAR_CLOSE)]
    else
      [CPutText (GetPrefix sh ++ IOption_Name opt ++ "=" ++ VAR_OPEN
                 ++ IOption_MetaVar opt ++ VAR_CLOSE)]
  else
    if HasShortPrefix sh && HasShortName opt then
      [CPutText (GetPrefix sh ++ IOption_Name opt ++ ", "
                 ++ GetShortPrefix sh ++ IOption_ShortName opt)]
    else [CPutText (GetPrefix sh ++ IOption_Name opt)].

(** [FlagOption::WriteHint] *)
Definition FlagOption_WriteHint (sh : Shared) (opt : IOption) : list TextCall :=
  if HasShortPrefix sh && HasShortName opt then
    [CPutText (GetPrefix sh ++ IOption_Name opt ++ ", "
               ++ GetShortPrefix sh ++ IOption_ShortName opt)]
  else [CPutText (GetPrefix sh ++ IOption_Name opt)].

(** [ChoiceOption::WriteHint] *)
Definition ChoiceOption_WriteHint (sh : Shared) (opt : IOption)
    (m_Choices : list string) : list TextCall :=
  if HasShortPrefix sh && HasShortName opt then
    [CPutText (GetPrefix sh ++ IOption_Name opt ++ "="
               ++ GetChoiceString m_Choices ++ ", "
               ++ GetShortPrefix sh ++ IOption_ShortName opt
               ++ GetChoiceString m_Choices)]
  else
    [CPutText (GetPrefix sh ++ IOption_Name opt ++ "="
               ++ GetChoiceString m_Choices)].

(** Virtual dispatch of [WriteHint] on an option. *)
Definition Option_WriteHint (sh : Shared) (opt : IOption) : list TextCall :=
  match IOption_data opt with
  | FlagOption _ _ => FlagOption_WriteHint sh opt
  | ChoiceOption _ choices _ _ => ChoiceOption_WriteHint sh opt choices
  | _ => IOption_WriteHint sh opt
  end.

Definition IOption_HasDescription (opt : IOption) : bool :=
  negb (SV.empty (IOption_Description opt)).

(** The block both [WriteHelp]s of the options and the one of the
    positionals end with. *)
Definition description_block (hasDescription : bool) (description : string)
    : list TextCall :=
  if hasDescription
  then [CNewLine; CIndent; CPutText description; CDeIndent]
  else [].

(** [IOption::WriteHelp] *)
Definition IOption_WriteHelp (sh : Shared) (opt : IOption) : list TextCall :=
  (Option_WriteHint sh opt
     ++ description_block (IOption_HasDescription opt)
          (IOption_Description opt))%list.

(** [FlagOption::WriteHelp] *)
Definition FlagOption_WriteHelp (sh : Shared) (opt : IOption) : list TextCall :=
  (Option_WriteHint sh opt
     ++ [CPutText ", "]
     ++ (if HasShortPrefix sh && HasShortName opt then [CNewLine] else [])
     ++ [CPutText (GetPrefix sh ++ "no-" ++ IOption_Name opt)]
     ++ description_block (IOption_HasDescription opt)
          (IOption_Description opt))%list.

(** Virtual dispatch of [WriteHelp] on an option. *)
Definition Option_WriteHelp (sh : Shared) (opt : IOption) : list TextCall :=
  match IOption_data opt with
  | FlagOption _ _ => FlagOption_WriteHelp sh opt
  | _ => IOption_WriteHelp sh opt
  end.

(** [IPositionalArgument::WriteHint] *)
Definition Arg_WriteHint (a : IPositionalArgument) : list TextCall :=
  if Arg_HasDefaultValue a then
    if IsVariadic a then [CPutText ("[..." ++ Arg_MetaVar a ++ "]")]
    else [CPutText ("[" ++ Arg_MetaVar a ++ "]")]
  else [CPutText ("<" ++ Arg_MetaVar a ++ ">")].

Definition Arg_HasDescription (a : IPositionalArgument) : bool :=
  negb (SV.empty (Arg_Description a)).

(** [IPositionalArgument::WriteHelp] *)
Definition Arg_WriteHelp (a : IPositionalArgument) : list TextCall :=
  ((if IsVariadic a then [CPutText ("..." ++ Arg_MetaVar a ++ ":")]
    else [CPutText (Arg_MetaVar a ++ ":")])
     ++ description_block (Arg_HasDescription a) (Arg_Description a))%list.

Definition IArgParser_HasDescription (p : IArgParser) : bool :=
  negb (SV.empty (m_Description p)).

(** [IArgParser::WriteHint] *)
Definition IArgParser_WriteHint (p : IArgParser) : list TextCall :=
  ((match m_Commands p with
    | first :: others =>
        let subcommands :=
          fold_left (fun s cmd => (s ++ "|" ++ m_Name cmd)%string) others
            (m_Name first) in
        [CPutText (m_Name p)]
          ++ (match m_Options p with
              | [] => []
              | _ => [CPutText " [...OPTIONS]"]
              end)
          ++ [CPutText (" [" ++ subcommands ++ " ...]")]
    | [] =>
        [CPutText (m_Name p)]
          ++ (match m_Options p with
              | [] => []
              | _ => [CPutText " [...OPTIONS]"]
              end)
    end)
     ++ (match m_Arguments p with
         | [] => []
         | arguments =>
             CPutText " [--]"
               :: flat_map (fun a => CPutText " " :: Arg_WriteHint a) arguments
         end))%list.

(** [IArgParser::WriteHelp] *)
Fixpoint IArgParser_WriteHelp (sh : Shared) (briefOptions briefSubcommands : bool)
    (p : IArgParser) {struct p} : list TextCall :=
  match p with
  | mkIArgParser _ _ description options commands arguments =>
      (IArgParser_WriteHint p
         ++ [CSpacer]
         ++ (if IArgParser_HasDescription p
             then [CIndent; CPutText description; CDeIndent; CSpacer]
             else [])
         ++ flat_map
              (fun a => if Arg_HasDescription a
                        then Arg_WriteHelp a ++ [CSpacer]
                        else [])
              arguments
         ++ (match options with
             | [] => []
             | _ =>
                 [CPutText "OPTIONS:"; CNewLine]
                   ++ (if briefOptions then
                         flat_map
                           (fun opt =>
                              [CIndent] ++ Option_WriteHint sh opt
                                ++ [CDeIndent; CNewLine])
                           options
                           ++ [CSpacer]
                       else
                         flat_map
                           (fun opt =>
                              [CIndent] ++ Option_WriteHelp sh opt
                                ++ [CDeIndent; CSpacer])
                           options)
             end)
         ++ (match commands with
             | [] => []
             | _ =>
                 [CPutText "SUBCOMMANDS:"; CNewLine]
                   ++ (if briefSubcommands then
                         flat_map
                           (fun cmd =>
                              [CIndent] ++ IArgParser_WriteHint cmd
                                ++ [CDeIndent; CNewLine])
                           commands
                           ++ [CSpacer]
                       else
                         flat_map
                           (fun cmd =>
                              [CIndent]
                                ++ IArgParser_WriteHelp sh briefOptions
                                     briefSubcommands cmd
                                ++ [CDeIndent; CSpacer])
                           commands)
             end))%list
  end.

(** ** HelpCommand *)

(** The members the constructor of [HelpCommand] builds: the option
    [m_PrintType], the positional [m_HelpFor], and the node [m_Command]
    that owns both. *)
Definition HelpCommand_PrintType : IOption :=
  ChoiceOption_new_default "print" "P" "TYPE"
    "Print all subcommands and their options. (default: brief)"
    ["brief"; "full"] 0.

Definition HelpCommand_HelpFor : IPositionalArgument :=
  StrVarArgument_new "CMD"
    "The path to the command to print the help message for.".

Definition HelpCommand_Command : IArgParser :=
  AddArgument
    (AddOption (IArgParser_new "help" "Prints this help message.")
       HelpCommand_PrintType)
    HelpCommand_HelpFor.

(** [HelpCommand(parser)]: the parser with the command registered. *)
Definition HelpCommand_new (parser : IArgParser) : IArgParser :=
  AddCommand parser HelpCommand_Command.

(** The loop of [HelpCommand::operator()] over the path: the calls of
    the early return when a segment names no subcommand, or
    [pathUntilLast] and the node reached. *)
Fixpoint HelpCommand_walk (currentSubcommand : IArgParser)
    (pathUntilLast : string) (helpPath : list string)
    : list TextCall + string * IArgParser :=
  match helpPath with
  | [] => inr (pathUntilLast, currentSubcommand)
  | cmdToMatch :: rest =>
      match find (fun sub => String.eqb (m_Name sub) cmdToMatch)
              (m_Commands currentSubcommand) with
      | None =>
          inl [CPutText ("Could not find help for '" ++ pathUntilLast
                         ++ cmdToMatch ++ "'.");
               CNewLine]
      | Some sub =>
          HelpCommand_walk sub
            (match rest with
             | [] => pathUntilLast
             | _ => pathUntilLast ++ cmdToMatch ++ " "
             end)
            rest
      end
  end.

(** [HelpCommand::operator()]: [parser] is the root [m_Parser];
    [m_PrintType] and [m_HelpFor] are the option and the positional as
    the parse left them. *)
Definition HelpCommand_call (sh : Shared) (parser : IArgParser)
    (m_PrintType : IOption) (m_HelpFor : IPositionalArgument)
    : list TextCall :=
  match HelpCommand_walk parser "" (StrVarArgument_GetValue m_HelpFor) with
  | inl calls => calls
  | inr (pathUntilLast, currentSubcommand) =>
      let briefOptions := false in
      let briefSubcommands :=
        String.eqb (ChoiceOption_GetValue m_PrintType) "brief" in
      CPutText pathUntilLast
        :: IArgParser_WriteHelp sh briefOptions briefSubcommands
             currentSubcommand
  end.

(** The node a path of subcommand names leads to: at each step the
    first subcommand, in declaration order, that bears the name. *)
Fixpoint resolve (p : IArgParser) (path : list string) : option IArgParser :=
  match path with
  | [] => Some p
  | segment :: rest =>
      match find (fun sub => String.eqb (m_Name sub) segment) (m_Commands p) with
      | Some sub => resolve sub rest
      | None => None
      end
  end.

(** The depth of [Indent] a run of calls is at, starting from [k]:
    [None] if it ever goes above [n] or a [DeIndent] comes at zero. *)
Fixpoint track_depth (k n : nat) (cs : list TextCall) : option nat :=
  match cs with
  | [] => Some k
  | CIndent :: rest =>
      if (S k <=? n)%nat then track_depth (S k) n rest else None
  | CDeIndent :: rest =>
      match k with
      | O => None
      | S k' => track_depth k' n rest
      end
  | _ :: rest => track_depth k n rest
  end.

(** How deep the subcommands of a node nest. *)
Fixpoint nesting (p : IArgParser) : nat :=
  match p with
  | mkIArgParser _ _ _ _ commands _ =>
      fold_right (fun cmd n => Nat.max (S (nesting cmd)) n) O commands
  end.

(** The text [HelpCommand] puts before the help page of the node a
    path leads to: every segment but the last, each followed by a
    blank. *)
Definition help_header (path : list string) : string :=
  String.concat "" (map (fun segment => segment ++ " ") (removelast path)).

(** * Properties *)

(** ** String views *)

Section StringViews.

Lemma starts_with_app (p s : string) : SV.starts_with (p ++ s) p = true.
Proof.
  induction p as [|c p IH]; simpl.
  - destruct s; reflexivity.
  - now rewrite Ascii.eqb_refl, IH.
Qed.

Lemma remove_prefix_app (p s : string) :
  SV.remove_prefix (String.length p) (p ++ s) = s.
Proof. induction p as [|c p IH]; simpl; auto. Qed.

Lemma string_length_app (a b : string) :
  String.length (a ++ b) = (String.length a + String.length b)%nat.
Proof. induction a as [|c a IH]; simpl; auto. Qed.

Lemma string_app_empty_r (a : string) : a ++ "" = a.
Proof. induction a as [|c a IH]; simpl; congruence. Qed.

Lemma string_app_assoc (a b c : string) : (a ++ b) ++ c = a ++ b ++ c.
Proof. induction a as [|x a IH]; simpl; congruence. Qed.

Lemma find_if_bound (p : ascii -> bool) (s : string) (i : nat) :
  SV.find_if p s = Some i -> (i < String.length s)%nat.
Proof.
  revert i; induction s as [|c s IH]; simpl; intros i H; [discriminate|].
  destruct (p c).
  - injection H as <-. lia.
  - destruct (SV.find_if p s) as [j|]; [|discriminate].
    injection H as <-. specialize (IH j eq_refl). lia.
Qed.

Lemma remove_prefix_length (n : nat) (s : string) :
  String.length (SV.remove_prefix n s) = (String.length s - n)%nat.
Proof.
  revert s; induction n as [|n IH]; intros [|c s]; simpl; auto.
Qed.

Lemma back_app_char (s : string) (c : ascii) :
  SV.back (s ++ String c "") = Some c.
Proof.
  induction s as [|x s IH]; simpl; auto.
  rewrite IH. destruct (s ++ String c ""); [discriminate IH | reflexivity].
Qed.

End StringViews.

(** ** TextBuilder *)

Section TextBuilderFacts.

(** What the trimming loop leaves does not end in a space character. *)
Lemma TrimTrailingSpace_back (s : string) (c : ascii) :
  SV.back (TrimTrailingSpace s) = Some c -> IsSpace c = false.
Proof.
  revert c; induction s as [|x s IH]; simpl; intros c H; [discriminate|].
  destruct (TrimTrailingSpace s) as [|y r] eqn:E.
  - destruct (IsSpace x) eqn:Ex; simpl in H; [discriminate|].
    now injection H as <-.
  - apply IH. exact H.
Qed.

(** The loop only removes characters from the end, all of them spaces. *)
Lemma TrimTrailingSpace_split (s : string) :
  exists tail, s = TrimTrailingSpace s ++ tail
               /\ forall c, SV.find_if (fun x => negb (IsSpace x)) tail = Some c
                            -> False.
Proof.
  induction s as [|x s (tail & Hs & Ht)]; simpl.
  - exists "". split; [reflexivity|]. simpl. discriminate.
  - destruct (TrimTrailingSpace s) as [|y r] eqn:E.
    + destruct (IsSpace x) eqn:Ex.
      * exists (String x tail). split.
        -- simpl in Hs. simpl. congruence.
        -- intros c. simpl. rewrite Ex. simpl.
           destruct (SV.find_if _ tail) eqn:F; [|discriminate].
           intros _. eapply Ht. reflexivity.
      * exists tail. split; [|exact Ht]. simpl in *. congruence.
    + exists tail. split; [|exact Ht]. simpl in *. congruence.
Qed.

(** [PutLine]'s loop ends before its fuel does. *)
Lemma PutLine_loop_total (fuel : nat) :
  forall tb text, (String.length text < fuel)%nat ->
    exists tb', PutLine_loop fuel tb text = Some tb'.
Proof.
  induction fuel as [|fuel IH]; intros tb text Hlt; [lia|].
  cbn [PutLine_loop].
  destruct (SV.find_if IsSpace text) as [idx|] eqn:F.
  - apply IH. rewrite remove_prefix_length.
    apply find_if_bound in F. lia.
  - eexists. reflexivity.
Qed.

Lemma PutLine_total (tb : TextBuilder) (text : string) :
  exists tb', PutLine tb text = Some tb'.
Proof. apply PutLine_loop_total. lia. Qed.

Lemma PutText_from_total (text : string) :
  forall tb seg, exists tb', PutText_from tb seg text = Some tb'.
Proof.
  induction text as [|c text IH]; intros tb seg; simpl.
  - apply PutLine_total.
  - destruct (Ascii.eqb c LF).
    + destruct (PutLine_total tb seg) as [tb1 ->]. apply IH.
    + apply IH.
Qed.

Lemma PutText_total (tb : TextBuilder) (text : string) :
  exists tb', PutText tb text = Some tb'.
Proof. apply PutText_from_total. Qed.

(** Every sequence of calls runs to completion. *)
Lemma run_calls_total (cs : list TextCall) :
  forall tb, exists tb', run_calls tb cs = Some tb'.
Proof.
  induction cs as [|c cs IH]; intros tb; simpl; [eauto|].
  destruct c; simpl; try apply IH.
  destruct (PutText_total tb text) as [tb1 ->]. apply IH.
Qed.

(** [Build] leaves every member as it found it. *)
Lemma Build_state (tb : TextBuilder) : snd (Build tb) = tb.
Proof. reflexivity. Qed.

(** The built string is a trimmed body and one line break, and the
    body does not end in a space character. *)
Lemma Build_trailing (tb : TextBuilder) :
  exists body, fst (Build tb) = body ++ LF_s
               /\ forall c, SV.back body = Some c -> IsSpace c = false.
Proof.
  unfold Build. cbn [fst].
  eexists. split; [reflexivity|]. apply TrimTrailingSpace_back.
Qed.

Example build_no_input : fst (Build TextBuilder_default) = LF_s.
Proof. reflexivity. Qed.

Example build_short_text :
  option_map (fun tb => fst (Build tb)) (PutText TextBuilder_default "hello world")
  = Some ("hello world" ++ LF_s).
Proof. vm_compute. reflexivity. Qed.

End TextBuilderFacts.

(** C3.  [Build] returns the accumulated text and the pending line,
    trimmed and closed by one line break, but it does not reset the
    builder: every member is left as it was, so a second [Build]
    returns the same string as the first.  On a builder that received
    [PutText("x")] both calls return ["x\n"], not the single line
    break. *)
Theorem Build_twice_after_PutText :
  (forall tb, snd (Build tb) = tb
              /\ fst (Build (snd (Build tb))) = fst (Build tb))
  /\ exists tb,
       PutText TextBuilder_default "x" = Some tb
       /\ fst (Build tb) = "x" ++ LF_s
       /\ m_CurrentLine (snd (Build tb)) = "x"
       /\ fst (Build (snd (Build tb))) = "x" ++ LF_s
       /\ fst (Build (snd (Build tb))) <> LF_s.
Proof.
  split; [intros tb; split; reflexivity|].
  eexists. split; [vm_compute; reflexivity|].
  repeat split; try (vm_compute; reflexivity).
  vm_compute. discriminate.
Qed.

(** C4.  The built string can start with a space character: after
    [PutText(" x")] on a fresh builder [Build] returns [" x\n"]; after
    [Spacer(); PutText("x")] it starts with a line break.  (The end of
    the string is as claimed, see [Build_trailing].) *)
Theorem Build_leading_space :
  option_map (fun tb => fst (Build tb))
    (run_calls TextBuilder_default [CPutText " x"]) = Some (" x" ++ LF_s)
  /\ option_map (fun tb => fst (Build tb))
       (run_calls TextBuilder_default [CSpacer; CPutText "x"])
     = Some (LF_s ++ LF_s ++ "x" ++ LF_s)
  /\ IsSpace " "%char = true /\ IsSpace LF = true.
Proof. repeat split; vm_compute; reflexivity. Qed.

(** ** Options *)

Section OptionFacts.

Lemma IOption_with_same (opt : IOption) :
  IOption_with opt (IOption_WasParsed opt) (IOption_data opt) = opt.
Proof. destruct opt; reflexivity. Qed.

Lemma HasError_SetError (sh : Shared) (c : ascii) (msg : string) :
  HasError (SetError sh (String c msg)) = true.
Proof. reflexivity. Qed.

(** [ParseValue] returns [false] only after it has set an error. *)
Lemma ParseValue_false (opt : IOption) (sh sh' : Shared) (val : string)
    (d : OptionData) :
  ParseValue opt sh val = (false, d, sh') -> HasError sh' = true.
Proof.
  unfold ParseValue.
  destruct (IOption_data opt) as [v df|v h df|v h df|vi cs h di|vs a].
  - intros [= _ <-]. reflexivity.
  - destruct (negb _); intros [= _ <-]; reflexivity.
  - discriminate.
  - destruct (find_choice cs val 0); [discriminate|].
    intros [= _ <-]. reflexivity.
  - destruct (negb a && SV.empty val); [|discriminate].
    intros [= _ <-]. reflexivity.
Qed.

(** An option that returns [false] without an error is untouched, and
    so is the shared slot: it simply did not recognise the token. *)
Lemma IOption_Parse_no_match (opt opt' : IOption) (sh sh' : Shared)
    (arg : string) (isShort : bool) :
  IOption_Parse opt sh arg isShort = (false, opt', sh') ->
  HasError sh' = false ->
  opt' = opt /\ sh' = sh.
Proof.
  unfold IOption_Parse.
  destruct (ParseArg opt sh arg isShort) as [[ok d] sh1] eqn:E.
  destruct ok; [discriminate|]. intros [= <- <-] Herr.
  assert (d = IOption_data opt /\ sh1 = sh) as [-> ->].
  { revert E. unfold ParseArg, IOption_ParseArg, FlagOption_ParseArg.
    destruct (IOption_data opt) as [v df|v h df|v h df|vi cs h di|vs a] eqn:D;
      destruct (ConsumeName opt arg isShort) as [arg1|];
      try (intros [= <- <-]; now split);
      try (rewrite <- D;
           repeat match goal with
                  | |- context [if ?b then _ else _] => destruct b
                  end;
           try (intros [= <- <-]; now split);
           intros E; apply ParseValue_false in E; congruence).
    all: repeat match goal with
                | |- context [if ?b then _ else _] => destruct b
                end; intros [= <- <-]; now split. }
  split; [apply IOption_with_same | reflexivity].
Qed.

Lemma nth_last_index {A} (l : list A) (d : A) :
  nth (List.length l - 1) l d = last l d.
Proof.
  induction l as [|x [|y l] IH]; try reflexivity.
  cbn [List.length Nat.sub] in *. rewrite Nat.sub_0_r in IH.
  cbn [nth last]. exact IH.
Qed.

Lemma is_digit_not_minus (c : ascii) :
  is_digit c = true -> Ascii.eqb c "-"%char = false.
Proof.
  intros H. apply Ascii.eqb_neq. intros ->. discriminate H.
Qed.

Lemma read_digits_all (ds : string) :
  all_digits ds = true ->
  forall acc,
    read_digits acc ds
    = (acc * 10 ^ Z.of_nat (String.length ds) + decimal_value ds,
       String.length ds).
Proof.
  induction ds as [|c ds IH]; intros Hd acc.
  - simpl. f_equal. lia.
  - cbn [all_digits] in Hd. apply andb_prop in Hd as [Hc Hds].
    cbn [read_digits]. rewrite Hc, (IH Hds).
    cbn [String.length decimal_value]. f_equal.
    rewrite Nat2Z.inj_succ, Z.pow_succ_r by lia. ring.
Qed.

(** [from_chars] on a numeral out of range: every character is read,
    the error code says so, and the output argument is not written. *)
Lemma from_chars_out_of_range (neg : bool) (ds : string) :
  ds <> "" -> all_digits ds = true ->
  (numeral_value neg ds < INT64_MIN \/ INT64_MAX < numeral_value neg ds) ->
  from_chars_int64 (numeral neg ds)
  = mk_from_chars_result (String.length (numeral neg ds))
      errc_result_out_of_range None.
Proof.
  intros Hne Hd Hrange. unfold from_chars_int64.
  assert (Hsplit :
    match numeral neg ds with
    | String c rest =>
        if Ascii.eqb c "-"%char then (true, rest) else (false, numeral neg ds)
    | EmptyString => (false, numeral neg ds)
    end = (neg, ds)).
  { destruct neg; cbn [numeral].
    - reflexivity.
    - destruct ds as [|c ds]; [congruence|].
      cbn [all_digits] in Hd. apply andb_prop in Hd as [Hc _].
      now rewrite (is_digit_not_minus c Hc). }
  rewrite Hsplit. rewrite (read_digits_all ds Hd 0).
  destruct ds as [|c ds]; [congruence|].
  cbn [String.length].
  replace (0 * 10 ^ Z.of_nat (S (String.length ds)) + decimal_value (String c ds))
    with (decimal_value (String c ds)) by lia.
  fold (numeral_value neg (String c ds)).
  assert ((INT64_MIN <=? numeral_value neg (String c ds))
          && (numeral_value neg (String c ds) <=? INT64_MAX) = false) as ->.
  { destruct Hrange as [H|H].
    - apply andb_false_intro1. apply Z.leb_gt. exact H.
    - apply andb_false_intro2. apply Z.leb_gt. exact H. }
  destruct neg; reflexivity.
Qed.

End OptionFacts.

Section ChoiceFacts.

(** A value that is none of the four operators is not found. *)
Lemma find_choice_operators (v : string) :
  ~ In v ["+"; "-"; "*"; "/"] ->
  find_choice ["+"; "-"; "*"; "/"] v 0 = None.
Proof.
  intros Hnot. cbn [find_choice].
  repeat match goal with
         | |- context [String.eqb ?c v] =>
             let E := fresh in
             destruct (String.eqb c v) eqn:E;
             [apply String.eqb_eq in E; exfalso; apply Hnot; subst v;
              simpl; tauto|]
         end.
  reflexivity.
Qed.

Variables (opt : IOption) (sh : Shared) (v : string).
Variables (vi di : nat) (h : bool).
Hypothesis opt_name : IOption_Name opt = "op".
Hypothesis opt_data : IOption_data opt = ChoiceOption vi ["+"; "-"; "*"; "/"] h di.
Hypothesis sh_prefix : GetPrefix sh = "--".
Hypothesis v_invalid : ~ In v ["+"; "-"; "*"; "/"].

Lemma Choice_ParseValue_mismatch :
  ParseValue opt sh v
  = (false, IOption_data opt,
     SetError sh ("Expected one of {+,-,*,/} for '--op', got '" ++ v ++ "'.")).
Proof.
  unfold ParseValue.
  rewrite opt_data, (find_choice_operators v v_invalid), sh_prefix, opt_name.
  reflexivity.
Qed.

Lemma Choice_Parse_mismatch :
  HasMetaVar opt = true ->
  IOption_Parse opt sh ("op=" ++ v) false
  = (false, opt,
     SetError sh ("Expected one of {+,-,*,/} for '--op', got '" ++ v ++ "'.")).
Proof.
  intros Hmeta.
  unfold IOption_Parse, ParseArg, IOption_ParseArg, ConsumeName.
  rewrite opt_data, opt_name, Hmeta. cbn -[ParseValue].
  rewrite Choice_ParseValue_mismatch, opt_data. cbn.
  rewrite <- opt_data. now rewrite IOption_with_same.
Qed.

End ChoiceFacts.

(** C7.  A choice option [op] over [{+,-,*,/}] under the prefix [--]
    answers a value [v] that is none of the candidates with the error
    [Expected one of {+,-,*,/} for '--op', got 'v'.]: at [ParseValue],
    at [IOption::Parse] on the fragment [op=v], and for the whole parse
    of [prog --op=v] by the calculator, which fails. *)
Theorem Choice_error_message (opt : IOption) (sh : Shared) (v : string)
    (vi di : nat) (h : bool) :
  IOption_Name opt = "op" ->
  IOption_data opt = ChoiceOption vi ["+"; "-"; "*"; "/"] h di ->
  HasMetaVar opt = true ->
  GetPrefix sh = "--" ->
  ~ In v ["+"; "-"; "*"; "/"] ->
  let msg := "Expected one of {+,-,*,/} for '--op', got '" ++ v ++ "'." in
  ParseValue opt sh v = (false, IOption_data opt, SetError sh msg)
  /\ IOption_Parse opt sh ("op=" ++ v) false = (false, opt, SetError sh msg)
  /\ HasError (SetError sh msg) = true
  /\ fst (ArgParser_Parse math_parser ["prog"; "--op=" ++ v]) = false
  /\ GetError (shared (snd (ArgParser_Parse math_parser ["prog"; "--op=" ++ v])))
     = msg.
Proof.
  intros Hname Hdata Hmeta Hprefix Hnot msg.
  split; [eapply Choice_ParseValue_mismatch; eassumption|].
  split; [eapply Choice_Parse_mismatch; eassumption|].
  split; [reflexivity|].
  pose (A := IntOption_new "a" "a" "A" "The first operand.").
  pose (B := IntOption_new "b" "b" "B" "The second operand.").
  pose (OP := ChoiceOption_new_default "op" "op" "OPERATOR"
                "The operator to use. (default: +)" ["+"; "-"; "*"; "/"] 0).
  pose (sh0 := mkShared "--" "-" "").
  assert (Ha : IOption_Parse A sh0 ("op=" ++ v) false = (false, A, sh0))
    by reflexivity.
  assert (Hb : IOption_Parse B sh0 ("op=" ++ v) false = (false, B, sh0))
    by reflexivity.
  assert (Hop : IOption_Parse OP sh0 ("op=" ++ v) false
                = (false, OP, SetError sh0 msg)).
  { apply (Choice_Parse_mismatch OP sh0 v 0%nat 0%nat true); auto. }
  assert (Hloop :
    ParseLoop Parse [] (mkLoopState [A; B; OP] [] [] sh0 false 0)
      ["--op=" ++ v]
    = Return false
        (mkLoopState [A; B; OP] [] [] (SetError sh0 msg) false 0)).
  { cbn [ParseLoop]. unfold ParseToken.
    cbn [isParsingPositionals ls_Shared].
    change (String.eqb ("--op=" ++ v) "--") with false. cbv iota.
    change (StripPrefix sh0 ("--op=" ++ v)) with (Some ("op=" ++ v, false)).
    cbv iota. unfold ParseOptionToken. cbn [ls_Shared ls_Options].
    change (String.eqb (GetShortPrefix sh0) (GetPrefix sh0)) with false.
    cbn [ScanOptions]. rewrite Ha. change (HasError sh0) with false. cbv iota.
    rewrite Hb. change (HasError sh0) with false. cbv iota.
    rewrite Hop. reflexivity. }
  unfold ArgParser_Parse, math_parser, AddOption, IArgParser_new.
  cbn [root shared m_WasUsed m_Name m_Description m_Options m_Commands
       m_Arguments app Parse String.eqb Ascii.eqb Bool.eqb negb].
  subst A B OP sh0. rewrite Hloop. split; reflexivity.
Qed.

(** An instance: the value [%] for the option as the calculator declares it. *)
Lemma Choice_error_message_witness :
  ParseValue
    (ChoiceOption_new_default "op" "op" "OPERATOR" "" ["+"; "-"; "*"; "/"] 0)
    (mkShared "--" "-" "") "%"
  = (false, ChoiceOption 0 ["+"; "-"; "*"; "/"] true 0,
     mkShared "--" "-" "Expected one of {+,-,*,/} for '--op', got '%'.").
Proof.
  refine (proj1 (Choice_error_message
    (ChoiceOption_new_default "op" "op" "OPERATOR" "" ["+"; "-"; "*"; "/"] 0)
    (mkShared "--" "-" "") "%" 0%nat 0%nat true
    eq_refl eq_refl eq_refl eq_refl _)).
  simpl. intros [H|[H|[H|[H|[]]]]]; discriminate H.
Defined.

(** C9.  An integer option that takes a value accepts the long-form
    fragment [name=D] when [D] is a signed decimal numeral outside the
    signed 64-bit range: [Parse] returns [true], the shared slot is
    unchanged (no error is set), the option is marked parsed, and the
    stored value is the never-written local.  Only the returned pointer
    is compared; the error code is not looked at. *)
Theorem IntOption_out_of_range_accepted (opt : IOption) (sh : Shared)
    (neg : bool) (ds : string) (v : option Z) (h : bool) (d : Z) :
  IOption_data opt = IntOption v h d ->
  HasMetaVar opt = true ->
  ds <> "" ->
  all_digits ds = true ->
  (numeral_value neg ds < INT64_MIN \/ INT64_MAX < numeral_value neg ds) ->
  fc_ec (from_chars_int64 (numeral neg ds)) = errc_result_out_of_range
  /\ IOption_Parse opt sh (IOption_Name opt ++ "=" ++ numeral neg ds) false
     = (true, IOption_with opt true (IntOption None h d), sh)
  /\ WasParsed (IOption_with opt true (IntOption None h d)) = true
  /\ IntOption_GetValue (IOption_with opt true (IntOption None h d)) = None.
Proof.
  intros Hdata Hmeta Hne Hd Hrange.
  pose proof (from_chars_out_of_range neg ds Hne Hd Hrange) as Hfc.
  split; [now rewrite Hfc|]. split; [|split; reflexivity].
  unfold IOption_Parse, ParseArg, IOption_ParseArg, ConsumeName.
  rewrite Hdata, starts_with_app, remove_prefix_app, Hmeta.
  cbn [negb andb SV.starts_with_char String.append Ascii.eqb Bool.eqb
       SV.remove_prefix].
  unfold ParseValue. rewrite Hdata, Hfc. cbn [fc_ptr fc_value].
  now rewrite Nat.eqb_refl.
Qed.

(** An instance: [--a=9223372036854775808], one past the largest value. *)
Lemma IntOption_out_of_range_accepted_witness :
  IOption_Parse (IntOption_new "a" "a" "A" "") (mkShared "--" "-" "")
    "a=9223372036854775808" false
  = (true,
     IOption_with (IntOption_new "a" "a" "A" "") true (IntOption None false 0),
     mkShared "--" "-" "").
Proof.
  refine (proj1 (proj2 (IntOption_out_of_range_accepted
    (IntOption_new "a" "a" "A" "") (mkShared "--" "-" "")
    false "9223372036854775808" (Some 0) false 0
    eq_refl eq_refl _ eq_refl _))).
  - discriminate.
  - right. vm_compute. reflexivity.
Defined.

(** C10.  A choice option built with a default index that is not below
    the number of candidates takes the last candidate as its default
    (index [size-1]); and a choice option without candidates returns the
    empty string from [GetValue] and [GetDefaultValue] whatever its
    parse state and other members. *)
Theorem ChoiceOption_default_clamped :
  (forall (name shortName metaVar description : string)
          (choices : list string) (defaultChoiceIdx : nat),
      choices <> [] ->
      (List.length choices <= defaultChoiceIdx)%nat ->
      let opt := ChoiceOption_new_default name shortName metaVar description
                   choices defaultChoiceIdx in
      IOption_data opt
      = ChoiceOption 0 choices true (List.length choices - 1)
      /\ ChoiceOption_GetDefaultValue opt = last choices ""
      /\ ChoiceOption_GetValue opt = last choices ""
      /\ HasValue opt = true)
  /\ (forall (opt : IOption) (vi di : nat) (h : bool),
        IOption_data opt = ChoiceOption vi [] h di ->
        ChoiceOption_GetValue opt = ""
        /\ ChoiceOption_GetDefaultValue opt = "").
Proof.
  split.
  - intros name shortName metaVar description choices idx Hne Hle opt.
    assert (Hdata : IOption_data opt
                    = ChoiceOption 0 choices true (List.length choices - 1)).
    { unfold opt, ChoiceOption_new_default. cbn [IOption_data].
      destruct choices as [|c cs]; [congruence|].
      apply Nat.ltb_ge in Hle. now rewrite Hle. }
    split; [exact Hdata|].
    unfold ChoiceOption_GetDefaultValue, ChoiceOption_GetValue, HasValue,
      HasDefaultValue.
    rewrite Hdata. destruct choices as [|c cs]; [congruence|].
    cbn [orb negb]. split; [|split].
    + apply nth_last_index.
    + unfold opt, ChoiceOption_new_default, WasParsed. cbn [IOption_WasParsed].
      apply nth_last_index.
    + apply orb_true_r.
  - intros opt vi di h Hdata.
    unfold ChoiceOption_GetValue, ChoiceOption_GetDefaultValue.
    now rewrite Hdata.
Qed.

(** An instance: index 7 over four candidates selects the fourth. *)
Lemma ChoiceOption_default_clamped_witness :
  ChoiceOption_GetDefaultValue
    (ChoiceOption_new_default "op" "op" "OPERATOR" "" ["+"; "-"; "*"; "/"] 7)
  = "/"
  /\ ChoiceOption_GetValue
       (mkIOption true "op" "" "OPERATOR" "" (ChoiceOption 3 [] true 5)) = "".
Proof.
  split.
  - refine (proj1 (proj2 (proj1 ChoiceOption_default_clamped
      "op" "op" "OPERATOR" "" ["+"; "-"; "*"; "/"] 7%nat _ _))).
    + discriminate.
    + simpl. lia.
  - refine (proj1 (proj2 ChoiceOption_default_clamped
      (mkIOption true "op" "" "OPERATOR" "" (ChoiceOption 3 [] true 5))
      3%nat 5%nat true eq_refl)).
Defined.

(** ** The parser *)

(** C1.  The calculator on [prog --a=3 --b=4] succeeds with [a = 3],
    [b = 4] and [op] at its default [+]; on [prog --a=3] it fails with
    [Missing option '--b'.]; on [prog --a=x --b=4] it fails with
    [Expected integer for '--a', got 'x'.]. *)
Theorem end_to_end_scenario :
  (let r := ArgParser_Parse math_parser ["prog"; "--a=3"; "--b=4"] in
   fst r = true
   /\ GetError (shared (snd r)) = ""
   /\ option_map IntOption_GetValue (option_at (snd r) 0) = Some (Some 3)
   /\ option_map IntOption_GetValue (option_at (snd r) 1) = Some (Some 4)
   /\ option_map WasParsed (option_at (snd r) 2) = Some false
   /\ option_map ChoiceOption_GetValue (option_at (snd r) 2) = Some "+")
  /\ (let r := ArgParser_Parse math_parser ["prog"; "--a=3"] in
      fst r = false
      /\ GetError (shared (snd r)) = "Missing option '--b'.")
  /\ (let r := ArgParser_Parse math_parser ["prog"; "--a=x"; "--b=4"] in
      fst r = false
      /\ GetError (shared (snd r)) = "Expected integer for '--a', got 'x'.").
Proof. repeat split; vm_compute; reflexivity. Qed.

Section ParserFacts.

(** A node that finds its name on top of the stack is marked used,
    whatever happens to the rest of the tokens. *)
Lemma Parse_name_match_sets_WasUsed (p : IArgParser) (sh : Shared)
    (rest : list string) :
  m_WasUsed (snd (fst (Parse p sh (m_Name p :: rest)))) = true.
Proof.
  destruct p as [used name descr opts cmds poss]. cbn [Parse m_Name].
  rewrite String.eqb_refl. cbn [negb].
  destruct (ParseLoop Parse cmds _ rest) as [st|b st].
  - destruct (Validate st). reflexivity.
  - reflexivity.
Qed.

(** A node that does not find its name reports no match and changes
    nothing. *)
Lemma Parse_name_mismatch (p : IArgParser) (sh : Shared) (top : string)
    (rest : list string) :
  top <> m_Name p -> Parse p sh (top :: rest) = (false, p, sh).
Proof.
  intros Hne. destruct p as [used name descr opts cmds poss].
  cbn [Parse]. cbn [m_Name] in Hne.
  apply String.eqb_neq in Hne. now rewrite Hne.
Qed.

End ParserFacts.

(** C2, as the code has it.  On [prog sub hello] the root hands the
    stack to its subcommand [sub], which matches, is marked used and
    stores [hello] in its positional [X]; the parse succeeds, and the
    root is marked used as well, since [Parse] sets the flag as soon as
    a node finds its own name on top of the stack. *)
Theorem subcommand_dispatch :
  let r := ArgParser_Parse sub_parser ["prog"; "sub"; "hello"] in
  fst r = true
  /\ GetError (shared (snd r)) = ""
  /\ option_map m_WasUsed (command_at (root (snd r)) 0) = Some true
  /\ option_map StrArgument_GetValue
       (command_argument_at (root (snd r)) 0 0)
     = Some "hello"
  /\ m_WasUsed (root (snd r)) = true.
Proof. repeat split; vm_compute; reflexivity. Qed.

(** C2, as claimed, fails: after the parse of [prog sub hello] the
    root's [m_WasUsed] is not [false]. *)
Lemma subcommand_root_WasUsed_not_false :
  let r := ArgParser_Parse sub_parser ["prog"; "sub"; "hello"] in
  ~ (option_map StrArgument_GetValue
       (command_argument_at (root (snd r)) 0 0)
     = Some "hello"
     /\ m_WasUsed (root (snd r)) = false).
Proof. vm_compute. intros [_ H]. discriminate H. Qed.

Section TokenRouting.

Variable parseCommand :
  IArgParser -> Shared -> list string -> bool * IArgParser * Shared.
Variable m_Commands0 : list IArgParser.

(** If no option claims the fragment in the forms the scan tries, the
    scan ends without a match and leaves options and slot alone. *)
Lemma ScanOptions_unclaimed (opts : list IOption) (sh : Shared) (arg : string)
    (isShortPrefix : bool) :
  Forall (fun opt => forall isShort,
              tried_form sh isShortPrefix isShort ->
              unclaimed sh arg opt isShort) opts ->
  ScanOptions opts sh arg isShortPrefix
    (String.eqb (GetShortPrefix sh) (GetPrefix sh))
  = ScanNone opts sh.
Proof.
  induction opts as [|opt opts IH]; intros HF; [reflexivity|].
  inversion HF as [|? ? Hopt Hrest]; subst.
  cbn [ScanOptions].
  assert (Hno : forall isShort,
             tried_form sh isShortPrefix isShort ->
             IOption_Parse opt sh arg isShort = (false, opt, sh)).
  { intros isShort Ht. destruct (Hopt isShort Ht) as [Hf He].
    destruct (IOption_Parse opt sh arg isShort) as [[ok opt'] sh'] eqn:E.
    cbn in Hf, He. subst ok.
    now destruct (IOption_Parse_no_match _ _ _ _ _ _ E He) as [-> ->]. }
  assert (Hsh : HasError sh = false).
  { destruct (Hopt isShortPrefix (or_introl eq_refl)) as [_ He].
    now rewrite (Hno isShortPrefix (or_introl eq_refl)) in He. }
  rewrite (Hno isShortPrefix (or_introl eq_refl)), Hsh.
  specialize (IH Hrest).
  destruct (String.eqb (GetShortPrefix sh) (GetPrefix sh)) eqn:Esame.
  - apply String.eqb_eq in Esame.
    rewrite (Hno (negb isShortPrefix) (or_intror Esame)), Hsh.
    now rewrite IH.
  - now rewrite IH.
Qed.

(** Built-in positionals accept every token. *)
Lemma RoutePositional_in_range (st : LoopState) (fullArg : string) :
  (positionalIdx st < List.length (ls_Arguments st))%nat ->
  exists st', RoutePositional st fullArg = Continue st'
              /\ ls_Shared st' = ls_Shared st
              /\ ls_Options st' = ls_Options st.
Proof.
  intros Hlt. unfold RoutePositional.
  destruct (nth_error (ls_Arguments st) (positionalIdx st)) as [a|] eqn:E.
  - unfold Arg_Parse, Arg_ParseArg.
    destruct (Arg_data a); cbn [negb]; eexists; repeat split.
  - apply nth_error_None in E. lia.
Qed.

Lemma RoutePositional_out_of_range (st : LoopState) (fullArg : string) :
  (List.length (ls_Arguments st) <= positionalIdx st)%nat ->
  exists st', RoutePositional st fullArg = Return false st'
              /\ GetError (ls_Shared st')
                 = "Unexpected positional argument '" ++ fullArg ++ "'.".
Proof.
  intros Hle. unfold RoutePositional.
  apply nth_error_None in Hle. rewrite Hle.
  eexists. split; reflexivity.
Qed.

(** C5, as the code has it.  Before positional-only mode, a token
    other than [--] that carries the long prefix, or else the
    non-empty short prefix, and that no option of the node claims is
    (in the form its prefix selects, and in the other form too when
    the two prefixes are the same text) is
    rejected: the iteration returns [false] with the error
    [Unknown option '<token>'.], the token loop stops there, and
    neither the subcommands nor the positionals are consulted.  Only
    in positional-only mode is a token routed as positional input
    whatever its first characters, and then the one error is the
    exceeded positional count. *)
Theorem unclaimed_prefixed_token_rejected (st : LoopState)
    (fullArg arg : string) (isShortPrefix : bool) (rest : list string) :
  StripPrefix (ls_Shared st) fullArg = Some (arg, isShortPrefix) ->
  fullArg <> "--" ->
  Forall (fun opt => forall isShort,
              tried_form (ls_Shared st) isShortPrefix isShort ->
              unclaimed (ls_Shared st) arg opt isShort)
    (ls_Options st) ->
  let rejected :=
    Return false
      (with_options st (ls_Options st)
         (SetError (ls_Shared st) ("Unknown option '" ++ fullArg ++ "'."))) in
  (isParsingPositionals st = false ->
     ParseToken parseCommand m_Commands0 st fullArg (fullArg :: rest) = rejected
     /\ ParseLoop parseCommand m_Commands0 st (fullArg :: rest) = rejected)
  /\ (isParsingPositionals st = true ->
        ParseToken parseCommand m_Commands0 st fullArg (fullArg :: rest)
        = RoutePositional st fullArg
        /\ ((positionalIdx st < List.length (ls_Arguments st))%nat ->
              exists st', RoutePositional st fullArg = Continue st'
                          /\ ls_Shared st' = ls_Shared st)
        /\ ((List.length (ls_Arguments st) <= positionalIdx st)%nat ->
              exists st', RoutePositional st fullArg = Return false st'
                          /\ GetError (ls_Shared st')
                             = "Unexpected positional argument '"
                                 ++ fullArg ++ "'.")).
Proof.
  intros Hstrip Hsep Hun rejected. split.
  - intros Hmode.
    assert (Htok : ParseToken parseCommand m_Commands0 st fullArg
                     (fullArg :: rest) = rejected).
    { unfold ParseToken. rewrite Hmode.
      apply String.eqb_neq in Hsep. rewrite Hsep, Hstrip.
      unfold ParseOptionToken.
      now rewrite (ScanOptions_unclaimed _ _ _ _ Hun). }
    split; [exact Htok|]. cbn [ParseLoop]. now rewrite Htok.
  - intros Hmode. split; [|split].
    + unfold ParseToken. now rewrite Hmode.
    + intros Hlt.
      destruct (RoutePositional_in_range st fullArg Hlt) as (st' & H1 & H2 & _).
      eauto.
    + apply RoutePositional_out_of_range.
Qed.

End TokenRouting.

(** An instance: the calculator's options and the greeter's positional,
    given [-x] as the token. *)
Lemma unclaimed_prefixed_token_rejected_witness :
  let st := mkLoopState (m_Options (root math_parser)) []
              (m_Arguments (root hello_parser)) (shared math_parser) false 0 in
  ParseToken Parse [] st "-x" ["-x"]
  = Return false
      (with_options st (m_Options (root math_parser))
         (SetError (shared math_parser) "Unknown option '-x'.")).
Proof.
  refine (proj1 (proj1 (unclaimed_prefixed_token_rejected Parse []
    (mkLoopState (m_Options (root math_parser)) []
       (m_Arguments (root hello_parser)) (shared math_parser) false 0)
    "-x" "x" true [] eq_refl _ _) eq_refl)).
  - discriminate.
  - repeat constructor; destruct isShort; reflexivity.
Defined.

(** C5, as claimed, fails: the greeter declares one positional and no
    option or subcommand, yet [prog -x] does not store [-x] in it; the
    parse fails with [Unknown option '-x'.] while the positional count
    is not exceeded. *)
Lemma leading_dash_token_not_positional :
  let r := ArgParser_Parse hello_parser ["prog"; "-x"] in
  fst r = false
  /\ GetError (shared (snd r)) = "Unknown option '-x'."
  /\ option_map Arg_WasParsed (argument_at (root (snd r)) 0) = Some false
  /\ ~ (option_map StrArgument_GetValue (argument_at (root (snd r)) 0)
        = Some "-x").
Proof.
  vm_compute. repeat split; try reflexivity. discriminate.
Qed.

Section OptionScan.

Lemma list_set_middle {A} (pre rest : list A) (x y : A) :
  list_set (pre ++ x :: rest) (List.length pre) y = (pre ++ y :: rest)%list.
Proof.
  unfold list_set. induction pre as [|a pre IH]; [reflexivity|].
  cbn [List.length app firstn skipn]. cbn [skipn] in IH.
  now rewrite IH.
Qed.

Lemma nth_error_middle {A} (pre rest : list A) (x : A) :
  nth_error (pre ++ x :: rest) (List.length pre) = Some x.
Proof. induction pre as [|a pre IH]; [reflexivity | exact IH]. Qed.

Lemma scan_app_snoc (pre : list IOption) (x : IOption) (r : ScanResult) :
  scan_app (pre ++ [x]) r = scan_app pre (scan_cons x r).
Proof. unfold scan_app. now rewrite fold_right_app. Qed.

Lemma scan_app_Parsed pre opts sh :
  scan_app pre (ScanParsed opts sh) = ScanParsed (pre ++ opts) sh.
Proof.
  unfold scan_app.
  induction pre as [|a pre IH]; cbn [fold_right app]; [|rewrite IH];
    reflexivity.
Qed.

Lemma scan_app_Error pre opts sh :
  scan_app pre (ScanError opts sh) = ScanError (pre ++ opts) sh.
Proof.
  unfold scan_app.
  induction pre as [|a pre IH]; cbn [fold_right app]; [|rewrite IH];
    reflexivity.
Qed.

Lemma scan_app_None pre opts sh :
  scan_app pre (ScanNone opts sh) = ScanNone (pre ++ opts) sh.
Proof.
  unfold scan_app.
  induction pre as [|a pre IH]; cbn [fold_right app]; [|rewrite IH];
    reflexivity.
Qed.

Ltac attempt_at_middle :=
  cbn [TryAttempts]; rewrite nth_error_middle.

Ltac close_scan :=
  rewrite ?list_set_middle, ?scan_app_Parsed, ?scan_app_Error; reflexivity.

(** With identical prefixes the loop over the options is the run of
    the attempts in the combined order. *)
Lemma ScanOptions_combined (opts : list IOption) :
  forall (pre : list IOption) (sh : Shared) (arg : string) (selected : bool),
    scan_app pre (ScanOptions opts sh arg selected true)
    = TryAttempts
        (combined_order (List.length pre) (List.length opts) selected)
        (pre ++ opts) sh arg.
Proof.
  induction opts as [|opt rest IH]; intros pre sh arg selected.
  - cbn. apply scan_app_None.
  - cbn [List.length combined_order seq flat_map app ScanOptions].
    attempt_at_middle.
    destruct (IOption_Parse opt sh arg selected) as [[ok1 opt1] sh1].
    destruct ok1; [close_scan|].
    destruct (HasError sh1); [close_scan|].
    rewrite list_set_middle. attempt_at_middle.
    destruct (IOption_Parse opt1 sh1 arg (negb selected)) as [[ok2 opt2] sh2].
    destruct ok2; [close_scan|].
    destruct (HasError sh2); [close_scan|].
    rewrite list_set_middle, <- scan_app_snoc, IH.
    rewrite List.length_app, <- List.app_assoc. cbn [List.length app].
    now rewrite Nat.add_1_r.
Qed.

(** With distinct prefixes only the selected form is tried. *)
Lemma ScanOptions_selected (opts : list IOption) :
  forall (pre : list IOption) (sh : Shared) (arg : string) (selected : bool),
    scan_app pre (ScanOptions opts sh arg selected false)
    = TryAttempts
        (selected_order (List.length pre) (List.length opts) selected)
        (pre ++ opts) sh arg.
Proof.
  induction opts as [|opt rest IH]; intros pre sh arg selected.
  - cbn. apply scan_app_None.
  - cbn [List.length selected_order seq map ScanOptions].
    attempt_at_middle.
    destruct (IOption_Parse opt sh arg selected) as [[ok1 opt1] sh1].
    destruct ok1; [close_scan|].
    destruct (HasError sh1); [close_scan|].
    rewrite list_set_middle, <- scan_app_snoc.
    unfold selected_order in IH. rewrite IH.
    rewrite List.length_app, <- List.app_assoc. cbn [List.length app].
    now rewrite Nat.add_1_r.
Qed.

(** Options that do not claim the fragment are passed over. *)
Lemma ScanOptions_skip (pre rest : list IOption) (sh : Shared) (arg : string)
    (selected same : bool) :
  Forall (fun opt => forall isShort, unclaimed sh arg opt isShort) pre ->
  ScanOptions (pre ++ rest) sh arg selected same
  = scan_app pre (ScanOptions rest sh arg selected same).
Proof.
  induction pre as [|opt pre IH]; intros HF; [reflexivity|].
  inversion HF as [|? ? Hopt Hpre]; subst.
  assert (Hno : forall isShort,
             IOption_Parse opt sh arg isShort = (false, opt, sh)).
  { intros isShort. destruct (Hopt isShort) as [Hf He].
    destruct (IOption_Parse opt sh arg isShort) as [[ok opt'] sh'] eqn:E.
    cbn in Hf, He. subst ok.
    now destruct (IOption_Parse_no_match _ _ _ _ _ _ E He) as [-> ->]. }
  assert (Hsh : HasError sh = false).
  { destruct (Hopt false) as [_ He]. now rewrite Hno in He. }
  cbn [app ScanOptions]. rewrite Hno, Hsh.
  destruct same; [rewrite Hno, Hsh|]; now rewrite (IH Hpre).
Qed.

(** An option without a short name never matches in the short form. *)
Lemma IOption_Parse_short_without_short_name (opt : IOption) (sh : Shared)
    (arg : string) :
  HasShortName opt = false ->
  IOption_Parse opt sh arg true = (false, opt, sh).
Proof.
  intros Hs.
  unfold IOption_Parse, ParseArg, IOption_ParseArg, FlagOption_ParseArg,
    ConsumeName.
  rewrite Hs. cbn [negb orb].
  destruct (IOption_data opt) eqn:D; rewrite <- D;
    now rewrite IOption_with_same.
Qed.

(** With identical prefixes the first test of the chain, the one for
    the long prefix, takes every token the second would take. *)
Lemma StripPrefix_identical (sh : Shared) (fullArg arg : string)
    (isShortPrefix : bool) :
  GetShortPrefix sh = GetPrefix sh ->
  StripPrefix sh fullArg = Some (arg, isShortPrefix) ->
  isShortPrefix = false.
Proof.
  unfold StripPrefix. intros ->.
  destruct (SV.starts_with fullArg (GetPrefix sh)).
  - now intros [= _ <-].
  - rewrite andb_false_r. discriminate.
Qed.

End OptionScan.

(** C6.  When the long and the short prefix are the same text, a
    token that starts with the prefix (and is not the separator [--],
    before positional-only mode) is taken by the test for the long
    prefix: the form it selects is the long one, and the branch of the
    short prefix is not reached.  The option scan then tries, for each
    option in declaration order, the long form and then the short form,
    and the first attempt that parses the token (or raises an error)
    ends the scan.  So, provided no earlier option claims the token, an
    option takes it by its long name in its first attempt, whether it
    has a short name or not, and otherwise by its short name in its
    second attempt, both through the branch of the long prefix. *)
Theorem identical_prefixes_try_both_forms
    (parseCommand : IArgParser -> Shared -> list string
                    -> bool * IArgParser * Shared)
    (m_Commands0 : list IArgParser)
    (st : LoopState) (fullArg : string) (args : list string) :
  let sh := ls_Shared st in
  let arg := SV.remove_prefix (String.length (GetPrefix sh)) fullArg in
  let attempts := combined_order 0 (List.length (ls_Options st)) false in
  GetShortPrefix sh = GetPrefix sh ->
  isParsingPositionals st = false ->
  fullArg <> "--" ->
  SV.starts_with fullArg (GetPrefix sh) = true ->
  StripPrefix sh fullArg = Some (arg, false)
  /\ ParseToken parseCommand m_Commands0 st fullArg args
     = flow_of_scan st fullArg (TryAttempts attempts (ls_Options st) sh arg)
  /\ (forall (pre rest : list IOption) (opt opt' : IOption) (sh' : Shared),
        ls_Options st = (pre ++ opt :: rest)%list ->
        Forall (fun o => forall isShort, unclaimed sh arg o isShort) pre ->
        HasError sh = false ->
        IOption_Parse opt sh arg false = (true, opt', sh')
        \/ (unclaimed sh arg opt false
            /\ IOption_Parse opt sh arg true = (true, opt', sh')) ->
        ParseToken parseCommand m_Commands0 st fullArg args
        = Continue (with_options st (pre ++ opt' :: rest) sh')).
Proof.
  intros sh arg attempts Hsame Hpos Hsep Hstart.
  assert (Hstrip : StripPrefix sh fullArg = Some (arg, false)).
  { unfold StripPrefix. now rewrite Hstart. }
  assert (Htoken : ParseToken parseCommand m_Commands0 st fullArg args
                   = ParseOptionToken st fullArg arg false).
  { unfold ParseToken. rewrite Hpos.
    apply String.eqb_neq in Hsep. rewrite Hsep.
    fold sh. now rewrite Hstrip. }
  pose proof (ScanOptions_combined (ls_Options st) [] sh arg false) as Hscan.
  cbn [scan_app fold_right List.length app] in Hscan.
  split; [exact Hstrip|]. split.
  - rewrite Htoken. unfold ParseOptionToken. fold sh.
    rewrite Hsame, String.eqb_refl, Hscan. fold attempts.
    destruct (TryAttempts _ _ _ _); reflexivity.
  - intros pre rest opt opt' sh' Hopts Hpre Herr Hwin.
    rewrite Htoken. unfold ParseOptionToken. fold sh.
    rewrite Hsame, String.eqb_refl, Hopts.
    rewrite (ScanOptions_skip _ _ _ _ _ _ Hpre). cbn [ScanOptions].
    destruct Hwin as [Hlong | [[Hf He] Hshort]].
    + rewrite Hlong, scan_app_Parsed. reflexivity.
    + destruct (IOption_Parse opt sh arg false) as [[ok o1] s1] eqn:E.
      cbn [fst snd] in Hf, He. subst ok.
      destruct (IOption_Parse_no_match _ _ _ _ _ _ E He) as [-> ->].
      rewrite Herr. cbn [negb]. rewrite Hshort, scan_app_Parsed.
      reflexivity.
Qed.

(** An instance: both prefixes are [-]; an integer option [count] with
    the short name [c] is declared before the flag [verbose], which
    has no short name.  The token [-verbose] goes to the flag by its
    long name after both attempts on [count] have passed it over. *)
Lemma identical_prefixes_try_both_forms_witness :
  let st := mkLoopState [count_option; verbose_flag] [] []
              same_prefix_shared false 0 in
  ParseToken Parse [] st "-verbose" ["-verbose"]
  = Continue
      (with_options st
         [count_option; IOption_with verbose_flag true (FlagOption true false)]
         same_prefix_shared).
Proof.
  refine (proj2 (proj2 (identical_prefixes_try_both_forms Parse []
    (mkLoopState [count_option; verbose_flag] [] [] same_prefix_shared false 0)
    "-verbose" ["-verbose"] eq_refl eq_refl _ eq_refl))
    [count_option] [] verbose_flag _ _ eq_refl _ eq_refl (or_introl eq_refl)).
  - discriminate.
  - repeat constructor; destruct isShort; reflexivity.
Defined.

(** C6, as claimed, fails: with both prefixes [-] the parse of
    [prog -verbose -c5] succeeds, and the flag [verbose], which has no
    short name, is set by its long name; yet the token [-verbose],
    although it starts with the non-empty short prefix, selects the
    long form, not the short one.  The short name [c] is what matches
    through the branch of the long prefix. *)
Lemma identical_prefixes_short_branch_not_taken :
  let ap := mkArgParser
              (AddOption (AddOption (IArgParser_new "prog" "") count_option)
                 verbose_flag)
              same_prefix_shared in
  let r := ArgParser_Parse ap ["prog"; "-verbose"; "-c5"] in
  HasShortPrefix same_prefix_shared = true
  /\ SV.starts_with "-verbose" (GetShortPrefix same_prefix_shared) = true
  /\ HasShortName verbose_flag = false
  /\ fst r = true
  /\ option_map FlagOption_GetValue (option_at (snd r) 1) = Some (Some true)
  /\ option_map IntOption_GetValue (option_at (snd r) 0) = Some (Some 5)
  /\ StripPrefix same_prefix_shared "-verbose" = Some ("verbose", false)
  /\ StripPrefix same_prefix_shared "-c5" = Some ("c5", false)
  /\ ~ (exists arg,
          StripPrefix same_prefix_shared "-verbose" = Some (arg, true)).
Proof.
  vm_compute. repeat split; try reflexivity.
  intros [arg H]. discriminate H.
Qed.

Section CollectionScan.

Variables (name shortName metaVar description : string).
Variable acceptEmptyValues : bool.
Hypothesis metaVar_given : metaVar <> "".

Abbreviation collection :=
  (collection_option name shortName metaVar description acceptEmptyValues).

Lemma occurrence_not_separator (v : string) :
  String.eqb (occurrence name v) "--" = false.
Proof. unfold occurrence. destruct name; reflexivity. Qed.

(** One occurrence with a non-empty value appends that value. *)
Lemma collection_Parse_occurrence (wasParsed : bool) (values : list string)
    (v : string) :
  v <> "" ->
  IOption_Parse (collection wasParsed values) default_shared
    (name ++ "=" ++ v) false
  = (true, collection true (values ++ [v]), default_shared).
Proof.
  intros Hv.
  unfold IOption_Parse, ParseArg, IOption_ParseArg, ConsumeName,
    collection_option.
  cbn [IOption_data IOption_Name HasMetaVar IOption_MetaVar].
  rewrite starts_with_app, remove_prefix_app.
  destruct metaVar as [|m ms]; [congruence|].
  cbn [negb andb SV.empty SV.starts_with_char String.append Ascii.eqb
       Bool.eqb SV.remove_prefix].
  unfold ParseValue. cbn [IOption_data].
  destruct v as [|c v']; [congruence|].
  cbn [SV.empty]. rewrite andb_false_r. reflexivity.
Qed.

Lemma collection_ParseToken (parseCommand :
      IArgParser -> Shared -> list string -> bool * IArgParser * Shared)
    (wasParsed : bool) (values : list string) (v : string)
    (args : list string) :
  v <> "" ->
  ParseToken parseCommand []
    (mkLoopState [collection wasParsed values] [] [] default_shared false 0)
    (occurrence name v) args
  = Continue
      (mkLoopState [collection true (values ++ [v])] [] [] default_shared
         false 0).
Proof.
  intros Hv. unfold ParseToken.
  cbn [isParsingPositionals ls_Shared].
  rewrite occurrence_not_separator.
  assert (Hstrip : StripPrefix default_shared (occurrence name v)
                   = Some (name ++ "=" ++ v, false)).
  { unfold StripPrefix, occurrence, default_shared. cbn [GetPrefix m_Prefix].
    now rewrite (starts_with_app "--" (name ++ "=" ++ v)),
      (remove_prefix_app "--"). }
  rewrite Hstrip. unfold ParseOptionToken.
  cbn [ls_Shared ls_Options ScanOptions].
  rewrite (collection_Parse_occurrence wasParsed values v Hv).
  reflexivity.
Qed.

(** The token loop over [N] occurrences gathers the [N] values in
    their order, behind those already gathered. *)
Lemma collection_ParseLoop (parseCommand :
      IArgParser -> Shared -> list string -> bool * IArgParser * Shared)
    (vs : list string) :
  Forall (fun v => v <> "") vs ->
  forall (wasParsed : bool) (values : list string),
    ParseLoop parseCommand []
      (mkLoopState [collection wasParsed values] [] [] default_shared false 0)
      (map (occurrence name) vs)
    = Continue
        (mkLoopState
           [collection (match vs with [] => wasParsed | _ => true end)
              (values ++ vs)]
           [] [] default_shared false 0).
Proof.
  induction 1 as [|v vs Hv Hvs IH]; intros wasParsed values.
  - cbn [map ParseLoop]. now rewrite app_nil_r.
  - cbn [map ParseLoop].
    rewrite (collection_ParseToken parseCommand wasParsed values v _ Hv).
    rewrite IH, <- List.app_assoc. cbn [app].
    destruct vs; reflexivity.
Qed.


End CollectionScan.


(** * Further properties *)

(** ** TextBuilder, continued *)

Section TextBuilderMore.

Lemma size_app (a b : string) : SV.size (a ++ b) = SV.size a + SV.size b.
Proof. unfold SV.size. rewrite string_length_app. lia. Qed.

Lemma size_replicate (n : nat) (s : string) :
  SV.size (SV.replicate n s) = Z.of_nat n * SV.size s.
Proof.
  induction n as [|n IH]; [reflexivity|].
  cbn [SV.replicate]. rewrite size_app, IH. lia.
Qed.

Lemma size_nonneg (s : string) : 0 <= SV.size s.
Proof. unfold SV.size. lia. Qed.

Lemma empty_iff (s : string) : SV.empty s = true <-> s = "".
Proof. destruct s; simpl; split; congruence. Qed.

Lemma NewLine_line (tb : TextBuilder) : m_CurrentLine (NewLine tb) = "".
Proof.
  unfold NewLine. destruct (0 <? SV.size (m_CurrentLine tb)) eqn:E.
  - reflexivity.
  - destruct (m_CurrentLine tb); [reflexivity|].
    unfold SV.size in E. cbn [String.length] in E. apply Z.ltb_ge in E. lia.
Qed.

Lemma NewLine_noop (tb : TextBuilder) :
  m_CurrentLine tb = "" -> NewLine tb = tb.
Proof. intros H. unfold NewLine. now rewrite H. Qed.

Lemma ends_with_LF_app (s : string) : SV.ends_with_char (s ++ LF_s) LF = true.
Proof. unfold SV.ends_with_char, LF_s. now rewrite back_app_char. Qed.

Lemma Spacer_line (tb : TextBuilder) : m_CurrentLine (Spacer tb) = "".
Proof.
  unfold Spacer. destruct (negb _); cbn [set_Text m_CurrentLine];
    apply NewLine_line.
Qed.

Lemma Spacer_text (tb : TextBuilder) :
  SV.ends_with_char (m_Text (Spacer tb)) LF = true.
Proof.
  unfold Spacer.
  destruct (SV.ends_with_char (m_Text (NewLine tb)) LF) eqn:E; cbn [negb].
  - exact E.
  - cbn [set_Text m_Text]. apply ends_with_LF_app.
Qed.

End TextBuilderMore.

(** X1.  [NewLine] and [Spacer] are idempotent: a second call right
    after the first changes nothing; and after [Spacer] the current
    line is empty and the accumulated text ends with a line break. *)
Theorem NewLine_Spacer_idempotent (tb : TextBuilder) :
  NewLine (NewLine tb) = NewLine tb
  /\ Spacer (Spacer tb) = Spacer tb
  /\ NewLine (Spacer tb) = Spacer tb
  /\ m_CurrentLine (Spacer tb) = ""
  /\ SV.ends_with_char (m_Text (Spacer tb)) LF = true.
Proof.
  assert (H1 : NewLine (NewLine tb) = NewLine tb)
    by (apply NewLine_noop, NewLine_line).
  assert (H2 : NewLine (Spacer tb) = Spacer tb)
    by (apply NewLine_noop, Spacer_line).
  repeat split; auto using Spacer_line, Spacer_text.
  unfold Spacer at 1. rewrite H2, Spacer_text. reflexivity.
Qed.

Section IndentDepth.

Lemma run_calls_app (a b : list TextCall) :
  forall tb,
    run_calls tb (a ++ b)
    = match run_calls tb a with
      | Some tb' => run_calls tb' b
      | None => None
      end.
Proof.
  induction a as [|c a IH]; intros tb; [reflexivity|].
  cbn [app run_calls]. destruct (run_call tb c); [apply IH | reflexivity].
Qed.

Lemma set_IndentationLevel_same (tb : TextBuilder) :
  set_IndentationLevel tb (m_IndentationLevel tb) = tb.
Proof. destruct tb; reflexivity. Qed.

Lemma run_Indents (n : nat) :
  forall tb,
    0 <= m_IndentationLevel tb ->
    m_IndentationLevel tb + Z.of_nat n < 2 ^ 64 ->
    run_calls tb (repeat CIndent n)
    = Some (set_IndentationLevel tb (m_IndentationLevel tb + Z.of_nat n)).
Proof.
  induction n as [|n IH]; intros tb H0 Hlt.
  - cbn [repeat run_calls]. rewrite Z.add_0_r.
    now rewrite set_IndentationLevel_same.
  - assert (Hw : size_t_wrap (m_IndentationLevel tb + 1)
                 = m_IndentationLevel tb + 1)
      by (apply Z.mod_small; lia).
    cbn [repeat run_calls run_call]. rewrite IH.
    + unfold Indent. rewrite Hw.
      cbn [set_IndentationLevel m_IndentationLevel].
      replace (m_IndentationLevel tb + 1 + Z.of_nat n)
        with (m_IndentationLevel tb + Z.of_nat (S n)) by lia.
      reflexivity.
    + unfold Indent. rewrite Hw.
      cbn [set_IndentationLevel m_IndentationLevel]. lia.
    + unfold Indent. rewrite Hw.
      cbn [set_IndentationLevel m_IndentationLevel]. lia.
Qed.

Lemma run_DeIndents (m : nat) :
  forall tb,
    0 <= m_IndentationLevel tb ->
    run_calls tb (repeat CDeIndent m)
    = Some (set_IndentationLevel tb
              (Z.max 0 (m_IndentationLevel tb - Z.of_nat m))).
Proof.
  induction m as [|m IH]; intros tb H0.
  - cbn [repeat run_calls]. rewrite Z.sub_0_r, Z.max_r by lia.
    now rewrite set_IndentationLevel_same.
  - cbn [repeat run_calls run_call]. unfold DeIndent.
    destruct (0 <? m_IndentationLevel tb) eqn:E.
    + apply Z.ltb_lt in E. rewrite IH.
      * cbn [set_IndentationLevel m_IndentationLevel].
        replace (Z.max 0 (m_IndentationLevel tb - 1 - Z.of_nat m))
          with (Z.max 0 (m_IndentationLevel tb - Z.of_nat (S m))) by lia.
        reflexivity.
      * cbn [set_IndentationLevel m_IndentationLevel]. lia.
    + apply Z.ltb_ge in E. rewrite IH by exact H0.
      replace (Z.max 0 (m_IndentationLevel tb - Z.of_nat m))
        with (Z.max 0 (m_IndentationLevel tb - Z.of_nat (S m))) by lia.
      reflexivity.
Qed.

End IndentDepth.

(** X2.  [n] calls of [Indent] followed by [m] calls of [DeIndent]
    leave the builder as it was except for the depth, which is the
    start depth plus [n] minus [m], and zero when that would be
    negative: [DeIndent] saturates at zero.  The depth is assumed not
    to pass the largest [size_t] on the way up. *)
Theorem Indent_DeIndent_depth (tb : TextBuilder) (n m : nat) :
  0 <= m_IndentationLevel tb ->
  m_IndentationLevel tb + Z.of_nat n < 2 ^ 64 ->
  run_calls tb (repeat CIndent n ++ repeat CDeIndent m)
  = Some (set_IndentationLevel tb
            (Z.max 0 (m_IndentationLevel tb + Z.of_nat n - Z.of_nat m))).
Proof.
  intros H0 Hlt. rewrite run_calls_app, run_Indents by assumption.
  rewrite run_DeIndents by (cbn [set_IndentationLevel m_IndentationLevel]; lia).
  reflexivity.
Qed.

(** An instance: two levels in, three out, from a fresh builder. *)
Lemma Indent_DeIndent_depth_witness :
  run_calls TextBuilder_default
    [CIndent; CIndent; CDeIndent; CDeIndent; CDeIndent]
  = Some TextBuilder_default.
Proof.
  refine (Indent_DeIndent_depth TextBuilder_default 2 3 _ _).
  - vm_compute. discriminate.
  - vm_compute. reflexivity.
Defined.

Section PutLineFacts.

Lemma find_if_None_normalize (s : string) :
  no_space s -> normalize_spaces s = s.
Proof.
  unfold no_space. induction s as [|c s IH]; [reflexivity|].
  cbn [SV.find_if normalize_spaces]. destruct (IsSpace c); [discriminate|].
  destruct (SV.find_if IsSpace s); [discriminate|]. intros _. now rewrite IH.
Qed.

(** The text splits at the first space character. *)
Lemma find_if_Some_split (s : string) (i : nat) :
  SV.find_if IsSpace s = Some i ->
  exists c, IsSpace c = true
            /\ no_space (SV.take i s)
            /\ s = SV.take i s ++ String c (SV.remove_prefix (S i) s).
Proof.
  revert i. induction s as [|x s IH]; intros i; [discriminate|].
  cbn [SV.find_if]. destruct (IsSpace x) eqn:Ex.
  - intros [= <-]. exists x. repeat split; auto.
  - destruct (SV.find_if IsSpace s) as [j|]; [|discriminate].
    intros [= <-]. destruct (IH j eq_refl) as (c & Hc & Hns & Hs).
    exists c. split; [exact Hc|]. split.
    + unfold no_space in *. cbn [SV.take SV.find_if]. now rewrite Ex, Hns.
    + change (SV.remove_prefix (S (S j)) (String x s))
        with (SV.remove_prefix (S j) s).
      cbn [SV.take String.append]. now rewrite <- Hs.
Qed.

Lemma normalize_spaces_app (a b : string) :
  normalize_spaces (a ++ b) = normalize_spaces a ++ normalize_spaces b.
Proof. induction a as [|c a IH]; cbn; [|rewrite IH]; reflexivity. Qed.

Lemma take_length (i : nat) (s : string) :
  (i <= String.length s)%nat -> String.length (SV.take i s) = i.
Proof.
  revert s. induction i as [|i IH]; intros [|c s] H; cbn in *; try lia.
  rewrite IH; lia.
Qed.

(** Trimming keeps a text that ends in a word. *)
Lemma TrimTrailingSpace_word (a w : string) :
  w <> "" -> no_space w -> TrimTrailingSpace (a ++ w) = a ++ w.
Proof.
  intros Hne Hns.
  assert (Hw : TrimTrailingSpace w = w /\ TrimTrailingSpace w <> "").
  { clear a. unfold no_space in Hns.
    induction w as [|c w IH]; [congruence|].
    cbn [SV.find_if] in Hns. destruct (IsSpace c) eqn:Ec; [discriminate|].
    destruct (SV.find_if IsSpace w) eqn:F; [discriminate|].
    cbn [TrimTrailingSpace]. destruct w as [|d w].
    - cbn [TrimTrailingSpace]. rewrite Ec. split; [reflexivity | discriminate].
    - destruct (IH ltac:(discriminate) eq_refl) as [E1 E2].
      rewrite E1. split; [reflexivity | discriminate]. }
  destruct Hw as [Hw1 Hw2].
  induction a as [|c a IH]; [exact Hw1|].
  cbn [String.append TrimTrailingSpace]. rewrite IH.
  destruct (a ++ w) eqn:E; [|reflexivity].
  destruct a; cbn in E; [congruence | discriminate].
Qed.

(** [PutText] of a text without line break is one [PutLine]. *)
Lemma PutText_from_no_line_break (text : string) :
  no_line_break text ->
  forall tb seg, PutText_from tb seg text = PutLine tb (seg ++ text).
Proof.
  unfold no_line_break, SV.find.
  induction text as [|c text IH]; intros Hn tb seg.
  - cbn [PutText_from]. now rewrite string_app_empty_r.
  - cbn [SV.find_if] in Hn. cbn [PutText_from].
    rewrite Ascii.eqb_sym in Hn.
    destruct (Ascii.eqb c LF); [discriminate|].
    destruct (SV.find_if (Ascii.eqb LF) text) eqn:F; [discriminate|].
    rewrite IH by reflexivity. now rewrite string_app_assoc.
Qed.

(** With depth zero, no recorded indent and room left on the line, the
    loop of [PutLine] appends the text with its space characters
    turned into blanks and never wraps. *)
Lemma PutLine_loop_no_wrap (fuel : nat) :
  forall tb text,
    (String.length text < fuel)%nat ->
    m_IndentationLevel tb = 0 ->
    m_CurrentLineIndentLength tb = 0 ->
    SV.size (m_CurrentLine tb) + SV.size text < m_MaxParagraphWidth tb ->
    PutLine_loop fuel tb text
    = Some (set_CurrentLine tb (m_CurrentLine tb ++ normalize_spaces text)).
Proof.
  induction fuel as [|fuel IH]; intros tb text Hfuel Hlevel Hind Hroom; [lia|].
  cbn [PutLine_loop].
  assert (Hwidth :
    (m_MaxParagraphWidth tb
     <=? size_t_wrap (SV.size (m_CurrentLine tb) - m_CurrentLineIndentLength tb))
    = false).
  { apply Z.leb_gt. rewrite Hind, Z.sub_0_r. unfold size_t_wrap.
    pose proof (size_nonneg (m_CurrentLine tb)).
    pose proof (size_nonneg text).
    pose proof (Z.mod_le (SV.size (m_CurrentLine tb)) (2 ^ 64)).
    lia. }
  rewrite Hwidth, andb_false_r. cbn [andb].
  assert (Hindent : PutLineIndent tb false = tb).
  { unfold PutLineIndent. destruct (SV.empty (m_CurrentLine tb)) eqn:E;
      [|reflexivity].
    apply empty_iff in E. rewrite Hlevel. cbn [andb Z.mul].
    destruct tb; cbn in *. subst. reflexivity. }
  rewrite Hindent.
  destruct (SV.find_if IsSpace text) as [idx|] eqn:F.
  - destruct (find_if_Some_split text idx F) as (c & Hc & Hns & Hsplit).
    pose proof (find_if_bound _ _ _ F) as Hidx.
    assert (Hstep :
      (match idx with
       | S _ => set_CurrentLine tb
                  (m_CurrentLine tb ++ SV.take idx text ++ " ")
       | O => if negb false
              then set_CurrentLine tb (m_CurrentLine tb ++ " ")
              else tb
       end)
      = set_CurrentLine tb (m_CurrentLine tb ++ SV.take idx text ++ " ")).
    { destruct idx; reflexivity. }
    assert (Hnorm :
      normalize_spaces text
      = SV.take idx text
          ++ " " ++ normalize_spaces (SV.remove_prefix (S idx) text)).
    { rewrite Hsplit at 1. rewrite normalize_spaces_app.
      cbn [normalize_spaces]. now rewrite Hc, (find_if_None_normalize _ Hns). }
    rewrite Hstep. rewrite IH.
    + cbn [set_CurrentLine m_Text m_IndentationLevel m_CurrentLine
           m_CurrentLineIndentLength m_Indent m_IndentOnWrap
           m_MaxParagraphWidth].
      rewrite Hnorm, !string_app_assoc. reflexivity.
    + rewrite remove_prefix_length. lia.
    + exact Hlevel.
    + exact Hind.
    + cbn [set_CurrentLine m_CurrentLine m_MaxParagraphWidth].
      rewrite !size_app. unfold SV.size in *.
      rewrite remove_prefix_length, take_length by lia.
      cbn [String.length]. lia.
  - now rewrite (find_if_None_normalize text F).
Qed.

End PutLineFacts.

(** X3.  On a builder with nothing accumulated, depth zero and wrap
    width above the length of a text without line breaks, [PutText]
    puts the text on the current line with every space character
    turned into a blank, and [Build] returns that line end-trimmed and
    closed by one line break; a text without any space character comes
    back exactly. *)
Theorem PutText_short_text (indent : string) (indentOnWrap : bool)
    (maxParagraphWidth : Z) (text : string) :
  no_line_break text ->
  SV.size text < maxParagraphWidth ->
  exists tb,
    PutText (TextBuilder_new indent indentOnWrap maxParagraphWidth) text = Some tb
    /\ m_Text tb = ""
    /\ m_CurrentLine tb = normalize_spaces text
    /\ fst (Build tb) = TrimTrailingSpace (normalize_spaces text) ++ LF_s
    /\ (text <> "" -> no_space text -> fst (Build tb) = text ++ LF_s).
Proof.
  intros Hnl Hlen.
  set (tb0 := TextBuilder_new indent indentOnWrap maxParagraphWidth).
  exists (set_CurrentLine tb0 (normalize_spaces text)).
  assert (HP : PutText tb0 text
               = Some (set_CurrentLine tb0 (normalize_spaces text))).
  { unfold PutText. rewrite (PutText_from_no_line_break text Hnl).
    change ("" ++ text) with text. unfold PutLine.
    rewrite PutLine_loop_no_wrap; try reflexivity; try lia.
    cbn [tb0 TextBuilder_new m_CurrentLine m_MaxParagraphWidth].
    change (SV.size "") with 0. lia. }
  assert (HB : fst (Build (set_CurrentLine tb0 (normalize_spaces text)))
               = TrimTrailingSpace (normalize_spaces text) ++ LF_s)
    by reflexivity.
  split; [exact HP|]. split; [reflexivity|]. split; [reflexivity|].
  split; [exact HB|]. intros Hne Hns.
  rewrite HB, (find_if_None_normalize text Hns).
  pose proof (TrimTrailingSpace_word "" text Hne Hns) as HT.
  cbn [String.append] in HT. now rewrite HT.
Qed.

(** An instance: a tab inside the text comes out as a blank. *)
Lemma PutText_short_text_witness :
  exists tb,
    PutText TextBuilder_default (String "a" (String "009" "b")) = Some tb
    /\ fst (Build tb) = "a b" ++ LF_s.
Proof.
  destruct (PutText_short_text "  " true 80 (String "a" (String "009" "b")))
    as (tb & H1 & _ & _ & H4 & _).
  - reflexivity.
  - reflexivity.
  - exists tb. split; [exact H1 | exact H4].
Defined.

(** X4.  A word, that is a non-empty text without space characters,
    put on a builder whose text and current line are empty is never
    broken, whatever its length and the wrap width: [Build] returns as
    many copies of the indent string as the depth says, the word, and
    one line break. *)
Theorem PutText_word_unbroken (tb : TextBuilder) (word : string) :
  m_Text tb = "" ->
  m_CurrentLine tb = "" ->
  word <> "" ->
  no_space word ->
  exists tb',
    PutText tb word = Some tb'
    /\ m_Text tb' = ""
    /\ fst (Build tb')
       = SV.replicate (Z.to_nat (m_IndentationLevel tb)) (m_Indent tb)
           ++ word ++ LF_s.
Proof.
  intros Htext Hline Hne Hns.
  assert (Hnl : no_line_break word).
  { unfold no_line_break, SV.find. unfold no_space in Hns.
    clear Hne. induction word as [|c w IH]; [reflexivity|].
    cbn [SV.find_if] in *. destruct (IsSpace c) eqn:Ec; [discriminate|].
    destruct (SV.find_if IsSpace w); [discriminate|].
    destruct (Ascii.eqb LF c) eqn:E.
    - apply Ascii.eqb_eq in E. subst c. discriminate Ec.
    - now rewrite IH. }
  destruct tb as [t l cl cil ind iow mw]. cbn in Htext, Hline. subst t cl.
  cbn [m_IndentationLevel m_Indent].
  set (tb0 := mkTextBuilder "" l "" cil ind iow mw).
  set (tb1 := PutLineIndent tb0 false).
  assert (Hline1 : m_CurrentLine tb1 = SV.replicate (Z.to_nat l) ind)
    by reflexivity.
  assert (Htext1 : m_Text tb1 = "") by reflexivity.
  exists (set_CurrentLine tb1 (m_CurrentLine tb1 ++ word)).
  split; [|split].
  - unfold PutText. rewrite (PutText_from_no_line_break word Hnl).
    change ("" ++ word) with word.
    unfold PutLine. cbn [PutLine_loop].
    change (SV.empty (m_CurrentLine tb0)) with true. cbn [negb andb].
    unfold no_space in Hns. rewrite Hns. reflexivity.
  - exact Htext1.
  - unfold Build. cbn [fst set_CurrentLine m_Text m_CurrentLine].
    rewrite Htext1. cbn [SV.empty]. rewrite Hline1.
    rewrite (TrimTrailingSpace_word _ word Hne Hns).
    now rewrite string_app_assoc.
Qed.

(** An instance: a word of five characters at depth one with wrap width 3. *)
Lemma PutText_word_unbroken_witness :
  exists tb',
    PutText (Indent (TextBuilder_new "  " true 3)) "hello" = Some tb'
    /\ fst (Build tb') = "  hello" ++ LF_s.
Proof.
  destruct (PutText_word_unbroken (Indent (TextBuilder_new "  " true 3)) "hello")
    as (tb' & H1 & _ & H3); try reflexivity.
  - discriminate.
  - exists tb'. split; [exact H1 | exact H3].
Defined.

Section BuilderInvariant.

Lemma same_setup_refl (tb : TextBuilder) : same_setup tb tb.
Proof. split; reflexivity. Qed.

Lemma same_setup_trans (a b c : TextBuilder) :
  same_setup a b -> same_setup b c -> same_setup a c.
Proof. intros [H1 H2] [H3 H4]. split; congruence. Qed.

Lemma NewLine_setup (tb : TextBuilder) : same_setup tb (NewLine tb).
Proof.
  unfold NewLine. destruct (0 <? _); [|apply same_setup_refl].
  destruct (negb _); split; reflexivity.
Qed.

Lemma Spacer_setup (tb : TextBuilder) : same_setup tb (Spacer tb).
Proof.
  unfold Spacer. destruct (negb _); [|apply NewLine_setup].
  destruct (NewLine_setup tb) as [H1 H2]. split; [exact H1 | exact H2].
Qed.

Lemma PutLineIndent_setup (tb : TextBuilder) (hasWrapped : bool) :
  same_setup tb (PutLineIndent tb hasWrapped).
Proof.
  unfold PutLineIndent. destruct (SV.empty _); [|apply same_setup_refl].
  destruct (hasWrapped && _); split; reflexivity.
Qed.

Lemma set_CurrentLine_setup (tb : TextBuilder) (l : string) :
  same_setup tb (set_CurrentLine tb l).
Proof. split; reflexivity. Qed.

(** One pass through the body of [PutLine]'s loop, up to the test of
    [nextWordIdx]: the builder the rest of the body works on. *)
Lemma PutLine_loop_unfold (fuel : nat) (tb : TextBuilder) (text : string) :
  exists hasWrapped : bool,
    let tb2 := PutLineIndent (if hasWrapped then NewLine tb else tb) hasWrapped in
    PutLine_loop (S fuel) tb text
    = match SV.find_if IsSpace text with
      | None => Some (set_CurrentLine tb2 (m_CurrentLine tb2 ++ text))
      | Some nextWordIdx =>
          PutLine_loop fuel
            (match nextWordIdx with
             | S _ => set_CurrentLine tb2
                        (m_CurrentLine tb2 ++ SV.take nextWordIdx text ++ " ")
             | O => if negb hasWrapped
                    then set_CurrentLine tb2 (m_CurrentLine tb2 ++ " ")
                    else tb2
             end)
            (SV.remove_prefix (S nextWordIdx) text)
      end.
Proof.
  exists (negb (SV.empty (m_CurrentLine tb)) &&
          (m_MaxParagraphWidth tb
           <=? size_t_wrap
                 (SV.size (m_CurrentLine tb) - m_CurrentLineIndentLength tb)) &&
          (match SV.back (m_CurrentLine tb) with
           | Some c => IsSpace c
           | None => false
           end
           || match text with
              | String c _ => IsSpace c
              | EmptyString => false
              end)).
  reflexivity.
Qed.

Lemma PutLine_loop_setup (fuel : nat) :
  forall tb text tb',
    PutLine_loop fuel tb text = Some tb' -> same_setup tb tb'.
Proof.
  induction fuel as [|fuel IH]; intros tb text tb' H; [discriminate|].
  destruct (PutLine_loop_unfold fuel tb text) as [hw E]. cbv zeta in E.
  rewrite E in H. clear E.
  assert (H2 : same_setup tb
                 (PutLineIndent (if hw then NewLine tb else tb) hw)).
  { eapply same_setup_trans; [|apply PutLineIndent_setup].
    destruct hw; [apply NewLine_setup | apply same_setup_refl]. }
  destruct (SV.find_if IsSpace text) as [idx|].
  - apply IH in H. eapply same_setup_trans; [|exact H].
    eapply same_setup_trans; [exact H2|].
    destruct idx; [destruct (negb hw)|];
      first [apply set_CurrentLine_setup | apply same_setup_refl].
  - injection H as <-.
    eapply same_setup_trans; [exact H2 | apply set_CurrentLine_setup].
Qed.

Lemma PutText_from_setup (text : string) :
  forall tb seg tb',
    PutText_from tb seg text = Some tb' -> same_setup tb tb'.
Proof.
  induction text as [|c text IH]; intros tb seg tb' H; cbn [PutText_from] in H.
  - eapply PutLine_loop_setup. exact H.
  - destruct (Ascii.eqb c LF).
    + destruct (PutLine tb seg) as [tb1|] eqn:E; [|discriminate].
      apply PutLine_loop_setup in E. apply IH in H.
      eapply same_setup_trans; [exact E|].
      eapply same_setup_trans; [apply NewLine_setup | exact H].
    + eapply IH. exact H.
Qed.

Lemma NewLine_ok (tb : TextBuilder) : builder_ok tb -> builder_ok (NewLine tb).
Proof.
  intros [H1 H2]. unfold NewLine. destruct (0 <? _); [|now split].
  destruct (negb _); split; cbn; try exact H1; change (SV.size "") with 0; lia.
Qed.

Lemma PutLineIndent_ok (tb : TextBuilder) (hasWrapped : bool) :
  builder_ok tb -> builder_ok (PutLineIndent tb hasWrapped).
Proof.
  intros [H1 H2]. unfold PutLineIndent.
  destruct (SV.empty (m_CurrentLine tb)) eqn:E; [|now split].
  apply empty_iff in E.
  pose proof (size_nonneg (m_Indent tb)) as Hi.
  assert (Hw : 0 <= size_t_wrap (m_IndentationLevel tb * SV.size (m_Indent tb))
               <= m_IndentationLevel tb * SV.size (m_Indent tb)).
  { unfold size_t_wrap. split.
    - apply Z.mod_pos_bound. lia.
    - apply Z.mod_le; nia. }
  destruct (hasWrapped && _); split; try exact H1;
    cbn [set_CurrentLine set_CurrentLineIndentLength m_CurrentLine
         m_CurrentLineIndentLength m_IndentationLevel m_Indent];
    rewrite E, ?size_app, size_replicate, Z2Nat.id by lia;
    change (SV.size "") with 0.
  - split; [apply Z.mod_pos_bound; lia|].
    etransitivity; [apply Z.mod_le; lia|]. lia.
  - lia.
Qed.

Lemma set_CurrentLine_app_ok (tb : TextBuilder) (s : string) :
  builder_ok tb -> builder_ok (set_CurrentLine tb (m_CurrentLine tb ++ s)).
Proof.
  intros [H1 H2]. split; [exact H1|].
  cbn [set_CurrentLine m_CurrentLine m_CurrentLineIndentLength].
  rewrite size_app. pose proof (size_nonneg s). lia.
Qed.

Lemma PutLine_loop_ok (fuel : nat) :
  forall tb text tb',
    builder_ok tb -> PutLine_loop fuel tb text = Some tb' -> builder_ok tb'.
Proof.
  induction fuel as [|fuel IH]; intros tb text tb' Hok H; [discriminate|].
  destruct (PutLine_loop_unfold fuel tb text) as [hw E]. cbv zeta in E.
  rewrite E in H. clear E.
  assert (H2 : builder_ok (PutLineIndent (if hw then NewLine tb else tb) hw)).
  { apply PutLineIndent_ok. destruct hw; [apply NewLine_ok|]; exact Hok. }
  destruct (SV.find_if IsSpace text) as [idx|].
  - eapply IH; [|exact H].
    destruct idx; [destruct (negb hw)|];
      first [apply set_CurrentLine_app_ok; exact H2 | exact H2].
  - injection H as <-. now apply set_CurrentLine_app_ok.
Qed.

Lemma PutText_from_ok (text : string) :
  forall tb seg tb',
    builder_ok tb -> PutText_from tb seg text = Some tb' -> builder_ok tb'.
Proof.
  induction text as [|c text IH]; intros tb seg tb' Hok H;
    cbn [PutText_from] in H.
  - eapply PutLine_loop_ok; eassumption.
  - destruct (Ascii.eqb c LF).
    + destruct (PutLine tb seg) as [tb1|] eqn:E; [|discriminate].
      eapply IH; [|exact H]. apply NewLine_ok.
      eapply PutLine_loop_ok; eassumption.
    + eapply IH; eassumption.
Qed.

Lemma run_call_ok (tb tb' : TextBuilder) (c : TextCall) :
  builder_ok tb -> run_call tb c = Some tb' -> builder_ok tb'.
Proof.
  intros Hok H. destruct c; cbn [run_call] in H.
  - eapply PutText_from_ok; eassumption.
  - injection H as <-. now apply NewLine_ok.
  - injection H as <-. unfold Spacer.
    pose proof (NewLine_ok tb Hok) as [H1 H2].
    destruct (negb _); split; assumption.
  - injection H as <-. destruct Hok as [H1 H2]. split; [|exact H2].
    cbn [Indent set_IndentationLevel m_IndentationLevel]. unfold size_t_wrap.
    apply Z.mod_pos_bound. lia.
  - injection H as <-. destruct Hok as [H1 H2]. unfold DeIndent.
    destruct (0 <? m_IndentationLevel tb) eqn:E; [|now split].
    apply Z.ltb_lt in E. split; [|exact H2].
    cbn [set_IndentationLevel m_IndentationLevel]. lia.
Qed.

End BuilderInvariant.

(** X5.  Every sequence of calls keeps the builder well formed: the
    depth stays a [size_t], and the indent length recorded for the
    current line stays between zero and the length of that line, so
    the line width [PutLine] computes as their difference does not wrap
    around.  A freshly constructed builder is well formed. *)
Theorem calls_keep_builder_ok (tb tb' : TextBuilder) (cs : list TextCall) :
  builder_ok tb ->
  run_calls tb cs = Some tb' ->
  builder_ok tb'
  /\ 0 <= SV.size (m_CurrentLine tb') - m_CurrentLineIndentLength tb'.
Proof.
  intros Hok H.
  assert (Hok' : builder_ok tb').
  { revert tb Hok H. induction cs as [|c cs IH]; intros tb Hok H.
    - injection H as <-. exact Hok.
    - cbn [run_calls] in H. destruct (run_call tb c) as [tb1|] eqn:E;
        [|discriminate].
      eapply IH; [|exact H]. eapply run_call_ok; eassumption. }
  split; [exact Hok'|]. destruct Hok' as [_ H2]. lia.
Qed.

(** An instance: a wrapped paragraph at depth one. *)
Lemma calls_keep_builder_ok_witness :
  exists tb',
    run_calls (TextBuilder_new "  " true 4) [CIndent; CPutText "ab cd ef"]
    = Some tb'
    /\ builder_ok tb'.
Proof.
  eexists. split; [vm_compute; reflexivity|].
  refine (proj1 (calls_keep_builder_ok (TextBuilder_new "  " true 4) _
                   [CIndent; CPutText "ab cd ef"] _ eq_refl)).
  unfold builder_ok. cbn. lia.
Defined.

(** X6.  No call changes the configuration given to the constructor
    (indent string, indent-on-wrap flag, wrap width), and a sequence
    without [Indent] and [DeIndent] leaves the depth as it was: text,
    line and spacer calls never touch it. *)
Theorem calls_keep_configuration (tb tb' : TextBuilder) (cs : list TextCall) :
  run_calls tb cs = Some tb' ->
  configuration tb' = configuration tb
  /\ (forallb keeps_depth cs = true ->
      m_IndentationLevel tb' = m_IndentationLevel tb).
Proof.
  revert tb. induction cs as [|c cs IH]; intros tb H.
  - injection H as <-. split; reflexivity.
  - cbn [run_calls] in H. destruct (run_call tb c) as [tb1|] eqn:E;
      [|discriminate].
    destruct (IH tb1 H) as [Hc Hd].
    assert (Hstep : configuration tb1 = configuration tb
                    /\ (keeps_depth c = true ->
                        m_IndentationLevel tb1 = m_IndentationLevel tb)).
    { destruct c; cbn [run_call] in E.
      - apply PutText_from_setup in E. destruct E as [E1 E2]. now split.
      - injection E as <-. destruct (NewLine_setup tb) as [E1 E2]. now split.
      - injection E as <-. destruct (Spacer_setup tb) as [E1 E2]. now split.
      - injection E as <-. split; [reflexivity | discriminate].
      - injection E as <-. unfold DeIndent.
        destruct (0 <? _); split; try reflexivity; discriminate. }
    destruct Hstep as [Hc1 Hd1]. split; [congruence|].
    cbn [forallb]. intros Hall. apply andb_prop in Hall as [Hk Hall].
    rewrite (Hd Hall). exact (Hd1 Hk).
Qed.

(** An instance: a paragraph and a spacer at depth one. *)
Lemma calls_keep_configuration_witness :
  exists tb',
    run_calls (Indent TextBuilder_default) [CPutText "ab cd"; CSpacer] = Some tb'
    /\ configuration tb' = ("  ", true, 80)
    /\ m_IndentationLevel tb' = 1.
Proof.
  eexists. split; [vm_compute; reflexivity|].
  destruct (calls_keep_configuration (Indent TextBuilder_default) _
              [CPutText "ab cd"; CSpacer] eq_refl) as [H1 H2].
  split; [exact H1 | exact (H2 eq_refl)].
Defined.

(** ** TextBuilder: line breaks and wrapping *)

Section LineBreaks.

Lemma PutText_from_line_break (s1 s2 : string) :
  forall tb seg,
    PutText_from tb seg (s1 ++ String LF s2)
    = match PutText_from tb seg s1 with
      | Some tb1 => PutText_from (NewLine tb1) "" s2
      | None => None
      end.
Proof.
  induction s1 as [|c s1 IH]; intros tb seg.
  - cbn [String.append PutText_from]. now rewrite Ascii.eqb_refl.
  - cbn [String.append PutText_from]. destruct (Ascii.eqb c LF).
    + destruct (PutLine tb seg) as [tb1|]; [apply IH | reflexivity].
    + apply IH.
Qed.

Lemma find_if_app_space (w rest : string) (c : ascii) :
  no_space w -> IsSpace c = true ->
  SV.find_if IsSpace (w ++ String c rest) = Some (String.length w).
Proof.
  unfold no_space. induction w as [|x w IH]; intros Hw Hc.
  - cbn [String.append SV.find_if String.length]. now rewrite Hc.
  - cbn [SV.find_if] in Hw. cbn [String.append SV.find_if String.length].
    destruct (IsSpace x); [discriminate|].
    destruct (SV.find_if IsSpace w) eqn:F; [discriminate|].
    now rewrite (IH eq_refl Hc).
Qed.

Lemma take_app (a b : string) : SV.take (String.length a) (a ++ b) = a.
Proof. induction a as [|c a IH]; cbn; [destruct b|rewrite IH]; reflexivity. Qed.

Lemma TrimTrailingSpace_app_blank (a : string) :
  TrimTrailingSpace (a ++ " ") = TrimTrailingSpace a.
Proof.
  induction a as [|c a IH]; [reflexivity|].
  cbn [String.append TrimTrailingSpace]. now rewrite IH.
Qed.

Lemma TrimTrailingSpace_blank (w : string) :
  w <> "" -> no_space w -> TrimTrailingSpace (w ++ " ") = w.
Proof.
  intros Hne Hns. rewrite TrimTrailingSpace_app_blank.
  exact (TrimTrailingSpace_word "" w Hne Hns).
Qed.

Lemma no_space_no_line_break (w : string) : no_space w -> no_line_break w.
Proof.
  unfold no_space, no_line_break, SV.find.
  induction w as [|c w IH]; [reflexivity|].
  cbn [SV.find_if]. destruct (IsSpace c) eqn:Ec; [discriminate|].
  destruct (SV.find_if IsSpace w); [discriminate|]. intros _.
  destruct (Ascii.eqb LF c) eqn:E.
  - apply Ascii.eqb_eq in E. subst c. discriminate Ec.
  - now rewrite IH.
Qed.

Lemma no_line_break_app (a b : string) :
  no_line_break a -> no_line_break b -> no_line_break (a ++ b).
Proof.
  unfold no_line_break, SV.find. intros Ha Hb.
  induction a as [|c a IH]; [exact Hb|].
  cbn [SV.find_if] in Ha. cbn [String.append SV.find_if].
  destruct (Ascii.eqb LF c); [discriminate|].
  destruct (SV.find_if (Ascii.eqb LF) a); [discriminate|].
  now rewrite IH.
Qed.

Lemma PutLine_loop_step (fuel : nat) (tb : TextBuilder) (text : string)
    (hasWrapped : bool) :
  hasWrapped
  = negb (SV.empty (m_CurrentLine tb)) &&
    (m_MaxParagraphWidth tb
     <=? size_t_wrap
           (SV.size (m_CurrentLine tb) - m_CurrentLineIndentLength tb)) &&
    (match SV.back (m_CurrentLine tb) with
     | Some c => IsSpace c
     | None => false
     end
     || match text with
        | String c _ => IsSpace c
        | EmptyString => false
        end) ->
  PutLine_loop (S fuel) tb text
  = match SV.find_if IsSpace text with
    | None =>
        Some (set_CurrentLine
                (PutLineIndent (if hasWrapped then NewLine tb else tb)
                   hasWrapped)
                (m_CurrentLine
                   (PutLineIndent (if hasWrapped then NewLine tb else tb)
                      hasWrapped) ++ text))
    | Some nextWordIdx =>
        PutLine_loop fuel
          (match nextWordIdx with
           | S _ =>
               set_CurrentLine
                 (PutLineIndent (if hasWrapped then NewLine tb else tb)
                    hasWrapped)
                 (m_CurrentLine
                    (PutLineIndent (if hasWrapped then NewLine tb else tb)
                       hasWrapped) ++ SV.take nextWordIdx text ++ " ")
           | O =>
               if negb hasWrapped
               then set_CurrentLine
                      (PutLineIndent (if hasWrapped then NewLine tb else tb)
                         hasWrapped)
                      (m_CurrentLine
                         (PutLineIndent (if hasWrapped then NewLine tb else tb)
                            hasWrapped) ++ " ")
               else PutLineIndent (if hasWrapped then NewLine tb else tb)
                      hasWrapped
           end)
          (SV.remove_prefix (S nextWordIdx) text)
    end.
Proof. intros ->. reflexivity. Qed.

Lemma back_app_blank (s : string) : SV.back (s ++ " ") = Some " "%char.
Proof. apply back_app_char. Qed.

End LineBreaks.

(** X26.  A line break inside a text is a [NewLine] between its two
    parts: on every builder, [PutText] of [s1], a line break and [s2]
    does what [PutText(s1); NewLine(); PutText(s2)] does. *)
Theorem PutText_line_break_is_NewLine (tb : TextBuilder) (s1 s2 : string) :
  run_calls tb [CPutText (s1 ++ LF_s ++ s2)]
  = run_calls tb [CPutText s1; CNewLine; CPutText s2].
Proof.
  cbn [run_calls run_call]. unfold PutText, LF_s.
  cbn [String.append]. rewrite PutText_from_line_break.
  destruct (PutText_from tb "" s1) as [tb1|]; reflexivity.
Qed.

(** X27.  Two words separated by a blank, put on a fresh builder: the
    line is broken between them exactly when the first word and its
    blank have reached the wrap width, whatever the length of the
    second word; the continuation line then starts with one indent
    string if indent-on-wrap is set.  Otherwise both words stay on one
    line, even if that line is then longer than the wrap width. *)
Theorem PutText_two_words (indent : string) (indentOnWrap : bool)
    (maxParagraphWidth : Z) (w1 w2 : string) :
  w1 <> "" -> no_space w1 ->
  w2 <> "" -> no_space w2 ->
  SV.size w1 + 1 < 2 ^ 64 ->
  exists tb,
    PutText (TextBuilder_new indent indentOnWrap maxParagraphWidth)
      (w1 ++ " " ++ w2) = Some tb
    /\ fst (Build tb)
       = if maxParagraphWidth <=? SV.size w1 + 1
         then w1 ++ LF_s ++ (if indentOnWrap then indent else "") ++ w2 ++ LF_s
         else w1 ++ " " ++ w2 ++ LF_s.
Proof.
  intros Hne1 Hns1 Hne2 Hns2 Hsize.
  set (tb0 := TextBuilder_new indent indentOnWrap maxParagraphWidth).
  set (text := w1 ++ " " ++ w2).
  assert (Hnl : no_line_break text).
  { apply no_line_break_app; [now apply no_space_no_line_break|].
    apply (no_line_break_app " " w2); [reflexivity|].
    now apply no_space_no_line_break. }
  (* first pass of the loop: the first word and its blank *)
  set (tb1 := set_CurrentLine tb0 (w1 ++ " ")).
  assert (Hfuel : exists fuel, String.length text = S fuel).
  { unfold text. rewrite string_length_app. cbn [String.append String.length].
    exists (String.length w1 + String.length w2)%nat. lia. }
  destruct Hfuel as [fuel Hfuel].
  assert (H1 : PutText tb0 text = PutLine_loop (S fuel) tb1 w2).
  { unfold PutText. rewrite (PutText_from_no_line_break text Hnl).
    change ("" ++ text) with text. unfold PutLine. rewrite Hfuel.
    rewrite (PutLine_loop_step (S fuel) tb0 text false) by reflexivity.
    change (PutLineIndent tb0 false) with tb0.
    change (m_CurrentLine tb0) with "".
    unfold text.
    change (w1 ++ " " ++ w2) with (w1 ++ String " " w2).
    rewrite (find_if_app_space w1 w2 " " Hns1 eq_refl).
    rewrite take_app.
    replace (SV.remove_prefix (S (String.length w1)) (w1 ++ String " " w2))
      with w2
      by (clear; induction w1 as [|c w IH]; [reflexivity | exact IH]).
    destruct (String.length w1) as [|n1] eqn:El;
      [destruct w1; [congruence | discriminate]|].
    reflexivity. }
  (* second pass: wrap or not *)
  assert (Hwidth : size_t_wrap (SV.size (m_CurrentLine tb1)
                                - m_CurrentLineIndentLength tb1)
                   = SV.size w1 + 1).
  { change (m_CurrentLine tb1) with (w1 ++ " ").
    change (m_CurrentLineIndentLength tb1) with 0.
    rewrite size_app, Z.sub_0_r. change (SV.size " ") with 1.
    unfold size_t_wrap. apply Z.mod_small.
    pose proof (size_nonneg w1). lia. }
  assert (Hns2' : SV.find_if IsSpace w2 = None) by exact Hns2.
  assert (He : SV.empty (w1 ++ " ") = false)
    by (destruct w1; reflexivity).
  assert (H2 : PutLine_loop (S fuel) tb1 w2
               = Some (if maxParagraphWidth <=? SV.size w1 + 1
                       then set_CurrentLine
                              (PutLineIndent (NewLine tb1) true)
                              (m_CurrentLine (PutLineIndent (NewLine tb1) true)
                                 ++ w2)
                       else set_CurrentLine tb1 (m_CurrentLine tb1 ++ w2))).
  { rewrite (PutLine_loop_step fuel tb1 w2
               (maxParagraphWidth <=? SV.size w1 + 1)).
    - rewrite Hns2'.
      destruct (maxParagraphWidth <=? SV.size w1 + 1); [reflexivity|].
      unfold PutLineIndent.
      change (m_CurrentLine tb1) with (w1 ++ " "). now rewrite He.
    - rewrite Hwidth.
      change (m_MaxParagraphWidth tb1) with maxParagraphWidth.
      change (m_CurrentLine tb1) with (w1 ++ " ").
      rewrite back_app_blank, He.
      change (IsSpace " ") with true. cbn [orb negb andb].
      now rewrite andb_true_r. }
  eexists. split; [rewrite H1; exact H2|].
  destruct (maxParagraphWidth <=? SV.size w1 + 1).
  - assert (HN : NewLine tb1
                 = mkTextBuilder w1 0 "" 0 indent indentOnWrap
                     maxParagraphWidth).
    { unfold NewLine.
      change (m_CurrentLine tb1) with (w1 ++ " ").
      assert (Hs : (0 <? SV.size (w1 ++ " ")) = true).
      { apply Z.ltb_lt. rewrite size_app. change (SV.size " ") with 1.
        pose proof (size_nonneg w1). lia. }
      rewrite Hs. cbn [tb1 tb0 TextBuilder_new set_CurrentLine m_Text SV.empty
                       negb set_Text set_CurrentLineIndentLength
                       m_IndentationLevel m_CurrentLine
                       m_CurrentLineIndentLength m_Indent m_IndentOnWrap
                       m_MaxParagraphWidth String.append].
      now rewrite (TrimTrailingSpace_blank w1 Hne1 Hns1). }
    rewrite HN. unfold PutLineIndent, Build.
    cbn [m_CurrentLine SV.empty andb set_CurrentLineIndentLength
         set_CurrentLine m_IndentOnWrap m_Indent m_IndentationLevel
         m_Text m_CurrentLineIndentLength Z.to_nat SV.replicate fst
         String.append].
    assert (Hw1 : SV.empty w1 = false) by (destruct w1; [congruence | reflexivity]).
    destruct indentOnWrap;
      cbn [m_CurrentLine set_CurrentLine set_CurrentLineIndentLength m_Text
           String.append];
      rewrite Hw1, ?string_app_empty_r;
      rewrite <- ?string_app_assoc;
      rewrite (TrimTrailingSpace_word _ w2 Hne2 Hns2);
      now rewrite ?string_app_assoc.
  - unfold Build.
    cbn [tb1 tb0 TextBuilder_new set_CurrentLine m_Text m_CurrentLine SV.empty
         fst].
    rewrite (TrimTrailingSpace_word _ w2 Hne2 Hns2).
    now rewrite !string_app_assoc.
Qed.

(** An instance: width 3 is reached by [ab] and its blank. *)
Lemma PutText_two_words_witness :
  exists tb,
    PutText (TextBuilder_new "  " true 3) "ab cdefgh" = Some tb
    /\ fst (Build tb) = "ab" ++ LF_s ++ "  cdefgh" ++ LF_s.
Proof.
  refine (PutText_two_words "  " true 3 "ab" "cdefgh" _ eq_refl _ eq_refl _).
  - discriminate.
  - discriminate.
  - vm_compute. reflexivity.
Defined.

(** ** Options, continued *)

Section OptionMore.

(** A failing [ParseValue] leaves the members of the option alone. *)
Lemma ParseValue_false_data (opt : IOption) (sh sh' : Shared) (val : string)
    (d : OptionData) :
  ParseValue opt sh val = (false, d, sh') -> d = IOption_data opt.
Proof.
  unfold ParseValue.
  destruct (IOption_data opt) as [v df|v h df|v h df|vi cs h di|vs a].
  - now intros [= <- _].
  - destruct (negb _); [now intros [= <- _] | discriminate].
  - discriminate.
  - destruct (find_choice cs val 0); [discriminate | now intros [= <- _]].
  - destruct (negb a && SV.empty val); [now intros [= <- _] | discriminate].
Qed.

(** A successful [ParseValue] leaves the shared slot alone. *)
Lemma ParseValue_true_shared (opt : IOption) (sh sh' : Shared) (val : string)
    (d : OptionData) :
  ParseValue opt sh val = (true, d, sh') -> sh' = sh.
Proof.
  unfold ParseValue.
  destruct (IOption_data opt) as [v df|v h df|v h df|vi cs h di|vs a].
  - discriminate.
  - destruct (negb _); [discriminate | now intros [= _ <-]].
  - now intros [= _ <-].
  - destruct (find_choice cs val 0); [now intros [= _ <-] | discriminate].
  - destruct (negb a && SV.empty val); [discriminate | now intros [= _ <-]].
Qed.

(** [ParseValue] does not change which class the option is, nor
    whether it has a default. *)
Lemma ParseValue_default (opt : IOption) (sh sh' : Shared) (val : string)
    (b : bool) (d : OptionData) :
  ParseValue opt sh val = (b, d, sh') ->
  HasDefaultValue (IOption_with opt true d) = HasDefaultValue opt.
Proof.
  unfold ParseValue, HasDefaultValue. cbn [IOption_with IOption_data].
  destruct (IOption_data opt) as [v df|v h df|v h df|vi cs h di|vs a].
  - now intros [= _ <- _].
  - destruct (negb _); now intros [= _ <- _].
  - now intros [= _ <- _].
  - destruct (find_choice cs val 0); now intros [= _ <- _].
  - destruct (negb a && SV.empty val); now intros [= _ <- _].
Qed.

(** The outcomes of [ParseArg]: no match, a failed value with an error
    set, or a success that leaves the slot alone. *)
Lemma ParseArg_cases (opt : IOption) (sh : Shared) (arg : string)
    (isShort : bool) :
  (ParseArg opt sh arg isShort = (false, IOption_data opt, sh))
  \/ (exists sh', ParseArg opt sh arg isShort = (false, IOption_data opt, sh')
                  /\ HasError sh' = true)
  \/ (exists d, ParseArg opt sh arg isShort = (true, d, sh)
                /\ HasDefaultValue (IOption_with opt true d)
                   = HasDefaultValue opt).
Proof.
  assert (HPV : forall val,
    (exists sh', ParseValue opt sh val = (false, IOption_data opt, sh')
                 /\ HasError sh' = true)
    \/ (exists d, ParseValue opt sh val = (true, d, sh)
                  /\ HasDefaultValue (IOption_with opt true d)
                     = HasDefaultValue opt)).
  { intros val. destruct (ParseValue opt sh val) as [[b d] sh'] eqn:E.
    destruct b.
    - right. exists d. rewrite (ParseValue_true_shared _ _ _ _ _ E).
      split; [reflexivity|]. eapply ParseValue_default. exact E.
    - left. exists sh'. rewrite (ParseValue_false_data _ _ _ _ _ E).
      split; [reflexivity|]. eapply ParseValue_false. exact E. }
  unfold ParseArg.
  destruct (IOption_data opt) as [v df|v h df|v h df|vi cs h di|vs a] eqn:D.
  1: { unfold FlagOption_ParseArg.
       destruct (ConsumeName opt arg isShort) as [arg1|].
       - destruct (negb (SV.empty arg1)); [now left|].
         right. right. eexists. split; [reflexivity|].
         unfold HasDefaultValue. cbn. now rewrite D.
       - destruct isShort; [now left|].
         destruct (SV.starts_with arg "no-"); [|now left].
         destruct (negb _); [now left|].
         right. right. eexists. split; [reflexivity|].
         unfold HasDefaultValue. cbn. now rewrite D. }
  all: rewrite <- D in HPV |- *; unfold IOption_ParseArg;
    destruct (ConsumeName opt arg isShort) as [arg1|]; [|now left];
    destruct (negb isShort && HasMetaVar opt);
    [destruct (negb (SV.starts_with_char arg1 "=")); [now left|]|];
    right; apply HPV.
Qed.

End OptionMore.

(** X7.  When an option's [Parse] returns [false], the option itself
    is exactly as before; the shared slot is either untouched (the
    option did not recognise the token) or holds an error.  So a
    [false] with no error afterwards means nothing at all was changed. *)
Theorem IOption_Parse_false_untouched (opt opt' : IOption) (sh sh' : Shared)
    (arg : string) (isShort : bool) :
  IOption_Parse opt sh arg isShort = (false, opt', sh') ->
  opt' = opt
  /\ (sh' = sh \/ HasError sh' = true)
  /\ (HasError sh' = false -> sh' = sh).
Proof.
  unfold IOption_Parse. intros H.
  destruct (ParseArg_cases opt sh arg isShort)
    as [E|[(sh1 & E & He)|(d & E & _)]]; rewrite E in H.
  - injection H as <- <-. rewrite IOption_with_same. auto.
  - injection H as <- <-. rewrite IOption_with_same.
    split; [reflexivity|]. split; [now right | congruence].
  - discriminate.
Qed.

(** An instance: the integer option [a] offered the fragment [b=4]. *)
Lemma IOption_Parse_false_untouched_witness :
  IOption_with (IntOption_new "a" "a" "A" "") false (IntOption (Some 0) false 0)
  = IntOption_new "a" "a" "A" "".
Proof.
  refine (proj1 (IOption_Parse_false_untouched
    (IntOption_new "a" "a" "A" "") _ default_shared _ "b=4" false eq_refl)).
Defined.

(** X8.  When an option's [Parse] returns [true], the shared slot is
    unchanged (success never sets or clears an error), the option is
    marked parsed and so has a value, and its name, short name,
    meta-variable, description and the presence of a default are as
    before. *)
Theorem IOption_Parse_true_effects (opt opt' : IOption) (sh sh' : Shared)
    (arg : string) (isShort : bool) :
  IOption_Parse opt sh arg isShort = (true, opt', sh') ->
  sh' = sh
  /\ WasParsed opt' = true
  /\ HasValue opt' = true
  /\ IOption_identity opt' = IOption_identity opt
  /\ HasDefaultValue opt' = HasDefaultValue opt.
Proof.
  unfold IOption_Parse. intros H.
  destruct (ParseArg_cases opt sh arg isShort)
    as [E|[(sh1 & E & He)|(d & E & Hd)]]; rewrite E in H; try discriminate.
  injection H as <- <-. repeat split. exact Hd.
Qed.

(** An instance: the integer option [a] given [a=3]. *)
Lemma IOption_Parse_true_effects_witness :
  WasParsed
    (IOption_with (IntOption_new "a" "a" "A" "") true (IntOption (Some 3) false 0))
  = true.
Proof.
  refine (proj1 (proj2 (IOption_Parse_true_effects
    (IntOption_new "a" "a" "A" "") _ default_shared _ "a=3" false eq_refl))).
Defined.

Section IntegerValues.

Lemma read_digits_bound (s : string) :
  forall acc,
    (snd (read_digits acc s) <= String.length s)%nat
    /\ (snd (read_digits acc s) = String.length s -> all_digits s = true).
Proof.
  induction s as [|c s IH]; intros acc; cbn [read_digits all_digits].
  - split; [cbn; lia | reflexivity].
  - destruct (is_digit c).
    + destruct (read_digits (10 * acc + digit_value c) s) as [v n] eqn:E.
      specialize (IH (10 * acc + digit_value c)). rewrite E in IH.
      cbn [snd String.length andb] in *. destruct IH as [IH1 IH2].
      split; [lia|]. intros H. apply IH2. lia.
    + cbn [snd String.length]. split; [lia | discriminate].
Qed.

(** [from_chars] stops before the end of every non-empty text that is
    not a numeral. *)
Lemma from_chars_not_numeral (val : string) :
  val <> "" -> is_numeral val = false ->
  fc_ptr (from_chars_int64 val) <> String.length val.
Proof.
  intros Hne Hnum. destruct val as [|c rest]; [congruence|].
  unfold from_chars_int64. cbn [is_numeral] in Hnum.
  destruct (Ascii.eqb c "-"%char).
  - destruct (read_digits 0 rest) as [v n] eqn:E.
    pose proof (read_digits_bound rest 0) as [Hb1 Hb2]. rewrite E in Hb1, Hb2.
    cbn [snd] in Hb1, Hb2.
    destruct n as [|n]; [cbn; lia|].
    assert (Hlen : S n <> String.length rest).
    { intros Heq. rewrite (Hb2 Heq), andb_true_r in Hnum.
      destruct rest; cbn in *; [lia | discriminate]. }
    match goal with |- context [if ?b then _ else _] => destruct b end;
      simpl; lia.
  - destruct (read_digits 0 (String c rest)) as [v n] eqn:E.
    pose proof (read_digits_bound (String c rest) 0) as [Hb1 Hb2].
    rewrite E in Hb1, Hb2. cbn [snd] in Hb1, Hb2.
    destruct n as [|n]; [cbn; lia|].
    assert (Hlen : S n <> String.length (String c rest)).
    { intros Heq. rewrite (Hb2 Heq) in Hnum. discriminate. }
    match goal with |- context [if ?b then _ else _] => destruct b end;
      simpl in *; lia.
Qed.

(** [from_chars] on a numeral in range: every character is read and
    the value is written. *)
Lemma from_chars_in_range (neg : bool) (ds : string) :
  ds <> "" -> all_digits ds = true ->
  INT64_MIN <= numeral_value neg ds <= INT64_MAX ->
  from_chars_int64 (numeral neg ds)
  = mk_from_chars_result (String.length (numeral neg ds)) errc_none
      (Some (numeral_value neg ds)).
Proof.
  intros Hne Hd Hrange. unfold from_chars_int64.
  assert (Hsplit :
    match numeral neg ds with
    | String c rest =>
        if Ascii.eqb c "-"%char then (true, rest) else (false, numeral neg ds)
    | EmptyString => (false, numeral neg ds)
    end = (neg, ds)).
  { destruct neg; cbn [numeral].
    - reflexivity.
    - destruct ds as [|c ds]; [congruence|].
      cbn [all_digits] in Hd. apply andb_prop in Hd as [Hc _].
      now rewrite (is_digit_not_minus c Hc). }
  rewrite Hsplit. rewrite (read_digits_all ds Hd 0).
  destruct ds as [|c ds]; [congruence|].
  cbn [String.length].
  replace (0 * 10 ^ Z.of_nat (S (String.length ds)) + decimal_value (String c ds))
    with (decimal_value (String c ds)) by lia.
  fold (numeral_value neg (String c ds)).
  assert ((INT64_MIN <=? numeral_value neg (String c ds))
          && (numeral_value neg (String c ds) <=? INT64_MAX) = true) as ->.
  { apply andb_true_intro. split; apply Z.leb_le; lia. }
  destruct neg; reflexivity.
Qed.

End IntegerValues.

(** X9.  An integer option that takes a value accepts every signed
    decimal numeral whose value fits in 64 bits and stores exactly that
    value: in the long form [name=D], and in the short form
    [shortD] when the option has a short name.  No error is set. *)
Theorem IntOption_in_range_value (opt : IOption) (sh : Shared)
    (neg : bool) (ds : string) (v : option Z) (h : bool) (d : Z) :
  IOption_data opt = IntOption v h d ->
  ds <> "" ->
  all_digits ds = true ->
  INT64_MIN <= numeral_value neg ds <= INT64_MAX ->
  let opt' := IOption_with opt true (IntOption (Some (numeral_value neg ds)) h d) in
  (HasMetaVar opt = true ->
   IOption_Parse opt sh (IOption_Name opt ++ "=" ++ numeral neg ds) false
   = (true, opt', sh))
  /\ (HasShortName opt = true ->
      IOption_Parse opt sh (IOption_ShortName opt ++ numeral neg ds) true
      = (true, opt', sh))
  /\ IntOption_GetValue opt' = Some (numeral_value neg ds).
Proof.
  intros Hdata Hne Hd Hrange opt'.
  pose proof (from_chars_in_range neg ds Hne Hd Hrange) as Hfc.
  assert (HPV : ParseValue opt sh (numeral neg ds)
                = (true, IntOption (Some (numeral_value neg ds)) h d, sh)).
  { unfold ParseValue. rewrite Hdata, Hfc. cbn [fc_ptr fc_value].
    now rewrite Nat.eqb_refl. }
  split; [|split].
  - intros Hmeta.
    unfold IOption_Parse, ParseArg, IOption_ParseArg, ConsumeName.
    rewrite Hdata, starts_with_app, remove_prefix_app, Hmeta.
    cbn [negb andb SV.starts_with_char String.append Ascii.eqb Bool.eqb
         SV.remove_prefix].
    now rewrite HPV.
  - intros Hshort.
    unfold IOption_Parse, ParseArg, IOption_ParseArg, ConsumeName.
    rewrite Hdata, Hshort, starts_with_app, remove_prefix_app.
    cbn [negb orb andb]. now rewrite HPV.
  - reflexivity.
Qed.

(** An instance: the smallest 64-bit value in the short form. *)
Lemma IntOption_in_range_value_witness :
  IOption_Parse (IntOption_new "a" "a" "A" "") default_shared
    "a-9223372036854775808" true
  = (true,
     IOption_with (IntOption_new "a" "a" "A" "") true
       (IntOption (Some (- 9223372036854775808)) false 0),
     default_shared).
Proof.
  refine (proj1 (proj2 (IntOption_in_range_value
    (IntOption_new "a" "a" "A" "") default_shared
    true "9223372036854775808" (Some 0) false 0 eq_refl _ eq_refl _)) eq_refl).
  - discriminate.
  - vm_compute. split; discriminate.
Defined.

(** X10.  An integer option rejects every non-empty value that is not
    an optional minus sign followed by one or more digits (a plus
    sign, blanks, trailing characters, a lone minus sign): [ParseValue]
    returns [false], the option keeps its members, and the error is
    [Expected integer for '<prefix><name>', got '<value>'.]. *)
Theorem IntOption_rejects_non_numeral (opt : IOption) (sh : Shared)
    (val : string) (v : option Z) (h : bool) (d : Z) :
  IOption_data opt = IntOption v h d ->
  val <> "" ->
  is_numeral val = false ->
  ParseValue opt sh val
  = (false, IOption_data opt,
     SetError sh ("Expected integer for '" ++ GetPrefix sh ++ IOption_Name opt
                  ++ "', got '" ++ val ++ "'.")).
Proof.
  intros Hdata Hne Hnum. unfold ParseValue. rewrite Hdata.
  pose proof (from_chars_not_numeral val Hne Hnum) as Hptr.
  apply Nat.eqb_neq in Hptr. now rewrite Hptr.
Qed.

(** An instance: digits followed by a letter. *)
Lemma IntOption_rejects_non_numeral_witness :
  ParseValue (IntOption_new "a" "a" "A" "") default_shared "12x"
  = (false, IntOption (Some 0) false 0,
     mkShared "--" "-" "Expected integer for '--a', got '12x'.").
Proof.
  refine (IntOption_rejects_non_numeral (IntOption_new "a" "a" "A" "")
            default_shared "12x" (Some 0) false 0 eq_refl _ eq_refl).
  discriminate.
Defined.

Section ChoiceValues.

Lemma find_choice_In (cs : list string) (v : string) :
  In v cs ->
  forall k, exists i,
    find_choice cs v k = Some (k + i)%nat /\ nth i cs "" = v.
Proof.
  induction cs as [|c cs IH]; intros Hin k; [destruct Hin|].
  cbn [find_choice]. destruct (String.eqb c v) eqn:E.
  - exists O. apply String.eqb_eq in E. now rewrite Nat.add_0_r.
  - destruct Hin as [->|Hin]; [now rewrite String.eqb_refl in E|].
    destruct (IH Hin (S k)) as (i & H1 & H2).
    exists (S i). rewrite H1. split; [f_equal; lia | exact H2].
Qed.

Lemma back_app_comma (s : string) : SV.back (s ++ ",") = Some ","%char.
Proof. apply back_app_char. Qed.

Lemma pop_back_app_char (s : string) (c : ascii) :
  SV.pop_back (s ++ String c "") = s.
Proof.
  induction s as [|x s IH]; [reflexivity|].
  cbn [String.append SV.pop_back]. rewrite IH.
  destruct (s ++ String c "") eqn:E; [|reflexivity].
  destruct s; discriminate E.
Qed.

Lemma fold_choices (cs : list string) :
  forall acc,
    fold_left (fun r choice => r ++ choice ++ ",") cs acc
    = acc ++ String.concat "" (map (fun c => c ++ ",") cs).
Proof.
  induction cs as [|c cs IH]; intros acc.
  - cbn. now rewrite string_app_empty_r.
  - cbn [fold_left map]. rewrite IH.
    destruct cs as [|c' cs].
    + cbn. now rewrite string_app_empty_r.
    + cbn [map String.concat String.append].
      now rewrite !string_app_assoc.
Qed.

Lemma concat_commas (cs : list string) :
  cs <> [] ->
  String.concat "" (map (fun c => c ++ ",") cs) = String.concat "," cs ++ ",".
Proof.
  induction cs as [|c cs IH]; intros Hne; [congruence|].
  destruct cs as [|c' cs]; [reflexivity|].
  cbn [map String.concat String.append] in *.
  rewrite IH by discriminate. now rewrite !string_app_assoc.
Qed.

End ChoiceValues.

(** X11.  A choice option that takes a value accepts every candidate:
    on the long form [name=v] with [v] among the candidates, [Parse]
    returns [true] with no error and [GetValue()] is then [v]. *)
Theorem ChoiceOption_accepts_candidate (opt : IOption) (sh : Shared)
    (v : string) (vi di : nat) (h : bool) (choices : list string) :
  IOption_data opt = ChoiceOption vi choices h di ->
  HasMetaVar opt = true ->
  In v choices ->
  exists opt',
    IOption_Parse opt sh (IOption_Name opt ++ "=" ++ v) false = (true, opt', sh)
    /\ ChoiceOption_GetValue opt' = v.
Proof.
  intros Hdata Hmeta Hin.
  destruct (find_choice_In choices v Hin 0) as (i & Hfind & Hnth).
  exists (IOption_with opt true (ChoiceOption i choices h di)). split.
  - unfold IOption_Parse, ParseArg, IOption_ParseArg, ConsumeName.
    rewrite Hdata, starts_with_app, remove_prefix_app, Hmeta.
    cbn [negb andb SV.starts_with_char String.append Ascii.eqb Bool.eqb
         SV.remove_prefix].
    unfold ParseValue. now rewrite Hdata, Hfind.
  - unfold ChoiceOption_GetValue.
    cbn [IOption_with IOption_data WasParsed IOption_WasParsed].
    destruct choices; [destruct Hin | exact Hnth].
Qed.

(** An instance: the calculator's operator option given [*]. *)
Lemma ChoiceOption_accepts_candidate_witness :
  exists opt',
    IOption_Parse
      (ChoiceOption_new_default "op" "op" "OPERATOR" "" ["+"; "-"; "*"; "/"] 0)
      default_shared "op=*" false = (true, opt', default_shared)
    /\ ChoiceOption_GetValue opt' = "*".
Proof.
  refine (ChoiceOption_accepts_candidate
    (ChoiceOption_new_default "op" "op" "OPERATOR" "" ["+"; "-"; "*"; "/"] 0)
    default_shared "*" 0%nat 0%nat true ["+"; "-"; "*"; "/"]
    eq_refl eq_refl _).
  simpl. tauto.
Defined.

(** X12.  [GetChoiceString] writes the candidates between braces,
    separated by commas, with no comma after the last one; without
    candidates it is [{}]. *)
Theorem GetChoiceString_joined (choices : list string) :
  GetChoiceString choices = "{" ++ String.concat "," choices ++ "}".
Proof.
  unfold GetChoiceString. rewrite fold_choices.
  destruct choices as [|c cs]; [reflexivity|].
  rewrite concat_commas by discriminate.
  rewrite <- string_app_assoc.
  unfold SV.ends_with_char. rewrite back_app_comma.
  change (Ascii.eqb "," ",") with true. cbv iota.
  change "," with (String "," "") at 2.
  rewrite pop_back_app_char. now rewrite string_app_assoc.
Qed.

Section FlagFacts.

Lemma starts_with_empty (s : string) : SV.starts_with s "" = true.
Proof. destruct s; reflexivity. Qed.

Lemma starts_with_length (s p : string) :
  SV.starts_with s p = true -> (String.length p <= String.length s)%nat.
Proof.
  revert s. induction p as [|c p IH]; intros s H; [cbn; lia|].
  destruct s as [|x s]; [discriminate|].
  cbn [SV.starts_with] in H. apply andb_prop in H as [_ H].
  specialize (IH s H). cbn. lia.
Qed.

Lemma starts_with_refl (s : string) : SV.starts_with s s = true.
Proof.
  pose proof (starts_with_app s "") as H. now rewrite string_app_empty_r in H.
Qed.

Lemma remove_prefix_all (s : string) :
  SV.remove_prefix (String.length s) s = "".
Proof.
  pose proof (remove_prefix_app s "") as H. now rewrite string_app_empty_r in H.
Qed.

Lemma empty_length (s : string) :
  SV.empty s = true <-> String.length s = O.
Proof. destruct s; cbn; split; intros; congruence. Qed.

End FlagFacts.

(** X13.  A flag never writes the shared error slot.  Its exact long
    name sets it to [true], and so does its exact short name in the
    short form; the long name followed by [=value] is not taken (the
    call returns [false] and changes nothing). *)
Theorem FlagOption_forms (opt : IOption) (sh : Shared) (v d : bool) :
  IOption_data opt = FlagOption v d ->
  (forall arg isShort, snd (IOption_Parse opt sh arg isShort) = sh)
  /\ IOption_Parse opt sh (IOption_Name opt) false
     = (true, IOption_with opt true (FlagOption true d), sh)
  /\ (HasShortName opt = true ->
      IOption_Parse opt sh (IOption_ShortName opt) true
      = (true, IOption_with opt true (FlagOption true d), sh))
  /\ (forall value,
        IOption_Parse opt sh (IOption_Name opt ++ "=" ++ value) false
        = (false, opt, sh)).
Proof.
  intros Hdata. split; [|split; [|split]].
  - intros arg isShort.
    unfold IOption_Parse, ParseArg, FlagOption_ParseArg. rewrite Hdata.
    destruct (ConsumeName opt arg isShort) as [arg1|].
    + destruct (negb (SV.empty arg1)); reflexivity.
    + destruct isShort; [reflexivity|].
      destruct (SV.starts_with arg "no-"); [|reflexivity].
      destruct (negb _); reflexivity.
  - unfold IOption_Parse, ParseArg, FlagOption_ParseArg, ConsumeName.
    rewrite Hdata.
    rewrite starts_with_refl, remove_prefix_all. reflexivity.
  - intros Hshort.
    unfold IOption_Parse, ParseArg, FlagOption_ParseArg, ConsumeName.
    rewrite Hdata, Hshort.
    rewrite starts_with_refl, remove_prefix_all. reflexivity.
  - intros value.
    unfold IOption_Parse, ParseArg, FlagOption_ParseArg, ConsumeName.
    rewrite Hdata, starts_with_app, remove_prefix_app.
    cbn [negb String.append SV.empty]. rewrite <- Hdata.
    now rewrite IOption_with_same.
Qed.

(** An instance: the flag [verbose] offered [verbose=1]. *)
Lemma FlagOption_forms_witness :
  IOption_Parse verbose_flag default_shared "verbose=1" false
  = (false, verbose_flag, default_shared).
Proof.
  refine (proj2 (proj2 (proj2 (FlagOption_forms verbose_flag default_shared
    false false eq_refl))) "1").
Defined.

(** X14.  The long form [no-<name>] sets a flag to [false] exactly
    when the flag's name is not itself a prefix of [no-<name>].  A
    flag whose name is such a prefix (the empty name, [n], [no],
    [no-]) takes the name test first, finds characters left over and
    returns [false], so it cannot be negated. *)
Theorem FlagOption_negation (opt : IOption) (sh : Shared) (v d : bool) :
  IOption_data opt = FlagOption v d ->
  (SV.starts_with ("no-" ++ IOption_Name opt) (IOption_Name opt) = false ->
   IOption_Parse opt sh ("no-" ++ IOption_Name opt) false
   = (true, IOption_with opt true (FlagOption false d), sh))
  /\ (SV.starts_with ("no-" ++ IOption_Name opt) (IOption_Name opt) = true ->
      IOption_Parse opt sh ("no-" ++ IOption_Name opt) false
      = (false, opt, sh)).
Proof.
  intros Hdata. split; intros Hpre.
  - unfold IOption_Parse, ParseArg, FlagOption_ParseArg, ConsumeName.
    rewrite Hdata, Hpre. cbn [negb].
    rewrite (starts_with_app "no-" (IOption_Name opt)).
    change 3%nat with (String.length "no-").
    rewrite remove_prefix_app, String.eqb_refl. reflexivity.
  - unfold IOption_Parse, ParseArg, FlagOption_ParseArg, ConsumeName.
    rewrite Hdata, Hpre. cbn [negb].
    assert (Hrest : SV.empty
                      (SV.remove_prefix (String.length (IOption_Name opt))
                         ("no-" ++ IOption_Name opt)) = false).
    { destruct (SV.empty _) eqn:E; [|reflexivity].
      apply empty_length in E. rewrite remove_prefix_length in E.
      rewrite string_length_app in E. cbn [String.length] in E. lia. }
    rewrite Hrest. cbn [negb]. rewrite <- Hdata.
    now rewrite IOption_with_same.
Qed.

(** An instance: [no-verbose] clears [verbose]; a flag named [no] is
    not cleared by [no-no]. *)
Lemma FlagOption_negation_witness :
  IOption_Parse verbose_flag default_shared "no-verbose" false
  = (true, IOption_with verbose_flag true (FlagOption false false),
     default_shared)
  /\ IOption_Parse (FlagOption_new "no" "" "" true) default_shared "no-no" false
     = (false, FlagOption_new "no" "" "" true, default_shared).
Proof.
  split.
  - refine (proj1 (FlagOption_negation verbose_flag default_shared
                     false false eq_refl) eq_refl).
  - refine (proj2 (FlagOption_negation (FlagOption_new "no" "" "" true)
                     default_shared true true eq_refl) eq_refl).
Defined.

(** X15.  A collection option given an empty value in the long form
    [name=]: if it was built to accept empty values it appends the
    empty string like any other value; otherwise [Parse] returns
    [false], nothing is appended and the error is
    [Empty values are not allowed for '<prefix><name>'.]. *)
Theorem CollectionOption_empty_value (opt : IOption) (sh : Shared)
    (values : list string) (acceptEmptyValues : bool) :
  IOption_data opt = CollectionOption values acceptEmptyValues ->
  HasMetaVar opt = true ->
  IOption_Parse opt sh (IOption_Name opt ++ "=") false
  = if acceptEmptyValues
    then (true,
          IOption_with opt true (CollectionOption (values ++ [""]) true), sh)
    else (false, opt,
          SetError sh ("Empty values are not allowed for '" ++ GetPrefix sh
                       ++ IOption_Name opt ++ "'.")).
Proof.
  intros Hdata Hmeta.
  unfold IOption_Parse, ParseArg, IOption_ParseArg, ConsumeName.
  rewrite Hdata, starts_with_app, remove_prefix_app, Hmeta.
  cbn [negb andb SV.starts_with_char String.append Ascii.eqb Bool.eqb
       SV.remove_prefix].
  unfold ParseValue. rewrite Hdata.
  destruct acceptEmptyValues; cbn [negb andb SV.empty]; [reflexivity|].
  rewrite <- Hdata. now rewrite IOption_with_same.
Qed.

(** An instance: a collection that refuses empty values. *)
Lemma CollectionOption_empty_value_witness :
  IOption_Parse (CollectionOption_new "inc" "I" "DIR" "" false) default_shared
    "inc=" false
  = (false, CollectionOption_new "inc" "I" "DIR" "" false,
     mkShared "--" "-" "Empty values are not allowed for '--inc'.").
Proof.
  refine (CollectionOption_empty_value
    (CollectionOption_new "inc" "I" "DIR" "" false) default_shared [] false
    eq_refl eq_refl).
Defined.

(** X16.  A string option stores its value verbatim, whatever the
    characters: in the long form [name=value] everything after the
    first [=] following the name, in the short form [shortvalue]
    everything after the short name; the value may be empty.  The long
    name alone, without [=], is not taken. *)
Theorem StrOption_verbatim (opt : IOption) (sh : Shared) (value : string)
    (v : string) (h : bool) (d : string) :
  IOption_data opt = StrOption v h d ->
  (HasMetaVar opt = true ->
   IOption_Parse opt sh (IOption_Name opt ++ "=" ++ value) false
   = (true, IOption_with opt true (StrOption value h d), sh)
   /\ IOption_Parse opt sh (IOption_Name opt) false = (false, opt, sh))
  /\ (HasShortName opt = true ->
      IOption_Parse opt sh (IOption_ShortName opt ++ value) true
      = (true, IOption_with opt true (StrOption value h d), sh))
  /\ StrOption_GetValue (IOption_with opt true (StrOption value h d)) = value.
Proof.
  intros Hdata. split; [|split; [|reflexivity]].
  - intros Hmeta. split.
    + unfold IOption_Parse, ParseArg, IOption_ParseArg, ConsumeName.
      rewrite Hdata, starts_with_app, remove_prefix_app, Hmeta.
      cbn [negb andb SV.starts_with_char String.append Ascii.eqb Bool.eqb
           SV.remove_prefix].
      unfold ParseValue. now rewrite Hdata.
    + unfold IOption_Parse, ParseArg, IOption_ParseArg, ConsumeName.
      rewrite Hdata, Hmeta.
      rewrite starts_with_refl, remove_prefix_all.
      cbn [negb andb SV.starts_with_char]. rewrite <- Hdata.
      now rewrite IOption_with_same.
  - intros Hshort.
    unfold IOption_Parse, ParseArg, IOption_ParseArg, ConsumeName.
    rewrite Hdata, Hshort, starts_with_app, remove_prefix_app.
    cbn [negb orb andb]. unfold ParseValue. now rewrite Hdata.
Qed.

(** An instance: a value that itself contains [=] and a blank. *)
Lemma StrOption_verbatim_witness :
  IOption_Parse (StrOption_new "out" "o" "FILE" "") default_shared
    "out=a=b c" false
  = (true,
     IOption_with (StrOption_new "out" "o" "FILE" "") true
       (StrOption "a=b c" false ""),
     default_shared).
Proof.
  refine (proj1 (proj1 (StrOption_verbatim (StrOption_new "out" "o" "FILE" "")
    default_shared "a=b c" "" false "" eq_refl) eq_refl)).
Defined.

(** ** The parser, continued *)

Section ParseOutcome.

(** Induction over a parser tree: a property holds of every node if it
    holds of a node whenever it holds of its subcommands. *)
Lemma IArgParser_tree_ind (P : IArgParser -> Prop) :
  (forall wasUsed name description options commands arguments,
      Forall P commands ->
      P (mkIArgParser wasUsed name description options commands arguments)) ->
  forall p, P p.
Proof.
  intros H. fix IH 1. intros [u n d os cs ar]. apply H.
  induction cs as [|c cs IHcs]; constructor; [apply IH | exact IHcs].
Qed.

Lemma scan_cons_Error (opt : IOption) (r : ScanResult) opts sh :
  scan_cons opt r = ScanError opts sh ->
  exists opts', r = ScanError opts' sh.
Proof. destruct r; cbn; intros [= <- <-] || discriminate; eauto. Qed.

(** The option scan reports an error only with an error set. *)
Lemma ScanOptions_Error (opts : list IOption) :
  forall sh arg isShortPrefix same opts' sh',
    ScanOptions opts sh arg isShortPrefix same = ScanError opts' sh' ->
    HasError sh' = true.
Proof.
  induction opts as [|opt opts IH]; intros sh arg sel same opts' sh' H;
    [discriminate|].
  cbn [ScanOptions] in H.
  destruct (IOption_Parse opt sh arg sel) as [[ok1 opt1] sh1].
  destruct ok1; [discriminate|].
  destruct (HasError sh1) eqn:E1; [now injection H as _ <-|].
  destruct same.
  - destruct (IOption_Parse opt1 sh1 arg (negb sel)) as [[ok2 opt2] sh2].
    destruct ok2; [discriminate|].
    destruct (HasError sh2) eqn:E2; [now injection H as _ <-|].
    apply scan_cons_Error in H as [opts'' H]. eapply IH. exact H.
  - apply scan_cons_Error in H as [opts'' H]. eapply IH. exact H.
Qed.

Lemma RoutePositional_Return (st st' : LoopState) (fullArg : string) (b : bool) :
  RoutePositional st fullArg = Return b st' ->
  b = false /\ HasError (ls_Shared st') = true.
Proof.
  unfold RoutePositional.
  destruct (nth_error (ls_Arguments st) (positionalIdx st)) as [a|].
  - unfold Arg_Parse, Arg_ParseArg. destruct (Arg_data a); discriminate.
  - intros [= <- <-]. split; reflexivity.
Qed.

Variable parseCommand :
  IArgParser -> Shared -> list string -> bool * IArgParser * Shared.

Lemma cmd_cons_inv (cmd : IArgParser) (r : CommandsResult) :
  (forall cmds sh, cmd_cons cmd r = CmdError cmds sh ->
                   exists cmds', r = CmdError cmds' sh)
  /\ (forall cmds sh, cmd_cons cmd r = CmdMatched cmds sh ->
                      exists cmds', r = CmdMatched cmds' sh).
Proof.
  destruct r; cbn; split; intros ? ? H; try discriminate;
    injection H as <- <-; eauto.
Qed.

Lemma TryCommands_Error (cmds : list IArgParser) :
  forall sh args cmds' sh',
    TryCommands parseCommand cmds sh args = CmdError cmds' sh' ->
    HasError sh' = true.
Proof.
  induction cmds as [|cmd cmds IH]; intros sh args cmds' sh' H; [discriminate|].
  cbn [TryCommands] in H.
  destruct (parseCommand cmd sh args) as [[ok cmd1] sh1].
  destruct ok; [discriminate|].
  destruct (HasError sh1) eqn:E; [now injection H as _ <-|].
  apply (proj1 (cmd_cons_inv _ _)) in H as [cmds'' H]. eapply IH. exact H.
Qed.

(** A match among the subcommands comes from one of them returning [true]. *)
Lemma TryCommands_Matched (cmds : list IArgParser) :
  forall sh args cmds' sh',
    TryCommands parseCommand cmds sh args = CmdMatched cmds' sh' ->
    exists cmd sh0 cmd',
      In cmd cmds /\ parseCommand cmd sh0 args = (true, cmd', sh').
Proof.
  induction cmds as [|cmd cmds IH]; intros sh args cmds' sh' H; [discriminate|].
  cbn [TryCommands] in H.
  destruct (parseCommand cmd sh args) as [[ok cmd1] sh1] eqn:E.
  destruct ok.
  - injection H as _ <-. exists cmd, sh, cmd1. split; [now left | exact E].
  - destruct (HasError sh1); [discriminate|].
    apply (proj2 (cmd_cons_inv _ _)) in H as [cmds'' H].
    destruct (IH _ _ _ _ H) as (c & sh0 & c' & Hin & Hc).
    exists c, sh0, c'. split; [now right | exact Hc].
Qed.

Variable m_Commands0 : list IArgParser.

(** An iteration of the token loop that returns [false] has set an
    error; one that returns [true] passes on a subcommand's [true]. *)
Lemma ParseToken_Return (st st' : LoopState) (fullArg : string)
    (args : list string) (b : bool) :
  ParseToken parseCommand m_Commands0 st fullArg args = Return b st' ->
  (b = false /\ HasError (ls_Shared st') = true)
  \/ (b = true
      /\ exists cmd sh0 cmd',
           In cmd m_Commands0
           /\ parseCommand cmd sh0 args = (true, cmd', ls_Shared st')).
Proof.
  unfold ParseToken.
  destruct (isParsingPositionals st).
  { intros H. left. eapply RoutePositional_Return. exact H. }
  destruct (String.eqb fullArg "--"); [discriminate|].
  destruct (StripPrefix (ls_Shared st) fullArg) as [[arg sel]|].
  - unfold ParseOptionToken.
    destruct (ScanOptions _ _ _ _ _) as [opts sh'|opts sh'|opts sh'] eqn:E.
    + discriminate.
    + intros [= <- <-]. left. split; [reflexivity|].
      eapply ScanOptions_Error. exact E.
    + intros [= <- <-]. left. split; reflexivity.
  - destruct (TryCommands parseCommand m_Commands0 (ls_Shared st) args)
      as [cmds sh'|cmds sh'|cmds sh'] eqn:E.
    + intros [= <- <-]. right. split; [reflexivity|].
      eapply TryCommands_Matched. exact E.
    + intros [= <- <-]. left. split; [reflexivity|].
      eapply TryCommands_Error. exact E.
    + intros H. left. eapply RoutePositional_Return. exact H.
Qed.

Lemma ParseLoop_Return (args : list string) :
  forall st st' b,
    ParseLoop parseCommand m_Commands0 st args = Return b st' ->
    (b = false /\ HasError (ls_Shared st') = true)
    \/ (b = true
        /\ exists cmd sh0 cmd' args',
             In cmd m_Commands0
             /\ parseCommand cmd sh0 args' = (true, cmd', ls_Shared st')).
Proof.
  induction args as [|fullArg rest IH]; intros st st' b H; [discriminate|].
  cbn [ParseLoop] in H.
  destruct (ParseToken parseCommand m_Commands0 st fullArg (fullArg :: rest))
    as [st1|b1 st1] eqn:E.
  - apply IH in H. exact H.
  - injection H as <- <-. apply ParseToken_Return in E.
    destruct E as [E|(Hb & c & sh0 & c' & Hin & Hc)]; [now left|].
    right. split; [exact Hb|]. exists c, sh0, c', (fullArg :: rest). auto.
Qed.

Lemma Validate_outcome (st : LoopState) (b : bool) (sh' : Shared) :
  Validate st = (b, sh') -> HasError sh' = negb b.
Proof.
  unfold Validate.
  destruct (MissingOption (ls_Options st)); [now intros [= <- <-]|].
  destruct (MissingArgument (ls_Arguments st)); [now intros [= <- <-]|].
  intros [= <- <-]. now rewrite negb_involutive.
Qed.

End ParseOutcome.

(** A [false] without an error is a name mismatch. *)
Lemma Parse_false_cases (p p' : IArgParser) (sh sh' : Shared)
    (args : list string) :
  Parse p sh args = (false, p', sh') ->
  HasError sh' = false ->
  p' = p /\ sh' = sh.
Proof.
  destruct p as [u n d os cs ar]. cbn [Parse].
  destruct args as [|top rest]; [now intros [= <- <-]|].
  destruct (negb (String.eqb top n)); [now intros [= <- <-]|].
  destruct (ParseLoop Parse cs _ rest) as [st|b st] eqn:E.
  - destruct (Validate st) as [b sh1] eqn:V. intros [= -> _ <-] Herr.
    apply Validate_outcome in V. cbn in V. congruence.
  - intros [= -> _ <-] Herr.
    apply ParseLoop_Return in E.
    destruct E as [[_ E]|[E _]]; congruence.
Qed.


(** X17.  When [Parse] returns [false] and no error is set afterwards,
    the node did not match its name: the node, its whole subtree and
    the shared slot are exactly as before.  Every other way of
    returning [false] leaves an error in the slot. *)
Theorem Parse_false_without_error (p p' : IArgParser) (sh sh' : Shared)
    (args : list string) :
  Parse p sh args = (false, p', sh') ->
  HasError sh' = false ->
  p' = p /\ sh' = sh.
Proof. apply Parse_false_cases. Qed.

(** An instance: the calculator offered a stack whose top is not its name. *)
Lemma Parse_false_without_error_witness :
  snd (fst (Parse (root math_parser) default_shared ["other"; "--a=3"]))
  = root math_parser.
Proof.
  refine (proj1 (Parse_false_without_error (root math_parser) _
    default_shared _ ["other"; "--a=3"] eq_refl eq_refl)).
Defined.

(** X18.  When [Parse] returns [true] no error is set and the node is
    marked used, at every depth of the tree; hence for a node not yet
    used, the value returned by [Parse] is the value of the node's
    [operator bool] afterwards. *)
Theorem Parse_true_no_error (p : IArgParser) :
  forall (sh : Shared) (args : list string),
    let r := Parse p sh args in
    (fst (fst r) = true ->
     HasError (snd r) = false /\ m_WasUsed (snd (fst r)) = true)
    /\ (m_WasUsed p = false ->
        IArgParser_bool (snd (fst r)) (snd r) = fst (fst r)).
Proof.
  induction p as [u n d os cs ar IHcs] using IArgParser_tree_ind.
  intros sh args r.
  assert (Htrue : fst (fst r) = true ->
                  HasError (snd r) = false /\ m_WasUsed (snd (fst r)) = true).
  { unfold r. cbn [Parse].
    destruct args as [|top rest]; [discriminate|].
    destruct (negb (String.eqb top n)); [discriminate|].
    destruct (ParseLoop Parse cs _ rest) as [st|b st] eqn:E.
    - destruct (Validate st) as [b sh1] eqn:V. cbn [fst snd m_WasUsed].
      intros ->. apply Validate_outcome in V. now split.
    - cbn [fst snd m_WasUsed]. intros ->. split; [|reflexivity].
      apply ParseLoop_Return in E.
      destruct E as [[E _]|(_ & c & sh0 & c' & args' & Hin & Hc)];
        [discriminate|].
      rewrite Forall_forall in IHcs.
      destruct (IHcs c Hin sh0 args') as [H _].
      rewrite Hc in H. now apply H. }
  split; [exact Htrue|]. intros Hfresh.
  destruct r as [[b p'] sh'] eqn:Er. cbn [fst snd] in *.
  unfold IArgParser_bool. destruct b.
  - destruct (Htrue eq_refl) as [-> ->]. reflexivity.
  - destruct (HasError sh') eqn:He; [reflexivity|].
    destruct (Parse_false_cases _ _ _ _ _ Er He) as [-> _].
    cbn [negb andb]. exact Hfresh.
Qed.

(** An instance: the calculator on [prog --a=3 --b=4]. *)
Lemma Parse_true_no_error_witness :
  IArgParser_bool
    (snd (fst (Parse (root math_parser) default_shared
                 ["prog"; "--a=3"; "--b=4"])))
    (snd (Parse (root math_parser) default_shared ["prog"; "--a=3"; "--b=4"]))
  = true.
Proof.
  refine (proj2 (Parse_true_no_error (root math_parser) default_shared
    ["prog"; "--a=3"; "--b=4"]) eq_refl).
Defined.

Section PositionalOnly.

Variable parseCommand :
  IArgParser -> Shared -> list string -> bool * IArgParser * Shared.
Variable m_Commands0 : list IArgParser.
Variables (options : list IOption) (commands : list IArgParser).
Variable sh : Shared.

(** In positional-only mode a variadic positional takes every token. *)
Lemma variadic_ParseLoop (metaVar description : string) (toks : list string) :
  forall (wasParsed : bool) (values : list string),
    ParseLoop parseCommand m_Commands0
      (mkLoopState options commands
         [variadic_argument wasParsed metaVar description values] sh true 0)
      toks
    = Continue
        (mkLoopState options commands
           [variadic_argument (match toks with [] => wasParsed | _ => true end)
              metaVar description (values ++ toks)]
           sh true 0).
Proof.
  induction toks as [|t toks IH]; intros wasParsed values.
  - cbn [ParseLoop]. now rewrite app_nil_r.
  - cbn [ParseLoop]. unfold ParseToken. cbn [isParsingPositionals].
    unfold RoutePositional, variadic_argument.
    cbn [ls_Arguments positionalIdx nth_error Arg_Parse Arg_ParseArg Arg_data
         negb IsVariadic list_set firstn skipn app ls_Options ls_Commands
         ls_Shared isParsingPositionals Arg_MetaVar Arg_Description].
    fold (variadic_argument true metaVar description (values ++ [t])).
    rewrite IH, <- List.app_assoc. cbn [app]. destruct toks; reflexivity.
Qed.

End PositionalOnly.

(** X19.  After the separator [--] every token is positional input,
    whatever it looks like (dashes, option syntax, subcommand names,
    another [--]): a node whose options all have a value and whose one
    positional is variadic, given its name, [--] and any tokens,
    succeeds without error, appends exactly these tokens in order to
    the variadic positional, and touches neither options nor
    subcommands. *)
Theorem separator_makes_all_positional (wasUsed wasParsed : bool)
    (name description metaVar argDescription : string)
    (options : list IOption) (commands : list IArgParser)
    (values toks : list string) (sh : Shared) :
  HasError sh = false ->
  MissingOption options = None ->
  Parse
    (mkIArgParser wasUsed name description options commands
       [variadic_argument wasParsed metaVar argDescription values])
    sh (name :: "--" :: toks)
  = (true,
     mkIArgParser true name description options commands
       [variadic_argument (match toks with [] => wasParsed | _ => true end)
          metaVar argDescription (values ++ toks)],
     sh).
Proof.
  intros Herr Hopts. cbn [Parse]. rewrite String.eqb_refl. cbn [negb].
  cbn [ParseLoop]. unfold ParseToken at 1.
  cbn [isParsingPositionals String.eqb Ascii.eqb Bool.eqb].
  unfold with_positionals.
  cbn [ls_Options ls_Commands ls_Arguments ls_Shared positionalIdx].
  rewrite variadic_ParseLoop.
  unfold Validate, MissingArgument, Arg_HasValue, Arg_HasDefaultValue,
    variadic_argument.
  cbn [ls_Options ls_Arguments ls_Shared find Arg_data Arg_WasParsed].
  rewrite Hopts, orb_true_r, Herr. reflexivity.
Qed.

(** An instance: option syntax, a second separator and a subcommand
    name after the separator, with the calculator's options given
    defaults. *)
Lemma separator_makes_all_positional_witness :
  Parse
    (mkIArgParser false "prog" "" [IntOption_new_default "a" "a" "A" "" 1]
       [sub_command] [variadic_argument false "REST" "" []])
    default_shared ["prog"; "--"; "--a=3"; "--"; "sub"]
  = (true,
     mkIArgParser true "prog" "" [IntOption_new_default "a" "a" "A" "" 1]
       [sub_command] [variadic_argument true "REST" "" ["--a=3"; "--"; "sub"]],
     default_shared).
Proof.
  refine (separator_makes_all_positional false false "prog" "" "REST" ""
    [IntOption_new_default "a" "a" "A" "" 1] [sub_command] []
    ["--a=3"; "--"; "sub"] default_shared eq_refl eq_refl).
Defined.

Section SubcommandDispatch.

(** Subcommands whose name differs from the token are passed over. *)
Lemma TryCommands_skip (pre : list IArgParser) (tok : string)
    (rest : list string) (sh : Shared) (post : list IArgParser) :
  Forall (fun c => m_Name c <> tok) pre ->
  HasError sh = false ->
  TryCommands Parse (pre ++ post) sh (tok :: rest)
  = fold_right cmd_cons (TryCommands Parse post sh (tok :: rest)) pre.
Proof.
  intros Hpre Herr. induction pre as [|c pre IH]; [reflexivity|].
  inversion Hpre as [|? ? Hc Hpre']; subst.
  cbn [app TryCommands fold_right].
  rewrite (Parse_name_mismatch c sh tok rest (not_eq_sym Hc)), Herr.
  now rewrite (IH Hpre').
Qed.

Lemma fold_cmd_cons_Matched (pre cmds : list IArgParser) (sh : Shared) :
  fold_right cmd_cons (CmdMatched cmds sh) pre = CmdMatched (pre ++ cmds) sh.
Proof. induction pre as [|c pre IH]; cbn; [|rewrite IH]; reflexivity. Qed.

End SubcommandDispatch.

(** X20.  When the first token after the node's name carries no option
    prefix, is not [--], and is taken by a subcommand (the first one,
    in declaration order, that bears that name, and whose own [Parse]
    returns [true]), the parent returns [true] at once, marked used,
    with the error slot and the subcommand as the subcommand's [Parse]
    left them.  Its own options and positionals are neither parsed nor
    validated: no option is marked parsed, each has a value afterwards
    exactly if it had one before, and the positionals are as they were;
    so [Parse] returns [true] even when a required option or positional
    of the parent is without a value.  Nothing is said of the flag
    values of the parent and of the other subcommands, which a
    [FlagGroupOption] of the subcommand may write. *)
Theorem subcommand_match_skips_parent_validation (wasUsed : bool)
    (name description : string) (options : list IOption)
    (pre post : list IArgParser) (arguments : list IPositionalArgument)
    (cmd cmd' : IArgParser) (sh sh' : Shared) (tok : string)
    (rest : list string) :
  HasError sh = false ->
  StripPrefix sh tok = None ->
  tok <> "--" ->
  Forall (fun c => m_Name c <> tok) pre ->
  Parse cmd sh (tok :: rest) = (true, cmd', sh') ->
  let r := Parse
             (mkIArgParser wasUsed name description options
                (pre ++ cmd :: post) arguments)
             sh (name :: tok :: rest) in
  fst (fst r) = true
  /\ snd r = sh'
  /\ m_WasUsed (snd (fst r)) = true
  /\ nth_error (m_Commands (snd (fst r))) (List.length pre) = Some cmd'
  /\ map WasParsed (m_Options (snd (fst r))) = map WasParsed options
  /\ map HasValue (m_Options (snd (fst r))) = map HasValue options
  /\ m_Arguments (snd (fst r)) = arguments.
Proof.
  intros Herr Hstrip Hsep Hpre Hcmd r.
  assert (Hr : r = (true,
                    mkIArgParser true name description options
                      (pre ++ cmd' :: post) arguments,
                    sh')).
  { subst r. cbn [Parse].
    rewrite String.eqb_refl. cbn [negb ParseLoop]. unfold ParseToken.
    cbn [isParsingPositionals ls_Shared].
    apply String.eqb_neq in Hsep. rewrite Hsep, Hstrip.
    rewrite (TryCommands_skip pre tok rest sh (cmd :: post) Hpre Herr).
    cbn [TryCommands]. rewrite Hcmd, fold_cmd_cons_Matched. reflexivity. }
  rewrite Hr. cbn [fst snd m_WasUsed m_Commands m_Options m_Arguments].
  repeat split. apply nth_error_middle.
Qed.

(** An instance: the calculator with the subcommand [sub] added; its
    required options [a] and [b] are not given. *)
Lemma subcommand_match_skips_parent_validation_witness :
  let p := AddCommand (root math_parser) sub_command in
  let r := Parse p default_shared ["prog"; "sub"; "hello"] in
  MissingOption (m_Options p) <> None
  /\ fst (fst r) = true
  /\ map HasValue (m_Options (snd (fst r))) = [false; false; true].
Proof.
  pose proof (subcommand_match_skips_parent_validation false "prog"
    "Math ain't mathing." (m_Options (root math_parser)) [] [] []
    sub_command _ default_shared _ "sub" ["hello"]
    eq_refl eq_refl ltac:(discriminate) (Forall_nil _) eq_refl) as H.
  split; [discriminate|]. split.
  - exact (proj1 H).
  - exact (proj1 (proj2 (proj2 (proj2 (proj2 (proj2 H)))))).
Defined.

Section RequiredPositionals.

Variable parseCommand :
  IArgParser -> Shared -> list string -> bool * IArgParser * Shared.
Variable m_Commands0 : list IArgParser.
Variables (options : list IOption) (commands : list IArgParser).
Variable sh : Shared.

(** In positional-only mode required positionals take one token each,
    in order; the first token beyond them is an error. *)
Lemma required_ParseLoop (toks : list string) :
  forall (done : list IPositionalArgument) (decls : list (string * string)),
    ParseLoop parseCommand m_Commands0
      (mkLoopState options commands (done ++ required_arguments decls)
         sh true (List.length done))
      toks
    = if (List.length toks <=? List.length decls)%nat
      then
        Continue
          (mkLoopState options commands (done ++ fill_arguments decls toks)
             sh true (List.length done + List.length toks))
      else
        Return false
          (mkLoopState options commands (done ++ fill_arguments decls toks)
             (SetError sh
                ("Unexpected positional argument '"
                   ++ nth (List.length decls) toks "" ++ "'."))
             true (List.length done + List.length decls)).
Proof.
  induction toks as [|t toks IH]; intros done decls.
  - cbn [ParseLoop List.length Nat.leb]. rewrite Nat.add_0_r.
    destruct decls; reflexivity.
  - cbn [ParseLoop]. unfold ParseToken. cbn [isParsingPositionals].
    unfold RoutePositional. cbn [ls_Arguments positionalIdx].
    destruct decls as [|md decls].
    + cbn [required_arguments map]. rewrite app_nil_r.
      rewrite (proj2 (nth_error_None done (List.length done)) (le_n _)).
      cbn [List.length Nat.leb nth fill_arguments required_arguments map
           ls_Options ls_Commands ls_Arguments ls_Shared isParsingPositionals].
      now rewrite app_nil_r, Nat.add_0_r.
    + cbn [required_arguments map].
      change (map (fun md0 => StrArgument_new (fst md0) (snd md0)) decls)
        with (required_arguments decls).
      rewrite nth_error_middle.
      unfold Arg_Parse, Arg_ParseArg, StrArgument_new.
      cbn [Arg_data Arg_MetaVar Arg_Description negb IsVariadic
           ls_Options ls_Commands ls_Arguments ls_Shared isParsingPositionals
           positionalIdx].
      rewrite list_set_middle.
      fold (filled_argument md t).
      specialize (IH (done ++ [filled_argument md t])%list decls).
      rewrite List.length_app, <- List.app_assoc in IH. cbn [List.length app] in IH.
      rewrite Nat.add_1_r in IH. rewrite IH.
      cbn [List.length Nat.leb fill_arguments nth].
      rewrite <- !List.app_assoc. cbn [app].
      rewrite !Nat.add_succ_r. reflexivity.
Qed.

End RequiredPositionals.

Section RequiredValidation.

(** The first positional without a value is the one after the last
    token. *)
Lemma MissingArgument_fill (decls : list (string * string)) :
  forall toks,
    MissingArgument (fill_arguments decls toks)
    = if (List.length toks <? List.length decls)%nat
      then Some (StrArgument_new
                   (fst (nth (List.length toks) decls ("", "")))
                   (snd (nth (List.length toks) decls ("", ""))))
      else None.
Proof.
  unfold MissingArgument.
  induction decls as [|md decls IH]; intros toks.
  - destruct toks; reflexivity.
  - destruct toks as [|t toks]; [reflexivity|].
    cbn [fill_arguments find]. rewrite IH. reflexivity.
Qed.

End RequiredValidation.

(** X21.  A node whose options all have a value and whose positionals
    are [n] required single-value ones, given its name, the separator
    [--] and [k] tokens: with [k = n] it succeeds and the positionals
    hold the tokens in order; with [k < n] it fails with
    [Missing argument '<metaVar>'.] for the first positional left
    without a token; with [k > n] it fails with
    [Unexpected positional argument '<token>'.] for the first token
    beyond the positionals.  In each case the first [min k n]
    positionals hold their tokens. *)
Theorem required_positionals_count (wasUsed : bool) (name description : string)
    (options : list IOption) (commands : list IArgParser)
    (decls : list (string * string)) (toks : list string) (sh : Shared) :
  HasError sh = false ->
  MissingOption options = None ->
  let node (used : bool) (arguments : list IPositionalArgument) :=
    mkIArgParser used name description options commands arguments in
  let r := Parse (node wasUsed (required_arguments decls)) sh
             (name :: "--" :: toks) in
  (List.length toks = List.length decls ->
   r = (true, node true (fill_arguments decls toks), sh))
  /\ ((List.length toks < List.length decls)%nat ->
      r = (false, node true (fill_arguments decls toks),
           SetError sh ("Missing argument '"
                        ++ fst (nth (List.length toks) decls ("", "")) ++ "'.")))
  /\ ((List.length decls < List.length toks)%nat ->
      r = (false, node true (fill_arguments decls toks),
           SetError sh ("Unexpected positional argument '"
                        ++ nth (List.length decls) toks "" ++ "'."))).
Proof.
  intros Herr Hopts node r.
  assert (Hr : r =
    match
      (if (List.length toks <=? List.length decls)%nat
       then Continue (mkLoopState options commands (fill_arguments decls toks)
                        sh true (List.length toks))
       else Return false
              (mkLoopState options commands (fill_arguments decls toks)
                 (SetError sh ("Unexpected positional argument '"
                               ++ nth (List.length decls) toks "" ++ "'."))
                 true (List.length decls)))
    with
    | Return b st =>
        (b, node true (ls_Arguments st), ls_Shared st)
    | Continue st =>
        let '(b, sh') := Validate st in (b, node true (ls_Arguments st), sh')
    end).
  { unfold r, node. cbn [Parse]. rewrite String.eqb_refl. cbn [negb].
    cbn [ParseLoop]. unfold ParseToken at 1.
    cbn [isParsingPositionals String.eqb Ascii.eqb Bool.eqb].
    unfold with_positionals.
    cbn [ls_Options ls_Commands ls_Arguments ls_Shared positionalIdx].
    pose proof (required_ParseLoop Parse commands options commands sh toks []
                  decls) as HL.
    cbn [app List.length Nat.add] in HL. rewrite HL.
    destruct (List.length toks <=? List.length decls)%nat; reflexivity. }
  assert (HV : Validate (mkLoopState options commands (fill_arguments decls toks)
                           sh true (List.length toks))
               = if (List.length toks <? List.length decls)%nat
                 then (false,
                       SetError sh ("Missing argument '"
                                    ++ fst (nth (List.length toks) decls ("", ""))
                                    ++ "'."))
                 else (true, sh)).
  { unfold Validate. cbn [ls_Options ls_Arguments ls_Shared].
    rewrite Hopts, MissingArgument_fill.
    destruct (List.length toks <? List.length decls)%nat; [reflexivity|].
    now rewrite Herr. }
  rewrite Hr. split; [|split]; intros Hlen.
  - rewrite (proj2 (Nat.leb_le _ _)) by lia. rewrite HV.
    rewrite (proj2 (Nat.ltb_ge _ _)) by lia. reflexivity.
  - rewrite (proj2 (Nat.leb_le _ _)) by lia. rewrite HV.
    rewrite (proj2 (Nat.ltb_lt _ _)) by lia. reflexivity.
  - rewrite (proj2 (Nat.leb_gt _ _)) by lia. reflexivity.
Qed.

(** An instance: two positionals and one, two and three tokens. *)
Lemma required_positionals_count_witness :
  let p := mkIArgParser false "cp" "" [] []
             (required_arguments [("SRC", ""); ("DST", "")]) in
  GetError (snd (Parse p default_shared ["cp"; "--"; "a"]))
  = "Missing argument 'DST'."
  /\ fst (fst (Parse p default_shared ["cp"; "--"; "a"; "-b"])) = true
  /\ GetError (snd (Parse p default_shared ["cp"; "--"; "a"; "-b"; "c"]))
     = "Unexpected positional argument 'c'.".
Proof.
  split; [|split].
  - exact (f_equal (fun r => GetError (snd r))
             (proj1 (proj2 (required_positionals_count false "cp" "" [] []
                [("SRC", ""); ("DST", "")] ["a"] default_shared
                eq_refl eq_refl)) ltac:(cbn; lia))).
  - exact (f_equal (fun r => fst (fst r))
             (proj1 (required_positionals_count false "cp" "" [] []
                [("SRC", ""); ("DST", "")] ["a"; "-b"] default_shared
                eq_refl eq_refl) eq_refl)).
  - exact (f_equal (fun r => GetError (snd r))
             (proj2 (proj2 (required_positionals_count false "cp" "" [] []
                [("SRC", ""); ("DST", "")] ["a"; "-b"; "c"] default_shared
                eq_refl eq_refl)) ltac:(cbn; lia))).
Defined.

Section Declarations.

Lemma same_prefixes_refl (sh : Shared) : same_prefixes sh sh.
Proof. split; reflexivity. Qed.

Lemma same_prefixes_trans (a b c : Shared) :
  same_prefixes a b -> same_prefixes b c -> same_prefixes a c.
Proof. intros [H1 H2] [H3 H4]. split; congruence. Qed.

Lemma same_prefixes_SetError (sh : Shared) (msg : string) :
  same_prefixes sh (SetError sh msg).
Proof. split; reflexivity. Qed.

Lemma ParseValue_erase (opt : IOption) (sh : Shared) (val : string) :
  erase_data (snd (fst (ParseValue opt sh val))) = erase_data (IOption_data opt)
  /\ same_prefixes sh (snd (ParseValue opt sh val)).
Proof.
  unfold ParseValue.
  destruct (IOption_data opt) as [v df|v h df|v h df|vi cs h di|vs a];
    repeat match goal with
           | |- context [if ?b then _ else _] => destruct b
           | |- context [match ?x with Some _ => _ | None => _ end] => destruct x
           end;
    cbn [fst snd]; split;
    first [reflexivity | apply same_prefixes_SetError
           | apply same_prefixes_refl].
Qed.

Lemma ParseArg_erase (opt : IOption) (sh : Shared) (arg : string)
    (isShort : bool) :
  erase_data (snd (fst (ParseArg opt sh arg isShort)))
  = erase_data (IOption_data opt)
  /\ same_prefixes sh (snd (ParseArg opt sh arg isShort)).
Proof.
  unfold ParseArg.
  destruct (IOption_data opt) as [v df|v h df|v h df|vi cs h di|vs a] eqn:D.
  1: { unfold FlagOption_ParseArg.
       destruct (ConsumeName opt arg isShort) as [arg1|];
         repeat match goal with
                | |- context [if ?b then _ else _] => destruct b
                end;
         cbn [fst snd]; split; first [reflexivity | apply same_prefixes_refl]. }
  all: rewrite <- D; unfold IOption_ParseArg;
    destruct (ConsumeName opt arg isShort) as [arg1|];
    [|cbn [fst snd]; split; [reflexivity | apply same_prefixes_refl]];
    destruct (negb isShort && HasMetaVar opt);
    [destruct (negb (SV.starts_with_char arg1 "="));
     [cbn [fst snd]; split; [reflexivity | apply same_prefixes_refl]|]|];
    apply ParseValue_erase.
Qed.

Lemma IOption_Parse_erase (opt : IOption) (sh : Shared) (arg : string)
    (isShort : bool) :
  erase_option (snd (fst (IOption_Parse opt sh arg isShort))) = erase_option opt
  /\ same_prefixes sh (snd (IOption_Parse opt sh arg isShort)).
Proof.
  unfold IOption_Parse.
  destruct (ParseArg_erase opt sh arg isShort) as [H1 H2].
  destruct (ParseArg opt sh arg isShort) as [[ok d] sh1]. cbn [fst snd] in *.
  destruct ok; cbn [fst snd]; (split; [|exact H2]);
    unfold erase_option; cbn [IOption_with IOption_Name IOption_ShortName
      IOption_MetaVar IOption_Description IOption_data]; now rewrite H1.
Qed.

Lemma scan_cons_options (opt : IOption) (r : ScanResult) :
  scan_options (scan_cons opt r) = opt :: scan_options r
  /\ scan_shared (scan_cons opt r) = scan_shared r.
Proof. destruct r; split; reflexivity. Qed.

Lemma ScanOptions_erase (opts : list IOption) :
  forall sh arg isShortPrefix same,
    let r := ScanOptions opts sh arg isShortPrefix same in
    map erase_option (scan_options r) = map erase_option opts
    /\ same_prefixes sh (scan_shared r).
Proof.
  induction opts as [|opt opts IH]; intros sh arg sel same.
  - split; [reflexivity | apply same_prefixes_refl].
  - cbn [ScanOptions].
    destruct (IOption_Parse_erase opt sh arg sel) as [E1 P1].
    destruct (IOption_Parse opt sh arg sel) as [[ok1 opt1] sh1].
    cbn [fst snd] in E1, P1.
    destruct ok1; [cbn; now rewrite E1|].
    destruct (HasError sh1); [cbn; now rewrite E1|].
    destruct same.
    + destruct (IOption_Parse_erase opt1 sh1 arg (negb sel)) as [E2 P2].
      destruct (IOption_Parse opt1 sh1 arg (negb sel)) as [[ok2 opt2] sh2].
      cbn [fst snd] in E2, P2.
      assert (P12 : same_prefixes sh sh2)
        by (eapply same_prefixes_trans; eassumption).
      destruct ok2; [cbn; split; [congruence | exact P12]|].
      destruct (HasError sh2); [cbn; split; [congruence | exact P12]|].
      destruct (IH sh2 arg sel true) as [E3 P3].
      destruct (scan_cons_options opt2
                  (ScanOptions opts sh2 arg sel true)) as [-> ->].
      cbn [map]. split; [congruence|].
      eapply same_prefixes_trans; eassumption.
    + destruct (IH sh1 arg sel false) as [E3 P3].
      destruct (scan_cons_options opt1
                  (ScanOptions opts sh1 arg sel false)) as [-> ->].
      cbn [map]. split; [congruence|].
      eapply same_prefixes_trans; eassumption.
Qed.

Lemma map_list_set {A B} (f : A -> B) (l : list A) (i : nat) (x y : A) :
  nth_error l i = Some y -> f x = f y ->
  map f (list_set l i x) = map f l.
Proof.
  unfold list_set. revert i. induction l as [|a l IH]; intros i Hn Hf.
  - destruct i; discriminate.
  - destruct i as [|i].
    + injection Hn as ->. cbn. now rewrite Hf.
    + cbn [nth_error] in Hn. specialize (IH i Hn Hf).
      cbn [firstn skipn app map] in *. now rewrite IH.
Qed.

Lemma RoutePositional_erase (st : LoopState) (fullArg : string) :
  erase_state (flow_state (RoutePositional st fullArg)) = erase_state st.
Proof.
  unfold RoutePositional.
  destruct (nth_error (ls_Arguments st) (positionalIdx st)) as [a|] eqn:E;
    [|reflexivity].
  assert (Ha : erase_argument (snd (Arg_Parse a fullArg)) = erase_argument a).
  { unfold Arg_Parse, Arg_ParseArg, erase_argument.
    destruct (Arg_data a); reflexivity. }
  destruct (Arg_Parse a fullArg) as [ok a']. cbn [snd] in Ha.
  destruct ok; cbn [negb flow_state]; unfold erase_state;
    cbn [ls_Options ls_Commands ls_Arguments ls_Shared];
    now rewrite (map_list_set erase_argument _ _ _ _ E Ha).
Qed.

Variable parseCommand :
  IArgParser -> Shared -> list string -> bool * IArgParser * Shared.

Lemma cmd_cons_commands (cmd : IArgParser) (r : CommandsResult) :
  commands_of (cmd_cons cmd r) = cmd :: commands_of r
  /\ shared_of (cmd_cons cmd r) = shared_of r.
Proof. destruct r; split; reflexivity. Qed.

Lemma TryCommands_erase (cmds : list IArgParser) :
  Forall (call_keeps_declaration parseCommand) cmds ->
  forall sh args,
    let r := TryCommands parseCommand cmds sh args in
    map erase (commands_of r) = map erase cmds
    /\ same_prefixes sh (shared_of r).
Proof.
  induction 1 as [|cmd cmds Hc Hcs IH]; intros sh args.
  - split; [reflexivity | apply same_prefixes_refl].
  - cbn [TryCommands]. destruct (Hc sh args) as [E1 P1].
    destruct (parseCommand cmd sh args) as [[ok cmd1] sh1].
    cbn [fst snd] in E1, P1.
    destruct ok; [cbn; now rewrite E1|].
    destruct (HasError sh1); [cbn; now rewrite E1|].
    destruct (IH sh1 args) as [E2 P2].
    destruct (cmd_cons_commands cmd1 (TryCommands parseCommand cmds sh1 args))
      as [-> ->].
    cbn [map]. split; [congruence|].
    eapply same_prefixes_trans; eassumption.
Qed.

Variable m_Commands0 : list IArgParser.
Hypothesis calls_keep :
  Forall (call_keeps_declaration parseCommand) m_Commands0.

Lemma erase_state_eq (st st' : LoopState) :
  map erase_option (ls_Options st') = map erase_option (ls_Options st) ->
  map erase (ls_Commands st') = map erase (ls_Commands st) ->
  map erase_argument (ls_Arguments st') = map erase_argument (ls_Arguments st) ->
  same_prefixes (ls_Shared st) (ls_Shared st') ->
  erase_state st' = erase_state st.
Proof. intros H1 H2 H3 [H4 H5]. unfold erase_state. congruence. Qed.

Lemma ParseToken_erase (st : LoopState) (fullArg : string) (args : list string) :
  map erase (ls_Commands st) = map erase m_Commands0 ->
  erase_state (flow_state (ParseToken parseCommand m_Commands0 st fullArg args))
  = erase_state st.
Proof.
  intros Hcmds. unfold ParseToken.
  destruct (isParsingPositionals st); [apply RoutePositional_erase|].
  destruct (String.eqb fullArg "--"); [reflexivity|].
  destruct (StripPrefix (ls_Shared st) fullArg) as [[arg sel]|].
  - unfold ParseOptionToken.
    destruct (ScanOptions_erase (ls_Options st) (ls_Shared st) arg sel
                (String.eqb (GetShortPrefix (ls_Shared st))
                   (GetPrefix (ls_Shared st)))) as [E P].
    destruct (ScanOptions _ _ _ _ _) as [opts sh'|opts sh'|opts sh'];
      cbn [scan_options scan_shared flow_state] in *;
      apply erase_state_eq; cbn [with_options ls_Options ls_Commands
        ls_Arguments ls_Shared]; auto.
  - destruct (TryCommands_erase m_Commands0 calls_keep (ls_Shared st) args)
      as [E P].
    destruct (TryCommands parseCommand m_Commands0 (ls_Shared st) args)
      as [cmds sh'|cmds sh'|cmds sh']; cbn [commands_of shared_of] in *.
    + cbn [flow_state]. apply erase_state_eq;
        cbn [with_commands ls_Options ls_Commands ls_Arguments ls_Shared];
        auto; congruence.
    + cbn [flow_state]. apply erase_state_eq;
        cbn [with_commands ls_Options ls_Commands ls_Arguments ls_Shared];
        auto; congruence.
    + rewrite RoutePositional_erase. apply erase_state_eq;
        cbn [with_positionals with_commands ls_Options ls_Commands
             ls_Arguments ls_Shared]; auto; congruence.
Qed.

Lemma ParseLoop_erase (args : list string) :
  forall st,
    map erase (ls_Commands st) = map erase m_Commands0 ->
    erase_state (flow_state (ParseLoop parseCommand m_Commands0 st args))
    = erase_state st.
Proof.
  induction args as [|fullArg rest IH]; intros st Hcmds; [reflexivity|].
  cbn [ParseLoop].
  pose proof (ParseToken_erase st fullArg (fullArg :: rest) Hcmds) as E.
  destruct (ParseToken parseCommand m_Commands0 st fullArg (fullArg :: rest))
    as [st1|b st1]; cbn [flow_state] in *.
  - rewrite IH; [exact E|].
    unfold erase_state in E. injection E as _ E _ _ _. congruence.
  - exact E.
Qed.

End Declarations.

Section DeclarationsKept.

Lemma Validate_prefixes (st : LoopState) :
  same_prefixes (ls_Shared st) (snd (Validate st)).
Proof.
  unfold Validate.
  destruct (MissingOption (ls_Options st)); [apply same_prefixes_SetError|].
  destruct (MissingArgument (ls_Arguments st));
    [apply same_prefixes_SetError | apply same_prefixes_refl].
Qed.

Lemma Parse_erase (p : IArgParser) :
  forall sh args,
    erase (snd (fst (Parse p sh args))) = erase p
    /\ same_prefixes sh (snd (Parse p sh args)).
Proof.
  induction p as [u n d os cs ar IHcs] using IArgParser_tree_ind.
  intros sh args. cbn [Parse].
  destruct args as [|top rest]; [split; [reflexivity | apply same_prefixes_refl]|].
  destruct (negb (String.eqb top n));
    [split; [reflexivity | apply same_prefixes_refl]|].
  pose proof (ParseLoop_erase Parse cs IHcs rest
                (mkLoopState os cs ar sh false 0) eq_refl) as E.
  destruct (ParseLoop Parse cs _ rest) as [st|b st]; cbn [flow_state] in E;
    unfold erase_state in E;
    cbn [ls_Options ls_Commands ls_Arguments ls_Shared] in E;
    injection E as E1 E2 E3 E4 E5.
  - pose proof (Validate_prefixes st) as [V1 V2].
    destruct (Validate st) as [b sh1]. cbn [fst snd erase] in *.
    split; [congruence | split; congruence].
  - cbn [fst snd erase]. split; [congruence | split; assumption].
Qed.

End DeclarationsKept.

(** X22.  [Parse] writes nothing but parse state: whatever the tokens
    and the outcome, the node's tree afterwards, with the used and
    parsed flags and the stored values set aside, is the tree as it was
    (same names, descriptions, options with their defaults and
    candidates, positionals and subcommands, in the same order), and
    the two prefixes are unchanged. *)
Theorem Parse_keeps_declarations (p : IArgParser) (sh : Shared)
    (args : list string) :
  erase (snd (fst (Parse p sh args))) = erase p
  /\ GetPrefix (snd (Parse p sh args)) = GetPrefix sh
  /\ GetShortPrefix (snd (Parse p sh args)) = GetShortPrefix sh.
Proof.
  destruct (Parse_erase p sh args) as [H1 [H2 H3]]. auto.
Qed.

(** ** Hints, help pages and HelpCommand *)

Section IndentBalance.

Lemma track_depth_app (a b : list TextCall) :
  forall k n,
    track_depth k n (a ++ b)
    = match track_depth k n a with
      | Some k' => track_depth k' n b
      | None => None
      end.
Proof.
  induction a as [|c a IH]; intros k n; [reflexivity|].
  destruct c; cbn [app track_depth]; try apply IH.
  - destruct (S k <=? n)%nat; [apply IH | reflexivity].
  - destruct k; [reflexivity | apply IH].
Qed.

Lemma track_depth_flat (cs : list TextCall) (k n : nat) :
  forallb keeps_depth cs = true -> track_depth k n cs = Some k.
Proof.
  induction cs as [|c cs IH]; [reflexivity|].
  cbn [forallb]. intros H. apply andb_prop in H as [Hc Hcs].
  destruct c; try discriminate; cbn [track_depth]; now apply IH.
Qed.

Lemma track_depth_shift (cs : list TextCall) :
  forall j n j' k m,
    track_depth j n cs = Some j' ->
    (k + n <= m)%nat ->
    track_depth (k + j) m cs = Some (k + j')%nat.
Proof.
  induction cs as [|c cs IH]; intros j n j' k m H Hle.
  - now injection H as <-.
  - destruct c; cbn [track_depth] in *; try (eapply IH; eassumption).
    + destruct (S j <=? n)%nat eqn:E; [|discriminate].
      apply Nat.leb_le in E.
      rewrite (proj2 (Nat.leb_le (S (k + j)) m)) by lia.
      rewrite <- Nat.add_succ_r. eapply IH; eassumption.
    + destruct j as [|j]; [discriminate|].
      rewrite Nat.add_succ_r. eapply IH; eassumption.
Qed.

Lemma track_depth_mono (cs : list TextCall) (n m : nat) :
  track_depth 0 n cs = Some O -> (n <= m)%nat -> track_depth 0 m cs = Some O.
Proof.
  intros H Hle. exact (track_depth_shift cs 0 n 0 0 m H Hle).
Qed.

(** A balanced run between [Indent] and [DeIndent], then a call that
    keeps the depth. *)
Lemma track_depth_block (inner : list TextCall) (c : TextCall) (n m : nat) :
  track_depth 0 n inner = Some O ->
  keeps_depth c = true ->
  (S n <= m)%nat ->
  track_depth 0 m ([CIndent] ++ inner ++ [CDeIndent; c]) = Some O.
Proof.
  intros H Hc Hle. cbn [app track_depth].
  rewrite (proj2 (Nat.leb_le 1 m)) by lia.
  rewrite track_depth_app.
  pose proof (track_depth_shift inner 0 n 0 1 m H ltac:(lia)) as H1.
  cbn [Nat.add] in H1. rewrite H1.
  cbn [track_depth]. destruct c; try discriminate; reflexivity.
Qed.

Lemma track_depth_flat_map {A} (f : A -> list TextCall) (l : list A) (n : nat) :
  Forall (fun x => track_depth 0 n (f x) = Some O) l ->
  track_depth 0 n (flat_map f l) = Some O.
Proof.
  induction 1 as [|x l Hx Hl IH]; [reflexivity|].
  cbn [flat_map]. now rewrite track_depth_app, Hx.
Qed.

Lemma track_depth_seq (a b : list TextCall) (n : nat) :
  track_depth 0 n a = Some O -> track_depth 0 n b = Some O ->
  track_depth 0 n (a ++ b) = Some O.
Proof. intros Ha Hb. now rewrite track_depth_app, Ha. Qed.

(** The depth a run of calls leaves the builder at. *)
Lemma run_calls_depth (cs : list TextCall) :
  forall (k k' n : nat) (L : Z) (tb tb' : TextBuilder),
    track_depth k n cs = Some k' ->
    0 <= L ->
    L + Z.of_nat n < 2 ^ 64 ->
    m_IndentationLevel tb = L + Z.of_nat k ->
    run_calls tb cs = Some tb' ->
    m_IndentationLevel tb' = L + Z.of_nat k'.
Proof.
  induction cs as [|c cs IH]; intros k k' n L tb tb' Ht HL Hn Hlevel Hrun.
  - injection Ht as <-. now injection Hrun as <-.
  - cbn [run_calls] in Hrun.
    destruct (run_call tb c) as [tb1|] eqn:E; [|discriminate].
    destruct c; cbn [track_depth run_call] in *.
    + apply PutText_from_setup in E. destruct E as [_ E].
      apply (IH k k' n L tb1 tb' Ht HL Hn); [now rewrite E | exact Hrun].
    + injection E as <-. destruct (NewLine_setup tb) as [_ E].
      apply (IH k k' n L (NewLine tb) tb' Ht HL Hn);
        [now rewrite E | exact Hrun].
    + injection E as <-. destruct (Spacer_setup tb) as [_ E].
      apply (IH k k' n L (Spacer tb) tb' Ht HL Hn);
        [now rewrite E | exact Hrun].
    + injection E as <-.
      destruct (S k <=? n)%nat eqn:Ek; [|discriminate].
      apply Nat.leb_le in Ek.
      apply (IH (S k) k' n L (Indent tb) tb' Ht HL Hn); [|exact Hrun].
      cbn [Indent set_IndentationLevel m_IndentationLevel].
      unfold size_t_wrap. rewrite Z.mod_small; lia.
    + injection E as <-. destruct k as [|k]; [discriminate|].
      apply (IH k k' n L (DeIndent tb) tb' Ht HL Hn); [|exact Hrun].
      unfold DeIndent.
      rewrite (proj2 (Z.ltb_lt 0 (m_IndentationLevel tb))) by lia.
      cbn [set_IndentationLevel m_IndentationLevel]. lia.
Qed.

Lemma Option_WriteHint_flat (sh : Shared) (opt : IOption) :
  forallb keeps_depth (Option_WriteHint sh opt) = true.
Proof.
  unfold Option_WriteHint, IOption_WriteHint, FlagOption_WriteHint,
    ChoiceOption_WriteHint.
  destruct (IOption_data opt); destruct (HasMetaVar opt);
    destruct (HasShortPrefix sh && HasShortName opt); reflexivity.
Qed.

Lemma Arg_WriteHint_flat (a : IPositionalArgument) :
  forallb keeps_depth (Arg_WriteHint a) = true.
Proof.
  unfold Arg_WriteHint.
  destruct (Arg_HasDefaultValue a); [destruct (IsVariadic a)|]; reflexivity.
Qed.

Lemma IArgParser_WriteHint_flat (p : IArgParser) :
  forallb keeps_depth (IArgParser_WriteHint p) = true.
Proof.
  unfold IArgParser_WriteHint. rewrite forallb_app. apply andb_true_intro.
  split.
  - destruct (m_Commands p); destruct (m_Options p); reflexivity.
  - destruct (m_Arguments p) as [|a0 ar]; [reflexivity|].
    cbn [forallb keeps_depth andb]. generalize (a0 :: ar). intros l.
    induction l as [|a l IH]; [reflexivity|].
    cbn [flat_map].
    change (CPutText " " :: Arg_WriteHint a)
      with ([CPutText " "] ++ Arg_WriteHint a)%list.
    now rewrite !forallb_app, Arg_WriteHint_flat, IH.
Qed.

Lemma description_block_depth (b : bool) (description : string) (n : nat) :
  (1 <= n)%nat -> track_depth 0 n (description_block b description) = Some O.
Proof.
  intros Hn. destruct b; [|reflexivity]. cbn [description_block track_depth].
  now rewrite (proj2 (Nat.leb_le 1 n) Hn).
Qed.

Lemma Option_WriteHelp_depth (sh : Shared) (opt : IOption) (n : nat) :
  (1 <= n)%nat -> track_depth 0 n (Option_WriteHelp sh opt) = Some O.
Proof.
  intros Hn. unfold Option_WriteHelp, FlagOption_WriteHelp, IOption_WriteHelp.
  destruct (IOption_data opt);
    repeat (apply track_depth_seq);
    try (apply track_depth_flat, Option_WriteHint_flat);
    try (now apply description_block_depth);
    try reflexivity.
  destruct (HasShortPrefix sh && HasShortName opt); reflexivity.
Qed.

Lemma Arg_WriteHelp_depth (a : IPositionalArgument) (n : nat) :
  (1 <= n)%nat -> track_depth 0 n (Arg_WriteHelp a) = Some O.
Proof.
  intros Hn. unfold Arg_WriteHelp. apply track_depth_seq.
  - destruct (IsVariadic a); reflexivity.
  - now apply description_block_depth.
Qed.

Lemma nesting_child (u : bool) (n d : string) (os : list IOption)
    (cs : list IArgParser) (ar : list IPositionalArgument) (c : IArgParser) :
  In c cs -> (S (nesting c) <= nesting (mkIArgParser u n d os cs ar))%nat.
Proof.
  cbn [nesting]. induction cs as [|x cs IH]; intros Hin; [destruct Hin|].
  cbn [fold_right]. destruct Hin as [->|Hin]; [lia|].
  specialize (IH Hin). lia.
Qed.

(** The calls of [WriteHelp] are balanced: every [Indent] is closed,
    and the depth goes at most two above the nesting of the
    subcommands. *)
Lemma IArgParser_WriteHelp_depth (sh : Shared) (bo bs : bool) (p : IArgParser) :
  track_depth 0 (2 + nesting p) (IArgParser_WriteHelp sh bo bs p) = Some O.
Proof.
  induction p as [u n d os cs ar IHcs] using IArgParser_tree_ind.
  set (p := mkIArgParser u n d os cs ar).
  set (N := (2 + nesting p)%nat).
  assert (HN : (2 <= N)%nat) by (unfold N; lia).
  cbn [IArgParser_WriteHelp]. fold p.
  apply track_depth_seq;
    [apply track_depth_flat, IArgParser_WriteHint_flat|].
  apply track_depth_seq; [reflexivity|].
  apply track_depth_seq.
  { match goal with
    | |- context [IArgParser_HasDescription ?x] =>
        destruct (IArgParser_HasDescription x)
    end; [|reflexivity].
    cbn [track_depth]. now rewrite (proj2 (Nat.leb_le 1 N)) by lia. }
  apply track_depth_seq.
  { apply track_depth_flat_map. apply Forall_forall. intros a _.
    destruct (Arg_HasDescription a); [|reflexivity].
    apply track_depth_seq; [apply Arg_WriteHelp_depth; lia | reflexivity]. }
  apply track_depth_seq.
  - destruct os as [|o os']; [reflexivity|].
    apply track_depth_seq; [reflexivity|].
    destruct bo.
    + apply track_depth_seq; [|reflexivity].
      apply track_depth_flat_map. apply Forall_forall. intros opt _.
      apply (track_depth_block _ CNewLine 0); try reflexivity; try lia.
      apply track_depth_flat, Option_WriteHint_flat.
    + apply track_depth_flat_map. apply Forall_forall. intros opt _.
      apply (track_depth_block _ CSpacer 1); try reflexivity; try lia.
      apply Option_WriteHelp_depth. lia.
  - destruct cs as [|c0 cs']; [reflexivity|].
    apply track_depth_seq; [reflexivity|].
    destruct bs.
    + apply track_depth_seq; [|reflexivity].
      apply track_depth_flat_map. apply Forall_forall. intros cmd _.
      apply (track_depth_block _ CNewLine 0); try reflexivity; try lia.
      apply track_depth_flat, IArgParser_WriteHint_flat.
    + apply track_depth_flat_map. apply Forall_forall. intros cmd Hin.
      rewrite Forall_forall in IHcs.
      apply (track_depth_block _ CSpacer (2 + nesting cmd));
        try reflexivity.
      * apply IHcs. exact Hin.
      * pose proof (nesting_child u n d os (c0 :: cs') ar cmd Hin).
        unfold N, p. lia.
Qed.

End IndentBalance.

(** X23.  Writing a help page leaves the builder at the indentation
    depth it found: every [Indent] that [WriteHelp] makes, for the
    description, for each option and for each subcommand at every
    level of the tree, is undone by a [DeIndent], provided the depth
    has room for two levels more than the subcommands nest. *)
Theorem WriteHelp_restores_depth (sh : Shared)
    (briefOptions briefSubcommands : bool) (p : IArgParser) (tb : TextBuilder) :
  0 <= m_IndentationLevel tb ->
  m_IndentationLevel tb + Z.of_nat (2 + nesting p) < 2 ^ 64 ->
  exists tb',
    run_calls tb (IArgParser_WriteHelp sh briefOptions briefSubcommands p)
    = Some tb'
    /\ m_IndentationLevel tb' = m_IndentationLevel tb.
Proof.
  intros H0 Hroom.
  destruct (run_calls_total
              (IArgParser_WriteHelp sh briefOptions briefSubcommands p) tb)
    as [tb' Hrun].
  exists tb'. split; [exact Hrun|].
  pose proof (run_calls_depth _ 0 0 _ (m_IndentationLevel tb) tb tb'
                (IArgParser_WriteHelp_depth sh briefOptions briefSubcommands p)
                H0 Hroom) as H.
  cbn [Z.of_nat] in H. rewrite !Z.add_0_r in H. now apply H.
Qed.

(** An instance: the full help of the calculator with a subcommand. *)
Lemma WriteHelp_restores_depth_witness :
  exists tb',
    run_calls (Indent TextBuilder_default)
      (IArgParser_WriteHelp default_shared false false
         (AddCommand (root math_parser) sub_command))
    = Some tb'
    /\ m_IndentationLevel tb' = 1.
Proof.
  refine (WriteHelp_restores_depth default_shared false false
            (AddCommand (root math_parser) sub_command)
            (Indent TextBuilder_default) _ _).
  - vm_compute. discriminate.
  - vm_compute. reflexivity.
Defined.

Section HelpPaths.

Lemma concat_empty_cons (x : string) (xs : list string) :
  String.concat "" (x :: xs) = x ++ String.concat "" xs.
Proof.
  destruct xs; cbn [String.concat]; [now rewrite string_app_empty_r|].
  reflexivity.
Qed.

Lemma concat_blank_snoc (found : list string) (last : string) :
  String.concat "" (map (fun s => s ++ " ") found) ++ last
  = String.concat " " (found ++ [last]).
Proof.
  induction found as [|x found IH]; [reflexivity|].
  cbn [map app]. rewrite concat_empty_cons, string_app_assoc, IH.
  destruct found; cbn [app String.concat];
    now rewrite ?string_app_assoc.
Qed.

Lemma HelpCommand_walk_resolved (path : list string) :
  forall p acc q,
    resolve p path = Some q ->
    HelpCommand_walk p acc path = inr (acc ++ help_header path, q).
Proof.
  unfold help_header.
  induction path as [|seg rest IH]; intros p acc q H.
  - injection H as <-. cbn. now rewrite string_app_empty_r.
  - cbn [resolve HelpCommand_walk] in *.
    destruct (find _ (m_Commands p)) as [sub|]; [|discriminate].
    destruct rest as [|r rest].
    + injection H as <-. cbn. now rewrite string_app_empty_r.
    + rewrite (IH sub _ q H).
      change (removelast (seg :: r :: rest))
        with (seg :: removelast (r :: rest)).
      cbn [map]. rewrite concat_empty_cons.
      now rewrite !string_app_assoc.
Qed.

Lemma HelpCommand_walk_unresolved (found : list string) :
  forall p acc q bad rest,
    resolve p found = Some q ->
    find (fun sub => String.eqb (m_Name sub) bad) (m_Commands q) = None ->
    HelpCommand_walk p acc (found ++ bad :: rest)
    = inl [CPutText ("Could not find help for '" ++ acc
                     ++ String.concat "" (map (fun s => s ++ " ") found)
                     ++ bad ++ "'.");
           CNewLine].
Proof.
  induction found as [|seg found IH]; intros p acc q bad rest H Hbad.
  - injection H as <-. cbn [app HelpCommand_walk]. now rewrite Hbad.
  - cbn [resolve app HelpCommand_walk] in *.
    destruct (find _ (m_Commands p)) as [sub|]; [|discriminate].
    assert (Hnext :
      (match (found ++ bad :: rest)%list with
       | [] => acc
       | _ => acc ++ seg ++ " "
       end) = acc ++ seg ++ " ") by (destruct found; reflexivity).
    rewrite Hnext, (IH sub _ q bad rest H Hbad).
    cbn [map]. rewrite concat_empty_cons.
    now rewrite !string_app_assoc.
Qed.

End HelpPaths.

(** X24.  When a segment of the path given to the help command names
    no subcommand of the node reached so far, the command writes one
    line, [Could not find help for '<path>'.], where the path is every
    segment up to and including the failing one, separated by single
    blanks, and nothing else: no help page, and the segments after the
    failing one are ignored. *)
Theorem HelpCommand_unknown_segment (sh : Shared) (parser q : IArgParser)
    (m_PrintType : IOption) (m_HelpFor : IPositionalArgument)
    (found rest : list string) (bad : string) :
  StrVarArgument_GetValue m_HelpFor = (found ++ bad :: rest)%list ->
  resolve parser found = Some q ->
  find (fun sub => String.eqb (m_Name sub) bad) (m_Commands q) = None ->
  HelpCommand_call sh parser m_PrintType m_HelpFor
  = [CPutText ("Could not find help for '"
               ++ String.concat " " (found ++ [bad]) ++ "'.");
     CNewLine].
Proof.
  intros Hpath Hres Hbad. unfold HelpCommand_call.
  rewrite Hpath, (HelpCommand_walk_unresolved found parser "" q bad rest Hres Hbad).
  cbn [String.append]. now rewrite <- string_app_assoc, concat_blank_snoc.
Qed.

(** An instance: [help sub nope more] on the calculator with [sub]. *)
Lemma HelpCommand_unknown_segment_witness :
  HelpCommand_call default_shared
    (HelpCommand_new (AddCommand (root math_parser) sub_command))
    HelpCommand_PrintType
    (variadic_argument true "CMD" "" ["sub"; "nope"; "more"])
  = [CPutText "Could not find help for 'sub nope'."; CNewLine].
Proof.
  refine (HelpCommand_unknown_segment default_shared
    (HelpCommand_new (AddCommand (root math_parser) sub_command)) sub_command
    HelpCommand_PrintType
    (variadic_argument true "CMD" "" ["sub"; "nope"; "more"])
    ["sub"] ["more"] "nope" eq_refl eq_refl eq_refl).
Defined.

(** X25.  When every segment of the path names a subcommand of the
    node before it, the help command writes the segments but the last,
    each followed by a blank, and then the help page of the node the
    path leads to, with full option help and with the subcommands in
    brief exactly when [print] is [brief]; the empty path gives the
    page of the root parser. *)
Theorem HelpCommand_resolved_path (sh : Shared) (parser q : IArgParser)
    (m_PrintType : IOption) (m_HelpFor : IPositionalArgument) :
  resolve parser (StrVarArgument_GetValue m_HelpFor) = Some q ->
  HelpCommand_call sh parser m_PrintType m_HelpFor
  = CPutText (help_header (StrVarArgument_GetValue m_HelpFor))
      :: IArgParser_WriteHelp sh false
           (String.eqb (ChoiceOption_GetValue m_PrintType) "brief") q.
Proof.
  intros Hres. unfold HelpCommand_call.
  now rewrite (HelpCommand_walk_resolved _ parser "" q Hres).
Qed.

(** An instance: [help sub] on the calculator with [sub], in brief. *)
Lemma HelpCommand_resolved_path_witness :
  HelpCommand_call default_shared
    (HelpCommand_new (AddCommand (root math_parser) sub_command))
    HelpCommand_PrintType (variadic_argument true "CMD" "" ["sub"])
  = CPutText "" :: IArgParser_WriteHelp default_shared false true sub_command.
Proof.
  refine (HelpCommand_resolved_path default_shared
    (HelpCommand_new (AddCommand (root math_parser) sub_command)) sub_command
    HelpCommand_PrintType (variadic_argument true "CMD" "" ["sub"]) eq_refl).
Defined.
